(** * generate_noise_texture.py: a shallow embedding and its properties

    The script samples a coherent-noise primitive over a [height] x [width]
    grid, rescales the samples to [0,1], converts them to bytes and saves
    the raster.  The embedding follows the body of
    [generate_simplex_noise_texture] line by line.

    - Python exceptions are values of [PyError]; a computation that can
      raise returns [Exc A].
    - The random source, the file system and the console are the fields of
      [World]; the function is a state transformer over it.
    - numpy's float64 is an instance of the class [Float64].  Two
      instances are given: the primitive binary64 floats, on which the
      normalizer and the quantizer are verified against the IEEE 754
      specification of [SpecFloat] (rounding, overflow, signed zeros and
      NaN included), and exact rationals [Q], used where the statement is
      about coordinates, errors and periods and rounding plays no part.
    - [noise.pnoise2], numpy, PIL and os are not part of the repository:
      the noise primitive is a parameter, the others are modelled by what
      their documentation says of the calls the script makes. *)

From Stdlib Require Import ZArith QArith Qround Qpower Lia Lqa.
From Stdlib Require Import List String Ascii Bool.
From Stdlib Require Import Floats.
From stdpp Require Import gmap strings.
Import ListNotations.

Local Open Scope Z_scope.

(** ** Exceptions *)

Inductive PyError : Set :=
| ValueError
| ZeroDivisionError
| FileNotFoundError
| FileExistsError
| NotADirectoryError
| IsADirectoryError
| IndexError
| RecursionError.

Inductive Exc (A : Type) : Type :=
| Ok (a : A)
| Raise (e : PyError).
Arguments Ok {A} a.
Arguments Raise {A} e.

#[export] Instance exc_ret : MRet Exc := fun _ a => Ok a.
#[export] Instance exc_bind : MBind Exc := fun _ _ k x =>
  match x with
  | Ok a => k a
  | Raise e => Raise e
  end.

(** OSError and its subclasses, as [except OSError] sees them. *)
Definition is_OSError (e : PyError) : bool :=
  match e with
  | FileNotFoundError | FileExistsError | NotADirectoryError
  | IsADirectoryError => true
  | ValueError | ZeroDivisionError | IndexError | RecursionError => false
  end.

(** The spec's InvalidParameter: the two exceptions Python raises for a bad
    argument value. *)
Definition InvalidParameter (e : PyError) : bool :=
  match e with
  | ValueError | ZeroDivisionError => true
  | _ => false
  end.

(** ** float64 *)

Class Float64 (F : Type) : Type := {
  of_int : Z -> F;          (* float(i) *)
  fsub : F -> F -> F;       (* a - b *)
  fmul : F -> F -> F;       (* a * b *)
  fdiv : F -> F -> F;       (* numpy's a / b, never raises *)
  feqb : F -> F -> bool;    (* a == b *)
  fmin : F -> F -> F;       (* np.minimum *)
  fmax : F -> F -> F;       (* np.maximum *)
  ftrunc : F -> Z           (* the C cast to an integer type: toward zero *)
}.

(** Exact rationals: float64 without rounding, overflow, signed zeros
    and NaN.  The instance serves the statements in which none of these
    plays a part (which call raises, which coordinate is sampled, which
    period the samples have); what lines 28 to 36 compute is stated on
    binary64. *)
Definition Qtrunc (q : Q) : Z := Z.quot (Qnum q) (Zpos (Qden q)).

#[export] Instance Q_float64 : Float64 Q := {|
  of_int := inject_Z;
  fsub := Qminus;
  fmul := Qmult;
  fdiv := Qdiv;
  feqb := Qeq_bool;
  fmin := fun a b => if Qle_bool a b then a else b;
  fmax := fun a b => if Qle_bool b a then a else b;
  ftrunc := Qtrunc
|}.

(** IEEE 754 binary64, the kernel's primitive floats. *)
Module Binary64.

Definition of_Z (z : Z) : float :=
  SF2Prim (binary_normalize FloatOps.prec FloatOps.emax z 0 false).

Definition to_Z (x : float) : Z :=
  match Prim2SF x with
  | S754_finite s m e =>
      let a := if 0 <=? e then Z.shiftl (Zpos m) e
               else Z.shiftr (Zpos m) (- e) in
      if s then - a else a
  | _ => 0
  end.

Definition is_nan (x : float) : bool := negb (PrimFloat.eqb x x).

(* np.minimum and np.maximum return NaN when either operand is NaN *)
Definition minimum (a b : float) : float :=
  if is_nan a then a else if is_nan b then b
  else if PrimFloat.leb a b then a else b.

Definition maximum (a b : float) : float :=
  if is_nan a then a else if is_nan b then b
  else if PrimFloat.leb b a then a else b.

#[global] Instance float_float64 : Float64 float := {|
  of_int := of_Z;
  fsub := PrimFloat.sub;
  fmul := PrimFloat.mul;
  fdiv := PrimFloat.div;
  feqb := PrimFloat.eqb;
  fmin := minimum;
  fmax := maximum;
  ftrunc := to_Z
|}.

End Binary64.

(** ** numpy arrays of rank 2 *)

Record ndarray (A : Type) : Type := mk_ndarray {
  shape : nat * nat;            (* (rows, columns) *)
  data : list (list A)
}.
Arguments mk_ndarray {A} shape data.
Arguments shape {A} n.
Arguments data {A} n.

Definition np_map {A B} (f : A -> B) (a : ndarray A) : ndarray B :=
  mk_ndarray (shape a) (List.map (List.map f) (data a)).

(** [a[i][j]] and [a[i][j] = v]; an index out of range is an IndexError. *)
Definition np_get {A} (a : ndarray A) (i j : nat) : option A :=
  row ← data a !! i; row !! j.

Definition np_set {A} (a : ndarray A) (i j : nat) (v : A) : Exc (ndarray A) :=
  match data a !! i with
  | Some row =>
      if (j <? length row)%nat
      then Ok (mk_ndarray (shape a) (<[i := <[j := v]> row]> (data a)))
      else Raise IndexError
  | None => Raise IndexError
  end.

Definition flat {A} (a : ndarray A) : list A := List.concat (data a).

Section Numpy.
Context {F : Type} `{Float64 F}.

(** [np.zeros((height, width))]: negative dimensions are refused.  That
    numpy also refuses an array too large to allocate is not modelled:
    memory is unbounded here. *)
Definition np_zeros (height width : Z) : Exc (ndarray F) :=
  if (height <? 0) || (width <? 0) then Raise ValueError
  else Ok (mk_ndarray (Z.to_nat height, Z.to_nat width)
             (repeat (repeat (of_int 0) (Z.to_nat width)) (Z.to_nat height))).

Definition np_zeros_like (a : ndarray F) : ndarray F :=
  np_map (fun _ => of_int 0) a.

(** [np.min], [np.max]: a reduction over all entries; an empty array has
    no identity for it. *)
Definition np_min (a : ndarray F) : Exc F :=
  match flat a with
  | [] => Raise ValueError
  | x :: xs => Ok (fold_left fmin xs x)
  end.

Definition np_max (a : ndarray F) : Exc F :=
  match flat a with
  | [] => Raise ValueError
  | x :: xs => Ok (fold_left fmax xs x)
  end.

(** [i / scale] on a Python int and a Python float. *)
Definition py_truediv (i : Z) (scale : F) : Exc F :=
  if feqb scale (of_int 0) then Raise ZeroDivisionError
  else Ok (fdiv (of_int i) scale).

(** [.astype(np.uint8)] on one entry. *)
Definition astype_uint8 (v : F) : Z := ftrunc v mod 256.

End Numpy.

(** ** The world outside the function *)

(** A PIL image in mode 'L': [size] is (width, height). *)
Record Image : Type := mk_Image {
  size : nat * nat;
  pixels : list (list Z)
}.

Inductive Node : Type :=
| Dir
| File (content : Image).

(** Files and directories by their path components.  The current
    directory is the empty list; an absolute path starts with the
    component "/". *)
Record World : Type := mk_World {
  rng : list Z;                       (* raw outputs the random source will give *)
  fs : gmap (list string) Node;
  stdout : list string
}.

Definition set_fs (w : World) (f : gmap (list string) Node) : World :=
  mk_World (rng w) f (stdout w).

Definition M (A : Type) : Type := World -> Exc A * World.

#[export] Instance M_ret : MRet M := fun _ a w => (Ok a, w).
#[export] Instance M_bind : MBind M := fun _ _ k m w =>
  match m w with
  | (Ok a, w') => k a w'
  | (Raise e, w') => (Raise e, w')
  end.

Definition lift {A} (x : Exc A) : M A := fun w => (x, w).

(** [np.random.randint(low, high)]: an integer in [low, high); only that
    range is modelled, from the next raw output of the source. *)
Definition np_random_randint (low high : Z) : M Z := fun w =>
  if high <=? low then (Raise ValueError, w)
  else
    let raw := List.hd 0 (rng w) in
    (Ok (low + raw mod (high - low)),
     mk_World (List.tl (rng w)) (fs w) (stdout w)).

Definition print (line : string) : M unit := fun w =>
  (Ok tt, mk_World (rng w) (fs w) (stdout w ++ [line])).

(** *** posixpath *)

Definition sep : ascii := "/"%char.

(** [(p[:i], p[i:])] for [i = p.rfind('/') + 1]. *)
Fixpoint cut_last_sep (p : string) : string * string :=
  match p with
  | EmptyString => (EmptyString, EmptyString)
  | String c r =>
      let '(h, t) := cut_last_sep r in
      if negb (String.eqb h "") then (String c h, t)
      else if Ascii.eqb c sep then (String c "", t)
      else (EmptyString, String c t)
  end.

(** [p.rstrip('/')] *)
Fixpoint rstrip_sep (p : string) : string :=
  match p with
  | EmptyString => EmptyString
  | String c r =>
      let r' := rstrip_sep r in
      if Ascii.eqb c sep && String.eqb r' "" then EmptyString
      else String c r'
  end.

(** [head == '/' * len(head)] *)
Fixpoint all_sep (p : string) : bool :=
  match p with
  | EmptyString => true
  | String c r => Ascii.eqb c sep && all_sep r
  end.

Definition os_path_split (p : string) : string * string :=
  let '(head, tail) := cut_last_sep p in
  if negb (String.eqb head "") && negb (all_sep head)
  then (rstrip_sep head, tail)
  else (head, tail).

Definition os_path_dirname (p : string) : string := fst (os_path_split p).

(** The components of a path: split at '/', without the empty ones and
    the "." ones.  A ".." is kept as a component and not resolved, and
    there are no symbolic links: a path with ".." names its entry here,
    not the entry the kernel would resolve it to. *)
Fixpoint split_sep (p : string) : list string :=
  match p with
  | EmptyString => [EmptyString]
  | String c r =>
      if Ascii.eqb c sep then EmptyString :: split_sep r
      else match split_sep r with
           | [] => [String c ""]
           | x :: xs => String c x :: xs
           end
  end.

Definition path_key (p : string) : list string :=
  let cs := List.filter
              (fun c => negb (String.eqb c "") && negb (String.eqb c "."))
              (split_sep p) in
  match p with
  | String c _ => if Ascii.eqb c sep then "/"%string :: cs else cs
  | EmptyString => cs
  end.

(** *** The file system calls *)

Definition lookup_key (f : gmap (list string) Node) (k : list string)
  : option Node :=
  match k with
  | [] => Some Dir
  | [r] => if String.eqb r "/" then Some Dir else f !! k
  | _ => f !! k
  end.

(** An empty path names nothing (ENOENT). *)
Definition stat (f : gmap (list string) Node) (p : string) : option Node :=
  if String.eqb p "" then None else lookup_key f (path_key p).

Definition os_path_exists (f : gmap (list string) Node) (p : string) : bool :=
  bool_decide (is_Some (stat f p)).

Definition os_path_isdir (f : gmap (list string) Node) (p : string) : bool :=
  match stat f p with
  | Some Dir => true
  | _ => false
  end.

(** What the directory that is to hold a new entry allows. *)
Definition parent_check (f : gmap (list string) Node) (k : list string)
  : Exc unit :=
  match lookup_key f (removelast k) with
  | Some Dir => Ok tt
  | Some (File _) => Raise NotADirectoryError
  | None => Raise FileNotFoundError
  end.

Definition os_mkdir (p : string) : M unit := fun w =>
  if String.eqb p "" then (Raise FileNotFoundError, w)
  else match stat (fs w) p with
       | Some _ => (Raise FileExistsError, w)
       | None =>
           match parent_check (fs w) (path_key p) with
           | Ok _ => (Ok tt, set_fs w (<[path_key p := Dir]> (fs w)))
           | Raise e => (Raise e, w)
           end
       end.

(** [os.makedirs(name, exist_ok=exist_ok)], after CPython's os.py: the
    parent first, then [mkdir(name)], whose OSError is swallowed only when
    [exist_ok] holds and [name] is a directory.  The recursion is on a
    strictly shorter [head]; [fuel] bounds its depth. *)
Fixpoint makedirs_rec (fuel : nat) (name : string) (exist_ok : bool)
  : M unit :=
  match fuel with
  | O => fun w => (Raise RecursionError, w)
  | S fuel' =>
      let '(head, tail) := os_path_split name in
      let '(head, tail) :=
        if String.eqb tail "" then os_path_split head else (head, tail) in
      let leaf : M unit := fun w =>
        match os_mkdir name w with
        | (Raise e, w') =>
            if is_OSError e && exist_ok && os_path_isdir (fs w') name
            then (Ok tt, w')
            else (Raise e, w')
        | r => r
        end in
      fun w =>
        if negb (String.eqb head "") && negb (String.eqb tail "")
           && negb (os_path_exists (fs w) head)
        then
          match makedirs_rec fuel' head exist_ok w with
          | (Ok _, w') | (Raise FileExistsError, w') =>
              if String.eqb tail "." then (Ok tt, w') else leaf w'
          | (Raise e, w') => (Raise e, w')
          end
        else leaf w
  end.

Definition os_makedirs (name : string) (exist_ok : bool) : M unit :=
  makedirs_rec (S (String.length name)) name exist_ok.

(** [Image.fromarray(a, 'L')]: the image is [shape[1]] wide and
    [shape[0]] high. *)
Definition Image_fromarray (a : ndarray Z) : Image :=
  mk_Image (snd (shape a), fst (shape a)) (data a).

(** [img.save(path)]: the file is opened for writing and receives the
    encoded raster.  The encoder (chosen by PIL from the file extension) is
    not modelled: the file holds the image itself, whatever the extension,
    and the ValueError PIL raises for an extension it does not know is
    left out. *)
Definition Image_save (img : Image) (path : string) : M unit := fun w =>
  if String.eqb path "" then (Raise FileNotFoundError, w)
  else match stat (fs w) path with
       | Some Dir => (Raise IsADirectoryError, w)
       | _ =>
           match parent_check (fs w) (path_key path) with
           | Ok _ => (Ok tt, set_fs w (<[path_key path := File img]> (fs w)))
           | Raise e => (Raise e, w)
           end
       end.

(** ** generate_simplex_noise_texture *)

Record Params (F : Type) : Type := mk_Params {
  width : Z;
  height : Z;
  scale : F;
  octaves : Z;
  persistence : F;
  lacunarity : F;
  seed : option Z;
  output_path : string
}.
Arguments mk_Params {F}.
Arguments width {F} p.
Arguments height {F} p.
Arguments scale {F} p.
Arguments octaves {F} p.
Arguments persistence {F} p.
Arguments lacunarity {F} p.
Arguments seed {F} p.
Arguments output_path {F} p.

(** [for i in range(n)]: the indices, and a loop body that may raise. *)
Definition range (n : Z) : list nat := seq 0 (Z.to_nat n).

Fixpoint for_each {S : Type} (l : list nat) (body : nat -> S -> Exc S) (s : S)
  : Exc S :=
  match l with
  | [] => Ok s
  | i :: r => s' ← body i s; for_each r body s'
  end.

Section Generator.
Context {F : Type} `{Float64 F}.

(** [noise.pnoise2(x, y, octaves, persistence, lacunarity, repeatx,
    repeaty, base)] *)
Variable pnoise2 : F -> F -> Z -> F -> F -> Z -> Z -> Z -> Exc F.

(** The function's defaults. *)
Definition default_params : Params F :=
  mk_Params 256 256 (of_int 50) 4 (fdiv (of_int 1) (of_int 2)) (of_int 2)
    None "public/assets/normal.png".

(** Line 18: the value stored at [world[i][j]]. *)
Definition sample (p : Params F) (base : Z) (i j : Z) : Exc F :=
  x ← py_truediv i (scale p);
  y ← py_truediv j (scale p);
  pnoise2 x y (octaves p) (persistence p) (lacunarity p)
    (width p) (height p) base.

(** Lines 14 to 25. *)
Definition sample_world (p : Params F) (base : Z) : Exc (ndarray F) :=
  world ← np_zeros (height p) (width p);
  for_each (range (height p)) (fun i world =>
    for_each (range (width p)) (fun j world =>
      v ← sample p base (Z.of_nat i) (Z.of_nat j);
      np_set world i j v) world) world.

(** Lines 28 to 33. *)
Definition normalize_world (world : ndarray F) : Exc (ndarray F) :=
  min_val ← np_min world;
  max_val ← np_max world;
  if feqb max_val min_val then Ok (np_zeros_like world)
  else Ok (np_map (fun v => fdiv (fsub v min_val) (fsub max_val min_val))
             world).

(** Line 36, on one entry and on the array. *)
Definition quantize (v : F) : Z := astype_uint8 (fmul v (of_int 255)).

Definition to_img_array (normalized_world : ndarray F) : ndarray Z :=
  np_map quantize normalized_world.

(** Lines 14 to 39 for a given seed: the height field, the byte grid
    and the image. *)
Definition compute_texture (p : Params F) (base : Z)
  : Exc (ndarray F * ndarray Z * Image) :=
  world ← sample_world p base;
  normalized_world ← normalize_world world;
  let img_array := to_img_array normalized_world in
  Ok (world, img_array, Image_fromarray img_array).

(** Lines 11 to 39: the seed is drawn when none is given. *)
Definition texture_body (p : Params F)
  : M (ndarray F * ndarray Z * Image) :=
  base ← match seed p with
         | None => np_random_randint 0 100
         | Some s => mret s
         end;
  lift (compute_texture p base).

Definition generate_simplex_noise_texture (p : Params F) : M unit :=
  '(_, _, img) ← texture_body p;
  _ ← os_makedirs (os_path_dirname (output_path p)) true;
  _ ← Image_save img (output_path p);
  print ("Generated noise texture saved to " ++ output_path p).

End Generator.

(** ** Notions the statements use *)

Definition well_shaped {A} (a : ndarray A) : Prop :=
  length (data a) = fst (shape a) /\
  Forall (fun row => length row = snd (shape a)) (data a).

(** The seeds [randint(0, 100)] can give. *)
Definition default_seeds : list Z := List.map Z.of_nat (seq 0 100).

Fixpoint contains_sep (p : string) : bool :=
  match p with
  | EmptyString => false
  | String c r => Ascii.eqb c sep || contains_sep r
  end.

(** Rounding to the nearest integer, halves to the even one, as Python's
    [round] and [np.round] do: what the spec's data model asks of a
    pixel. *)
Definition spec_round (q : Q) : Z :=
  let f := Qfloor q in
  match (q - inject_Z f ?= 1 # 2)%Q with
  | Lt => f
  | Gt => f + 1
  | Eq => if Z.even f then f else f + 1
  end.

(** A noise primitive with the wrap contract and nothing else: a sawtooth
    of period [repeatx] along x plus one of period [repeaty] along y. *)
Definition Qfrac (q : Q) : Q := (q - inject_Z (Qfloor q))%Q.

Definition saw_noise (x y : Q) (octaves : Z) (persistence lacunarity : Q)
    (repeatx repeaty base : Z) : Exc Q :=
  Ok (Qfrac (x / inject_Z repeatx) + Qfrac (y / inject_Z repeaty))%Q.

(** Equal outcomes, up to the representation of a rational. *)
Definition exc_Qeq (a b : Exc Q) : Prop :=
  match a, b with
  | Ok u, Ok v => (u == v)%Q
  | Raise e, Raise e' => e = e'
  | _, _ => False
  end.

(** The wrap contract: one period further along x or along y, the
    primitive gives the same value. *)
Definition periodic (pn : Q -> Q -> Z -> Q -> Q -> Z -> Z -> Z -> Exc Q)
  : Prop :=
  forall x y o pe la rx ry b, 0 < rx -> 0 < ry ->
    exc_Qeq (pn (x + inject_Z rx)%Q y o pe la rx ry b) (pn x y o pe la rx ry b) /\
    exc_Qeq (pn x (y + inject_Z ry)%Q o pe la rx ry b) (pn x y o pe la rx ry b).

(** The primitive gives equal values at equal coordinates. *)
Definition respects_Qeq (pn : Q -> Q -> Z -> Q -> Q -> Z -> Z -> Z -> Exc Q)
  : Prop :=
  forall x x' y y' o pe la rx ry b, (x == x')%Q -> (y == y')%Q ->
    exc_Qeq (pn x y o pe la rx ry b) (pn x' y' o pe la rx ry b).

(** The tiling property of the spec: the row one grid height further
    equals row 0, in every column. *)
Definition tiles_vertically
    (pn : Q -> Q -> Z -> Q -> Q -> Z -> Z -> Z -> Exc Q) (p : Params Q) : Prop :=
  forall base j, exc_Qeq (sample pn p base (height p) j) (sample pn p base 0 j).

(** The defaults, in exact arithmetic. *)
Definition defaults : Params Q := default_params.

Definition empty_world : World := mk_World [] ∅ [].

Definition busy_world : World :=
  mk_World [7; 3] {[ ["public"%string] := Dir ]} ["hello"%string].

(** A 2 x 2 texture with seed 0. *)
Definition tiny : Params Q :=
  mk_Params 2 2 50%Q 1 (1 # 2)%Q 2%Q (Some 0) "public/assets/normal.png".

(** The same with scale 0 and no seed. *)
Definition tiny_zero_scale : Params Q :=
  mk_Params 2 2 0%Q 1 (1 # 2)%Q 2%Q None "public/assets/normal.png".

(** The same with width 0. *)
Definition tiny_empty : Params Q :=
  mk_Params 0 2 50%Q 1 (1 # 2)%Q 2%Q (Some 0) "public/assets/normal.png".

(** The same with a negative scale. *)
Definition tiny_negative_scale : Params Q :=
  mk_Params 2 2 (-50)%Q 1 (1 # 2)%Q 2%Q (Some 0) "public/assets/normal.png".

Definition with_seed (p : Params Q) (s : option Z) : Params Q :=
  mk_Params (width p) (height p) (scale p) (octaves p) (persistence p)
    (lacunarity p) s (output_path p).

Definition with_path (p : Params Q) (path : string) : Params Q :=
  mk_Params (width p) (height p) (scale p) (octaves p) (persistence p)
    (lacunarity p) (seed p) path.

(** The height field and the byte grid of [tiny]. *)
Definition tiny_world : ndarray Q :=
  mk_ndarray (2, 2)%nat
    [[0 # 10000; 100 # 10000]; [100 # 10000; 200 # 10000]]%Q.

Definition tiny_img_array : ndarray Z :=
  mk_ndarray (2, 2)%nat [[0; 127]; [127; 255]].

(** What the loops keep of [world]: the shape [np.zeros] gave it. *)
Definition grid_shaped {F : Type} (p : Params F) (a : ndarray F) : Prop :=
  well_shaped a /\ shape a = (Z.to_nat (height p), Z.to_nat (width p)).

(** What a run may do to the files: keep every entry, and add
    directories. *)
Definition only_adds_dirs (f f' : gmap (list string) Node) : Prop :=
  forall k, match f !! k with
            | Some n => f' !! k = Some n
            | None => f' !! k = None \/ f' !! k = Some Dir
            end.

(** Row-major order of the pixels, the order the loops visit them in. *)
Definition visited_before (i' j' i j : nat) : Prop :=
  (i' < i \/ (i' = i /\ j' < j))%nat.

(** A primitive that raises ValueError right of the axis [x = 0] and is
    the sawtooth elsewhere: on a grid, rows 1 and below cannot be
    sampled. *)
Definition cliff_noise (x y : Q) (octaves : Z) (persistence lacunarity : Q)
    (repeatx repeaty base : Z) : Exc Q :=
  if Qle_bool x 0 then
    saw_noise x y octaves persistence lacunarity repeatx repeaty base
  else Raise ValueError.

(** ** binary64 numbers and their values *)

(** [2^e], for any integer [e]. *)
Definition pow2 (e : Z) : Q := (2 ^ e)%Q.
Arguments pow2 : simpl never.

(** The fraction a location stands for. *)
Definition loc_frac (l : location) (f : Q) : Prop :=
  match l with
  | loc_Exact => (f == 0)%Q
  | loc_Inexact Lt => (0 < f < 1 # 2)%Q
  | loc_Inexact Eq => (f == 1 # 2)%Q
  | loc_Inexact Gt => (1 # 2 < f < 1)%Q
  end.

(** [x] lies in [[m * 2^e, (m + 1) * 2^e)] at the place [l] says. *)
Definition located (m e : Z) (l : location) (x : Q) : Prop :=
  exists f, (x == (inject_Z m + f) * pow2 e)%Q /\ loc_frac l f.

(** The same for the mantissa and the two sticky bits of a shift. *)
Definition located_rec (r : shr_record) (e : Z) (x : Q) : Prop :=
  0 <= shr_m r /\ located (shr_m r) e (loc_of_shr_record r) x.

(** [E] is the exponent binary64 gives a number of the size of [x >= 0]:
    [K - 53] for [2^(K-1) <= x < 2^K], and never below -1074. *)
Definition canon (x : Q) (E : Z) : Prop :=
  exists K, E = Z.max (K - 53) (-1074) /\ (x < pow2 K)%Q /\
            ((pow2 (K - 1) <= x)%Q \/ K - 53 <= -1074).

(** [x] rounded to the nearest multiple of [2^E], ties to even. *)
Definition rnd_value (x : Q) (E : Z) : Q :=
  (inject_Z (spec_round (x / pow2 E)) * pow2 E)%Q.

(** The number a finite float stands for; 0 for the others. *)
Definition SF2Q (x : spec_float) : Q :=
  match x with
  | S754_finite s m e => (inject_Z (cond_Zopp s (Zpos m)) * pow2 e)%Q
  | _ => 0%Q
  end.

(** Neither NaN nor an infinity. *)
Definition SFfinite (x : spec_float) : bool :=
  match x with
  | S754_zero _ | S754_finite _ _ _ => true
  | _ => false
  end.

(** Zero of either sign, or a positive finite number. *)
Definition SFnonneg (x : spec_float) : bool :=
  match x with
  | S754_zero _ | S754_finite false _ _ => true
  | _ => false
  end.

(** A binary64 number: 53 bits of mantissa, exponents -1074 to 971. *)
Definition SFvalid (x : spec_float) : bool := valid_binary x.

(** [r] is what binary64 returns for the exact result [x >= 0]: [x]
    rounded to nearest, ties to even, and infinity from [2^1024] on. *)
Definition rounds (x : Q) (r : spec_float) : Prop :=
  exists E, canon x E /\
    match r with
    | S754_zero _ => (rnd_value x E == 0)%Q
    | S754_finite false m e => (inject_Z (Zpos m) * pow2 e == rnd_value x E)%Q
    | S754_infinity false => (pow2 1024 <= rnd_value x E)%Q
    | _ => False
    end.

(** The order a comparison result stands for. *)
Definition cmp_holds (c : comparison) (a b : Q) : Prop :=
  match c with
  | Lt => (a < b)%Q
  | Eq => (a == b)%Q
  | Gt => (b < a)%Q
  end.

(** The number a double stands for, and whether it is one. *)
Definition float_value (x : float) : Q := SF2Q (Prim2SF x).

Definition float_finite (x : float) : bool := SFfinite (Prim2SF x).

(** *** Height fields of doubles *)

(** Every entry is a number: no NaN, no infinity. *)
Definition all_finite (a : ndarray float) : Prop :=
  Forall (fun v => float_finite v = true) (flat a).

(** No difference of two entries overflows. *)
Definition finite_range (a : ndarray float) : Prop :=
  forall u v, In u (flat a) -> In v (flat a) -> float_finite (u - v) = true.

(** The least and the greatest entry of a field. *)
Definition field_min (a : ndarray float) (m : float) : Prop :=
  In m (flat a) /\
  forall v, In v (flat a) -> (float_value m <= float_value v)%Q.

Definition field_max (a : ndarray float) (m : float) : Prop :=
  In m (flat a) /\
  forall v, In v (flat a) -> (float_value v <= float_value m)%Q.

(** A flat field: all entries equal. *)
Definition degenerate (a : ndarray float) : Prop :=
  forall u v, In u (flat a) -> In v (flat a) ->
    (float_value u == float_value v)%Q.

(** A 2 x 2 texture with seed 0, in binary64. *)
Definition tiny64 : Params float :=
  mk_Params 2 2 50%float 1 0.5%float 2%float (Some 0)
    "public/assets/normal.png".

(** A primitive of doubles: the plane [x + y]. *)
Definition plane_noise (x y : float) (octaves : Z)
    (persistence lacunarity : float) (repeatx repeaty base : Z) : Exc float :=
  Ok (x + y)%float.

(** The height field and the byte grid of [tiny64] on the plane. *)
Definition plane_world : ndarray float :=
  mk_ndarray (2, 2)%nat [[0; 1 / 50]; [1 / 50; 1 / 50 + 1 / 50]]%float.

Definition plane_img_array : ndarray Z :=
  mk_ndarray (2, 2)%nat [[0; 127]; [127; 255]].

(** The double written 1e308. *)
Definition huge : float := 0x1.1ccf385ebc8ap+1023%float.

(** A field of numbers whose range overflows: [huge - (- huge)] is not a
    double. *)
Definition overflow_world : ndarray float :=
  mk_ndarray (2, 2)%nat [[- huge; huge]; [0; 0]]%float.

(** A primitive with that field as its samples on the grid of [tiny64]. *)
Definition huge_noise (x y : float) (octaves : Z)
    (persistence lacunarity : float) (repeatx repeaty base : Z) : Exc float :=
  Ok (if (0 <? x)%float then 0
      else if (0 <? y)%float then huge else - huge)%float.


(** * Properties *)

(** ** Unfolding the two monads *)

Lemma exc_bind_ok {A B} (x : Exc A) (k : A -> Exc B) (b : B) :
  x ≫= k = Ok b -> exists a, x = Ok a /\ k a = Ok b.
Proof. destruct x as [a|e]; simpl; [eauto | discriminate]. Qed.

Lemma M_bind_run {A B} (m : M A) (k : A -> M B) (w : World) :
  (m ≫= k) w =
  match m w with
  | (Ok a, w') => k a w'
  | (Raise e, w') => (Raise e, w')
  end.
Proof. reflexivity. Qed.

Lemma for_each_inv {S : Type} (P : S -> Prop) (body : nat -> S -> Exc S) :
  (forall i s s', P s -> body i s = Ok s' -> P s') ->
  forall l s s', P s -> for_each l body s = Ok s' -> P s'.
Proof.
  intros Hbody l. induction l as [|i l IH]; intros s s' Hs Hrun; simpl in Hrun.
  - congruence.
  - apply exc_bind_ok in Hrun as (s1 & H1 & H2). eauto.
Qed.

Lemma for_each_seq_inv {S : Type} (I : nat -> S -> Prop)
    (body : nat -> S -> Exc S) (a n : nat) (s s' : S) :
  I a s ->
  (forall k t t', (a <= k < a + n)%nat -> I k t -> body k t = Ok t' ->
                  I (Datatypes.S k) t') ->
  for_each (seq a n) body s = Ok s' -> I (a + n)%nat s'.
Proof.
  revert a s. induction n as [|n IH]; intros a s Hs Hbody Hrun; simpl in Hrun.
  - injection Hrun as <-. now rewrite Nat.add_0_r.
  - apply exc_bind_ok in Hrun as (s1 & H1 & H2).
    replace (a + Datatypes.S n)%nat with (Datatypes.S a + n)%nat by lia.
    apply (IH (Datatypes.S a) s1).
    + apply (Hbody a s s1); [lia | exact Hs | exact H1].
    + intros k t t' Hk. apply Hbody. lia.
    + exact H2.
Qed.

Lemma for_each_seq_total {S : Type} (I : nat -> S -> Prop)
    (body : nat -> S -> Exc S) (a n : nat) (s : S) :
  I a s ->
  (forall k t, (a <= k < a + n)%nat -> I k t ->
               exists t', body k t = Ok t' /\ I (Datatypes.S k) t') ->
  exists s', for_each (seq a n) body s = Ok s' /\ I (a + n)%nat s'.
Proof.
  revert a s. induction n as [|n IH]; intros a s Hs Hbody; simpl.
  - exists s. split; [reflexivity | now rewrite Nat.add_0_r].
  - destruct (Hbody a s ltac:(lia) Hs) as (s1 & H1 & HI1).
    rewrite H1. simpl.
    replace (a + Datatypes.S n)%nat with (Datatypes.S a + n)%nat by lia.
    apply IH; [exact HI1 |].
    intros k t Hk. apply Hbody. lia.
Qed.

(** ** Array stores *)

Lemma np_get_set_eq {A} (a a' : ndarray A) (i j : nat) (v : A) :
  np_set a i j v = Ok a' -> np_get a' i j = Some v.
Proof.
  unfold np_set, np_get. destruct (data a !! i) as [row|] eqn:Hi;
    [| discriminate].
  destruct (j <? length row)%nat eqn:Hj; [| discriminate].
  apply Nat.ltb_lt in Hj. intros [= <-]. simpl.
  rewrite list_lookup_insert_eq by (eapply lookup_lt_Some; exact Hi).
  simpl. now apply list_lookup_insert_eq.
Qed.

Lemma np_get_set_ne {A} (a a' : ndarray A) (i j : nat) (v : A) (i' j' : nat) :
  np_set a i j v = Ok a' -> i' <> i \/ j' <> j ->
  np_get a' i' j' = np_get a i' j'.
Proof.
  unfold np_set, np_get. destruct (data a !! i) as [row|] eqn:Hi;
    [| discriminate].
  destruct (j <? length row)%nat eqn:Hj; [| discriminate].
  intros [= <-] Hne. simpl.
  destruct (Nat.eq_dec i' i) as [-> | Hi'].
  - rewrite list_lookup_insert_eq by (eapply lookup_lt_Some; exact Hi).
    rewrite Hi. simpl. apply list_lookup_insert_ne.
    destruct Hne; congruence.
  - now rewrite list_lookup_insert_ne by congruence.
Qed.

(** ** Shapes *)

Lemma np_map_shape {A B} (f : A -> B) (a : ndarray A) :
  well_shaped a -> well_shaped (np_map f a) /\ shape (np_map f a) = shape a.
Proof.
  intros [Hr Hc]. repeat split; simpl.
  - now rewrite length_map.
  - apply Forall_map. eapply Forall_impl; [exact Hc |].
    intros row Hrow. simpl. now rewrite length_map.
Qed.

Lemma np_set_shape {A} (a a' : ndarray A) (i j : nat) (v : A) :
  np_set a i j v = Ok a' ->
  well_shaped a -> well_shaped a' /\ shape a' = shape a.
Proof.
  unfold np_set. intros Hset [Hr Hc].
  destruct (data a !! i) as [row|] eqn:Hi; [| discriminate].
  destruct (j <? length row)%nat; [| discriminate].
  injection Hset as <-. repeat split; simpl.
  - now rewrite length_insert.
  - apply Forall_insert; [exact Hc |].
    rewrite length_insert.
    rewrite Forall_forall in Hc. apply Hc.
    eapply list_elem_of_lookup_2. exact Hi.
Qed.

Lemma np_set_defined {A} (a : ndarray A) (i j : nat) (v : A) :
  well_shaped a -> (i < fst (shape a))%nat -> (j < snd (shape a))%nat ->
  exists a', np_set a i j v = Ok a'.
Proof.
  intros [Hr Hc] Hi Hj. unfold np_set.
  destruct (data a !! i) as [row|] eqn:Hrow.
  - rewrite Forall_forall in Hc.
    rewrite (Hc row) by (eapply list_elem_of_lookup_2; exact Hrow).
    apply Nat.ltb_lt in Hj. rewrite Hj. eauto.
  - apply lookup_ge_None in Hrow. lia.
Qed.

Section Structure.
Context {F : Type} `{Float64 F}.
Variable pnoise2 : F -> F -> Z -> F -> F -> Z -> Z -> Z -> Exc F.

Lemma np_zeros_shape (h w : Z) (a : ndarray F) :
  np_zeros h w = Ok a ->
  well_shaped a /\ shape a = (Z.to_nat h, Z.to_nat w).
Proof.
  unfold np_zeros. destruct (_ || _); [discriminate |].
  intros [= <-]. repeat split; simpl.
  - apply repeat_length.
  - apply Forall_forall. intros row Hrow.
    apply list_elem_of_In, repeat_spec in Hrow. subst row.
    apply repeat_length.
Qed.

Lemma sample_world_shape (p : Params F) (base : Z) (world : ndarray F) :
  sample_world pnoise2 p base = Ok world ->
  well_shaped world /\ shape world = (Z.to_nat (height p), Z.to_nat (width p)).
Proof.
  unfold sample_world. intros Hrun.
  apply exc_bind_ok in Hrun as (z & Hz & Hloop).
  apply np_zeros_shape in Hz.
  set (P := fun a : ndarray F =>
    well_shaped a /\ shape a = (Z.to_nat (height p), Z.to_nat (width p))).
  apply (for_each_inv P) in Hloop; [exact Hloop | | exact Hz].
  intros i s s' Hs Hrow.
  apply (for_each_inv P) in Hrow; [exact Hrow | | exact Hs].
  intros j t t' [Ht1 Ht2] Hbody.
  apply exc_bind_ok in Hbody as (v & _ & Hset).
  destruct (np_set_shape t t' i j v Hset Ht1) as [H1 H2].
  split; [exact H1 | congruence].
Qed.

Lemma normalize_world_shape (world nw : ndarray F) :
  well_shaped world -> normalize_world world = Ok nw ->
  well_shaped nw /\ shape nw = shape world.
Proof.
  intros Hw Hrun. unfold normalize_world in Hrun.
  apply exc_bind_ok in Hrun as (mn & _ & Hrun).
  apply exc_bind_ok in Hrun as (mx & _ & Hrun).
  destruct (feqb mx mn); injection Hrun as <-; now apply np_map_shape.
Qed.

Lemma compute_texture_shape (p : Params F) (base : Z) world img_array img :
  compute_texture pnoise2 p base = Ok (world, img_array, img) ->
  img = Image_fromarray img_array /\
  well_shaped world /\ well_shaped img_array /\
  shape world = (Z.to_nat (height p), Z.to_nat (width p)) /\
  shape img_array = (Z.to_nat (height p), Z.to_nat (width p)).
Proof.
  unfold compute_texture. intros Hrun.
  apply exc_bind_ok in Hrun as (w0 & Hs & Hrun).
  apply exc_bind_ok in Hrun as (nw & Hn & Hrun).
  injection Hrun as <- <- <-.
  apply sample_world_shape in Hs as [Hs1 Hs2].
  destruct (normalize_world_shape _ _ Hs1 Hn) as [Hn1 Hn2].
  destruct (np_map_shape quantize nw Hn1) as [Hq1 Hq2].
  repeat split; try apply Hs1; try apply Hq1; try congruence.
  unfold to_img_array. congruence.
Qed.

(** The loops of lines 15 to 25 store at [world[i][j]] the sample of
    [(i, j)], for every pixel of the grid. *)
Lemma sample_world_entries (p : Params F) (base : Z) (world : ndarray F) :
  sample_world pnoise2 p base = Ok world ->
  forall i j, (i < Z.to_nat (height p))%nat -> (j < Z.to_nat (width p))%nat ->
    exists v, sample pnoise2 p base (Z.of_nat i) (Z.of_nat j) = Ok v /\
              np_get world i j = Some v.
Proof.
  unfold sample_world. intros Hrun.
  apply exc_bind_ok in Hrun as (z & Hz & Hloop).
  apply np_zeros_shape in Hz as [Hz _].
  set (h := Z.to_nat (height p)) in *. set (w := Z.to_nat (width p)) in *.
  set (filled := fun (a : ndarray F) (i j : nat) =>
    exists v, sample pnoise2 p base (Z.of_nat i) (Z.of_nat j) = Ok v /\
              np_get a i j = Some v).
  set (I := fun (k : nat) (a : ndarray F) =>
    forall i j, (i < k)%nat -> (j < w)%nat -> filled a i j).
  assert (Hend : I (0 + h)%nat world).
  { unfold range in Hloop. fold h in Hloop.
    apply (for_each_seq_inv I) in Hloop; [exact Hloop | | ].
    - intros i j Hi. lia.
    - intros k t t' Hk Ht Hrow.
      set (J := fun (m : nat) (a : ndarray F) =>
        I k a /\ forall j, (j < m)%nat -> filled a k j).
      assert (HJ : J (0 + w)%nat t').
      { unfold range in Hrow. fold w in Hrow.
        apply (for_each_seq_inv J) in Hrow; [exact Hrow | | ].
        - split; [exact Ht | intros j Hj; lia].
        - intros m a a' Hm [Ha1 Ha2] Hbody.
          apply exc_bind_ok in Hbody as (v & Hv & Hset).
          split.
          + intros i j Hi Hj. destruct (Ha1 i j Hi Hj) as (u & Hu & Hget).
            exists u. split; [exact Hu |].
            rewrite (np_get_set_ne _ _ _ _ _ i j Hset); [exact Hget |].
            left. lia.
          + intros j Hj. destruct (Nat.eq_dec j m) as [-> | Hne].
            * exists v. split; [exact Hv |].
              exact (np_get_set_eq _ _ _ _ _ Hset).
            * destruct (Ha2 j ltac:(lia)) as (u & Hu & Hget).
              exists u. split; [exact Hu |].
              rewrite (np_get_set_ne _ _ _ _ _ k j Hset); [exact Hget |].
              right. exact Hne. }
      destruct HJ as [HJ1 HJ2]. intros i j Hi Hj.
      destruct (Nat.eq_dec i k) as [-> | Hne].
      + apply HJ2. simpl. exact Hj.
      + apply HJ1; [lia | exact Hj]. }
  intros i j Hi Hj. apply Hend; simpl; assumption.
Qed.

(** The loops never index out of range: when the grid has no negative
    dimension and every sample is defined, lines 14 to 25 return. *)
Lemma sample_world_defined (p : Params F) (base : Z) :
  0 <= height p -> 0 <= width p ->
  (forall i j, (i < Z.to_nat (height p))%nat -> (j < Z.to_nat (width p))%nat ->
     exists v, sample pnoise2 p base (Z.of_nat i) (Z.of_nat j) = Ok v) ->
  exists world, sample_world pnoise2 p base = Ok world.
Proof.
  intros Hh Hw Hsample. unfold sample_world.
  destruct (np_zeros (height p) (width p)) as [z|e] eqn:Hz.
  2:{ unfold np_zeros in Hz.
      replace ((height p <? 0) || (width p <? 0)) with false in Hz
        by (symmetry; apply orb_false_iff; split; apply Z.ltb_ge; lia).
      discriminate. }
  apply np_zeros_shape in Hz. simpl.
  set (P := fun (_ : nat) (a : ndarray F) =>
    well_shaped a /\ shape a = (Z.to_nat (height p), Z.to_nat (width p))).
  destruct (for_each_seq_total P
              (fun i world =>
                 for_each (range (width p)) (fun j world0 =>
                   v ← sample pnoise2 p base (Z.of_nat i) (Z.of_nat j);
                   np_set world0 i j v) world)
              0 (Z.to_nat (height p)) z Hz) as (world & Hrun & _).
  - intros i t Hi Ht.
    apply (for_each_seq_total P); [exact Ht |].
    intros j a Hj [Ha1 Ha2].
    destruct (Hsample i j ltac:(lia) ltac:(lia)) as (v & Hv).
    rewrite Hv. simpl.
    destruct (np_set_defined a i j v Ha1) as (a' & Hset).
    + rewrite Ha2. simpl. lia.
    + rewrite Ha2. simpl. lia.
    + exists a'. split; [exact Hset |].
      destruct (np_set_shape a a' i j v Hset Ha1) as [H1 H2].
      split; [exact H1 | congruence].
  - exists world. exact Hrun.
Qed.

(** With a seed given, lines 11 to 39 do not touch the world. *)
Lemma texture_body_seeded (p : Params F) (s : Z) (w : World) :
  seed p = Some s ->
  texture_body pnoise2 p w = (compute_texture pnoise2 p s, w).
Proof. intros Hs. unfold texture_body. rewrite Hs. reflexivity. Qed.

(** Without one, the seed is [randint(0, 100)] of the world's source. *)
Lemma texture_body_unseeded (p : Params F) (w : World) :
  seed p = None ->
  texture_body pnoise2 p w =
    (compute_texture pnoise2 p (List.hd 0 (rng w) mod 100),
     mk_World (List.tl (rng w)) (fs w) (stdout w)).
Proof.
  intros Hs. unfold texture_body. rewrite Hs.
  rewrite M_bind_run. unfold np_random_randint. simpl.
  unfold lift. now rewrite Z.sub_0_r.
Qed.

Lemma texture_body_fs (p : Params F) (w : World) :
  fs (snd (texture_body pnoise2 p w)) = fs w.
Proof.
  destruct (seed p) as [s|] eqn:Hs.
  - now rewrite (texture_body_seeded p s w Hs).
  - now rewrite (texture_body_unseeded p w Hs).
Qed.

Lemma texture_body_compute (p : Params F) (w : World) :
  exists base, fst (texture_body pnoise2 p w) = compute_texture pnoise2 p base /\
               (forall s, seed p = Some s -> base = s) /\
               (seed p = None -> 0 <= base <= 99).
Proof.
  destruct (seed p) as [s|] eqn:Hs.
  - exists s. rewrite (texture_body_seeded p s w Hs).
    repeat split; try congruence; try discriminate.
  - exists (List.hd 0 (rng w) mod 100).
    rewrite (texture_body_unseeded p w Hs).
    pose proof (Z.mod_pos_bound (List.hd 0 (rng w)) 100).
    repeat split; try discriminate; lia.
Qed.

End Structure.

(** ** The write step *)

Lemma lookup_key_insert (f : gmap (list string) Node) (k : list string)
    (n : Node) :
  lookup_key f k <> Some Dir -> lookup_key (<[k := n]> f) k = Some n.
Proof.
  unfold lookup_key. destruct k as [|c [|c' k]].
  - congruence.
  - destruct (String.eqb c "/"); [congruence |].
    intros _. apply lookup_insert_eq.
  - intros _. apply lookup_insert_eq.
Qed.

Lemma Image_save_ok (img : Image) (path : string) (w w' : World) :
  Image_save img path w = (Ok tt, w') ->
  stat (fs w') path = Some (File img).
Proof.
  unfold Image_save, stat.
  destruct (String.eqb path ""); [discriminate |].
  destruct (lookup_key (fs w) (path_key path)) as [[|c]|] eqn:Hk;
    [discriminate | |];
    (destruct (parent_check _ _); [| discriminate]);
    intros [= <-]; simpl; apply lookup_key_insert; congruence.
Qed.

Section WriteStep.
Context {F : Type} `{Float64 F}.
Variable pnoise2 : F -> F -> Z -> F -> F -> Z -> Z -> Z -> Exc F.

(** A run that returns has computed an image and left it at
    [output_path]. *)
Lemma generate_ok_inv (p : Params F) (w w' : World) :
  generate_simplex_noise_texture pnoise2 p w = (Ok tt, w') ->
  exists world img_array img,
    fst (texture_body pnoise2 p w) = Ok (world, img_array, img) /\
    stat (fs w') (output_path p) = Some (File img).
Proof.
  unfold generate_simplex_noise_texture. rewrite M_bind_run.
  destruct (texture_body pnoise2 p w) as [[[[world ia] img]|e] w1];
    [| discriminate].
  rewrite M_bind_run.
  destruct (os_makedirs _ _ w1) as [[[]|e] w2]; [| discriminate].
  rewrite M_bind_run.
  destruct (Image_save img (output_path p) w2) as [[[]|e] w3] eqn:Hsave;
    [| discriminate].
  unfold print. intros [= <-]. simpl.
  exists world, ia, img. split; [reflexivity |].
  now apply Image_save_ok in Hsave.
Qed.

(** A run whose lines 11 to 39 raise stops there, the files untouched. *)
Lemma generate_body_raises (p : Params F) (w : World) (e : PyError) :
  fst (texture_body pnoise2 p w) = Raise e ->
  exists w', generate_simplex_noise_texture pnoise2 p w = (Raise e, w') /\
             fs w' = fs w.
Proof.
  intros Hb. unfold generate_simplex_noise_texture. rewrite M_bind_run.
  pose proof (texture_body_fs pnoise2 p w) as Hfs.
  destruct (texture_body pnoise2 p w) as [[r|e'] w1]; simpl in *;
    [discriminate |].
  injection Hb as ->. eauto.
Qed.

End WriteStep.

(** ** Determinism and the default seed *)

Section Seeds.
Context {F : Type} `{Float64 F}.
Variable pnoise2 : F -> F -> Z -> F -> F -> Z -> Z -> Z -> Exc F.


Lemma default_seeds_spec (s : Z) : In s default_seeds <-> 0 <= s <= 99.
Proof.
  unfold default_seeds. rewrite in_map_iff. split.
  - intros (n & <- & Hn). apply in_seq in Hn. lia.
  - intros Hs. exists (Z.to_nat s). split; [lia |]. apply in_seq. lia.
Qed.

(** C10.  Without a seed, the one used lies in 0..99, so the outcome of
    lines 11 to 39 is one of the hundred outcomes of the seeded runs; and
    each seed of 0..99 is drawn from some state of the random source. *)
Theorem C10_default_seed_range (p : Params F) (w : World) :
  seed p = None ->
  (exists s, 0 <= s <= 99 /\
             fst (texture_body pnoise2 p w) = compute_texture pnoise2 p s) /\
  In (fst (texture_body pnoise2 p w))
     (List.map (compute_texture pnoise2 p) default_seeds) /\
  length (List.map (compute_texture pnoise2 p) default_seeds) = 100%nat /\
  (forall s, 0 <= s <= 99 ->
     exists w0, fst (texture_body pnoise2 p w0) = compute_texture pnoise2 p s).
Proof.
  intros Hs.
  destruct (texture_body_compute pnoise2 p w) as (s & Hrun & _ & Hrange).
  specialize (Hrange Hs).
  split; [eauto |]. split; [| split].
  - rewrite Hrun. apply in_map. now apply default_seeds_spec.
  - unfold default_seeds. now rewrite !length_map, length_seq.
  - intros s0 Hs0. exists (mk_World [s0] ∅ []).
    rewrite (texture_body_unseeded pnoise2 p _ Hs). simpl.
    now rewrite Z.mod_small by lia.
Qed.

End Seeds.

(** ** Dimensions of the output *)

Section Dimensions.
Context {F : Type} `{Float64 F}.
Variable pnoise2 : F -> F -> Z -> F -> F -> Z -> Z -> Z -> Exc F.

(** C8.  A run with positive [width] and [height] that returns has left
    at [output_path] an image of size ([width], [height]) whose raster
    has [height] rows of [width] pixels, computed from a height field of
    [height] rows and [width] columns. *)
Theorem C8_output_dimensions (p : Params F) (w w' : World) :
  0 < width p -> 0 < height p ->
  generate_simplex_noise_texture pnoise2 p w = (Ok tt, w') ->
  exists world img_array img,
    fst (texture_body pnoise2 p w) = Ok (world, img_array, img) /\
    stat (fs w') (output_path p) = Some (File img) /\
    Z.of_nat (fst (size img)) = width p /\
    Z.of_nat (snd (size img)) = height p /\
    Z.of_nat (length (pixels img)) = height p /\
    Forall (fun row => Z.of_nat (length row) = width p) (pixels img) /\
    Z.of_nat (length (data world)) = height p /\
    Forall (fun row => Z.of_nat (length row) = width p) (data world).
Proof.
  intros Hw Hh Hrun.
  apply generate_ok_inv in Hrun as (world & ia & img & Hbody & Hfile).
  exists world, ia, img. split; [exact Hbody |]. split; [exact Hfile |].
  destruct (texture_body_compute pnoise2 p w) as (base & Hc & _).
  rewrite Hc in Hbody.
  apply compute_texture_shape in Hbody
    as (-> & [Hw1 Hw2] & [Hi1 Hi2] & Hsw & Hsi).
  rewrite Hsw in Hw1, Hw2. rewrite Hsi in Hi1, Hi2.
  unfold Image_fromarray. simpl in *. rewrite Hsi, Hw1, Hi1. simpl.
  repeat split; try lia.
  - eapply Forall_impl; [exact Hi2 |]. simpl. intros row ->. lia.
  - eapply Forall_impl; [exact Hw2 |]. simpl. intros row ->. lia.
Qed.

End Dimensions.

(** ** A path without a directory part *)

Lemma cut_last_sep_bare (p : string) :
  contains_sep p = false -> cut_last_sep p = (EmptyString, p).
Proof.
  induction p as [|c r IH]; simpl; [reflexivity |].
  intros Hc. apply orb_false_iff in Hc as [Hc Hr].
  rewrite (IH Hr). simpl. now rewrite Hc.
Qed.

Lemma dirname_bare (p : string) :
  contains_sep p = false -> os_path_dirname p = EmptyString.
Proof.
  intros Hp. unfold os_path_dirname, os_path_split.
  now rewrite (cut_last_sep_bare p Hp).
Qed.

(** The depth bound of [os_makedirs] is never reached: each recursive call
    is on a strictly shorter path. *)
Lemma cut_last_sep_length (p h t : string) :
  cut_last_sep p = (h, t) ->
  (String.length h + String.length t = String.length p)%nat.
Proof.
  revert h t. induction p as [|c r IH]; simpl; intros h t Hcut.
  - injection Hcut as <- <-. reflexivity.
  - destruct (cut_last_sep r) as [h' t'].
    specialize (IH h' t' eq_refl).
    destruct (negb (String.eqb h' "")) eqn:Hh.
    + injection Hcut as <- <-. simpl. lia.
    + apply negb_false_iff, String.eqb_eq in Hh. subst h'. simpl in IH.
      destruct (Ascii.eqb c sep); injection Hcut as <- <-; simpl; lia.
Qed.

Lemma rstrip_sep_length (p : string) :
  (String.length (rstrip_sep p) <= String.length p)%nat.
Proof.
  induction p as [|c r IH]; simpl; [lia |].
  destruct (Ascii.eqb c sep && String.eqb (rstrip_sep r) ""); simpl; lia.
Qed.

Lemma os_path_split_length (p h t : string) :
  os_path_split p = (h, t) ->
  (String.length h + String.length t <= String.length p)%nat.
Proof.
  unfold os_path_split. destruct (cut_last_sep p) as [h' t'] eqn:Hcut.
  apply cut_last_sep_length in Hcut.
  pose proof (rstrip_sep_length h').
  destruct (negb (String.eqb h' "") && negb (all_sep h'));
    intros [= <- <-]; lia.
Qed.

Lemma os_mkdir_errors (p : string) (w : World) :
  fst (os_mkdir p w) <> Raise RecursionError.
Proof.
  unfold os_mkdir. destruct (String.eqb p ""); [discriminate |].
  destruct (stat (fs w) p); [discriminate |].
  unfold parent_check.
  destruct (lookup_key (fs w) (removelast (path_key p))) as [[|c]|];
    discriminate.
Qed.

Lemma makedirs_rec_fuel (fuel : nat) (name : string) (exist_ok : bool)
    (w : World) :
  (String.length name < fuel)%nat ->
  fst (makedirs_rec fuel name exist_ok w) <> Raise RecursionError.
Proof.
  revert name w. induction fuel as [|fuel IH]; intros name w Hlen; [lia |].
  simpl.
  destruct (os_path_split name) as [h1 t1] eqn:H1.
  apply os_path_split_length in H1.
  destruct (os_path_split h1) as [h2 t2] eqn:H2.
  apply os_path_split_length in H2.
  assert (Hleaf : forall w0,
    fst (match os_mkdir name w0 with
         | (Raise e, w') =>
             if is_OSError e && exist_ok && os_path_isdir (fs w') name
             then (Ok tt, w') else (Raise e, w')
         | r => r
         end) <> Raise RecursionError).
  { intros w0. pose proof (os_mkdir_errors name w0) as Hm.
    destruct (os_mkdir name w0) as [[[]|e] w1]; simpl in *; [discriminate |].
    destruct (is_OSError e && exist_ok && os_path_isdir (fs w1) name);
      simpl; [discriminate | exact Hm]. }
  assert (Hgo : forall head tail : string,
    (tail <> "" -> String.length head < fuel)%nat ->
    fst ((if negb (String.eqb head "") && negb (String.eqb tail "")
             && negb (os_path_exists (fs w) head)
          then
            match makedirs_rec fuel head exist_ok w with
            | (Ok _, w') | (Raise FileExistsError, w') =>
                if String.eqb tail "." then (Ok tt, w')
                else match os_mkdir name w' with
                     | (Raise e, w'') =>
                         if is_OSError e && exist_ok
                            && os_path_isdir (fs w'') name
                         then (Ok tt, w'') else (Raise e, w'')
                     | r => r
                     end
            | (Raise e, w') => (Raise e, w')
            end
          else match os_mkdir name w with
               | (Raise e, w') =>
                   if is_OSError e && exist_ok && os_path_isdir (fs w') name
                   then (Ok tt, w') else (Raise e, w')
               | r => r
               end) : Exc unit * World) <> Raise RecursionError).
  { intros head tail Hshort.
    destruct (negb (String.eqb head "") && negb (String.eqb tail "")
              && negb (os_path_exists (fs w) head)) eqn:Hc; [| apply Hleaf].
    apply andb_true_iff in Hc as [Hc _].
    apply andb_true_iff in Hc as [_ Ht].
    apply negb_true_iff, String.eqb_neq in Ht.
    pose proof (IH head w (Hshort Ht)) as Hrec.
    destruct (makedirs_rec fuel head exist_ok w) as [[[]|e] w1];
      simpl in Hrec.
    - destruct (String.eqb tail "."); [discriminate | apply Hleaf].
    - destruct e; try (simpl; congruence).
      destruct (String.eqb tail "."); [discriminate | apply Hleaf]. }
  destruct (String.eqb t1 "") eqn:Ht1.
  - apply Hgo. intros Ht2.
    assert (String.length t2 <> 0)%nat by (destruct t2; simpl; congruence).
    lia.
  - apply Hgo. intros _. apply String.eqb_neq in Ht1.
    assert (String.length t1 <> 0)%nat by (destruct t1; simpl; congruence).
    lia.
Qed.

Lemma os_makedirs_total (name : string) (exist_ok : bool) (w : World) :
  fst (os_makedirs name exist_ok w) <> Raise RecursionError.
Proof. apply makedirs_rec_fuel. lia. Qed.

(** [os.makedirs('', exist_ok=True)]: [mkdir('')] fails with ENOENT and
    [''] is no directory, so the error is raised again. *)
Lemma makedirs_empty (w : World) :
  os_makedirs "" true w = (Raise FileNotFoundError, w).
Proof. reflexivity. Qed.

Section BarePath.
Context {F : Type} `{Float64 F}.
Variable pnoise2 : F -> F -> Z -> F -> F -> Z -> Z -> Z -> Exc F.

(** C9.  When [output_path] has no '/', every run raises and leaves the
    files as they were; a run whose texture was computed raises the
    FileNotFoundError of [os.makedirs('')], before [img.save]. *)
Theorem C9_bare_filename_fails (p : Params F) (w : World) :
  contains_sep (output_path p) = false ->
  (exists e w',
      generate_simplex_noise_texture pnoise2 p w = (Raise e, w') /\
      fs w' = fs w) /\
  (forall r, fst (texture_body pnoise2 p w) = Ok r ->
      generate_simplex_noise_texture pnoise2 p w
      = (Raise FileNotFoundError, snd (texture_body pnoise2 p w))).
Proof.
  intros Hbare.
  assert (Hok : forall r, fst (texture_body pnoise2 p w) = Ok r ->
      generate_simplex_noise_texture pnoise2 p w
      = (Raise FileNotFoundError, snd (texture_body pnoise2 p w))).
  { intros r Hr. unfold generate_simplex_noise_texture.
    rewrite M_bind_run.
    destruct (texture_body pnoise2 p w) as [[[[world ia] img]|e] w1];
      simpl in Hr; [| discriminate].
    rewrite M_bind_run, (dirname_bare _ Hbare), makedirs_empty.
    reflexivity. }
  split; [| exact Hok].
  destruct (fst (texture_body pnoise2 p w)) as [r|e] eqn:Hb.
  - exists FileNotFoundError, (snd (texture_body pnoise2 p w)).
    split; [now apply (Hok r) | apply texture_body_fs].
  - destruct (generate_body_raises pnoise2 p w e Hb) as (w' & Hrun & Hfs).
    eauto.
Qed.

End BarePath.

(** ** Parameters the function cannot use *)

Lemma for_each_skip {S : Type} (body : nat -> S -> Exc S) (l : list nat) (s : S) :
  (forall i s0, body i s0 = Ok s0) -> for_each l body s = Ok s.
Proof.
  intros Hb. induction l as [|i l IH]; simpl; [reflexivity |].
  now rewrite Hb.
Qed.

Lemma range_pos (n : Z) : 0 < n -> exists l, range n = 0%nat :: l.
Proof.
  intros Hn. unfold range.
  destruct (Z.to_nat n) as [|k] eqn:Hk; [lia |].
  simpl. eauto.
Qed.

Lemma concat_repeat_nil {A} (n : nat) : concat (repeat (@nil A) n) = [].
Proof. induction n; simpl; auto. Qed.

Section BadParameters.
Context {F : Type} `{Float64 F}.
Variable pnoise2 : F -> F -> Z -> F -> F -> Z -> Z -> Z -> Exc F.

(** A negative dimension: [np.zeros] refuses it. *)
Lemma compute_negative_dim (p : Params F) (base : Z) :
  height p < 0 \/ width p < 0 ->
  compute_texture pnoise2 p base = Raise ValueError.
Proof.
  intros Hneg. unfold compute_texture, sample_world, np_zeros.
  replace ((height p <? 0) || (width p <? 0)) with true; [reflexivity |].
  symmetry. apply orb_true_iff.
  destruct Hneg; [left | right]; now apply Z.ltb_lt.
Qed.

(** An empty grid: nothing is sampled and [np.min] has nothing to
    reduce. *)
Lemma compute_empty_grid (p : Params F) (base : Z) :
  0 <= height p -> 0 <= width p -> height p = 0 \/ width p = 0 ->
  compute_texture pnoise2 p base = Raise ValueError.
Proof.
  intros Hh Hw Hzero. unfold compute_texture, sample_world, np_zeros.
  replace ((height p <? 0) || (width p <? 0)) with false
    by (symmetry; apply orb_false_iff; split; apply Z.ltb_ge; lia).
  simpl.
  assert (Hloop : forall z : ndarray F,
    for_each (range (height p)) (fun i world =>
      for_each (range (width p)) (fun j world0 =>
        v ← sample pnoise2 p base (Z.of_nat i) (Z.of_nat j);
        np_set world0 i j v) world) z = Ok z).
  { intros z. destruct Hzero as [-> | ->]; [reflexivity |].
    apply for_each_skip. reflexivity. }
  rewrite Hloop. simpl.
  unfold normalize_world, np_min, flat. simpl.
  destruct Hzero as [-> | ->]; simpl; [reflexivity |].
  now rewrite concat_repeat_nil.
Qed.

(** A zero scale on a grid with a pixel: the first [i / scale] raises. *)
Lemma compute_zero_scale (p : Params F) (base : Z) :
  0 < height p -> 0 < width p -> feqb (scale p) (of_int 0) = true ->
  compute_texture pnoise2 p base = Raise ZeroDivisionError.
Proof.
  intros Hh Hw Hs. unfold compute_texture, sample_world, np_zeros.
  replace ((height p <? 0) || (width p <? 0)) with false
    by (symmetry; apply orb_false_iff; split; apply Z.ltb_ge; lia).
  destruct (range_pos _ Hh) as (lh & ->).
  destruct (range_pos _ Hw) as (lw & ->).
  simpl. unfold sample, py_truediv. rewrite Hs. reflexivity.
Qed.

Lemma compute_invalid (p : Params F) (base : Z) :
  width p <= 0 \/ height p <= 0 \/ feqb (scale p) (of_int 0) = true ->
  compute_texture pnoise2 p base =
    Raise (if (0 <? height p) && (0 <? width p)
           then ZeroDivisionError else ValueError).
Proof.
  intros Hbad.
  destruct (0 <? height p) eqn:Hh; destruct (0 <? width p) eqn:Hw; simpl;
    try apply Z.ltb_lt in Hh; try apply Z.ltb_lt in Hw;
    try apply Z.ltb_ge in Hh; try apply Z.ltb_ge in Hw.
  - apply compute_zero_scale; try lia.
    destruct Hbad as [Hb | [Hb | Hb]]; try lia. exact Hb.
  - destruct (Z.eq_dec (width p) 0);
      [apply compute_empty_grid | apply compute_negative_dim]; lia.
  - destruct (Z.eq_dec (height p) 0); [destruct (Z_lt_le_dec (width p) 0) |];
      [apply compute_negative_dim | apply compute_empty_grid
       | apply compute_negative_dim]; lia.
  - destruct (Z_lt_le_dec (height p) 0); [apply compute_negative_dim; lia |].
    destruct (Z_lt_le_dec (width p) 0); [apply compute_negative_dim; lia |].
    apply compute_empty_grid; lia.
Qed.

Lemma generate_invalid (p : Params F) (w : World) :
  width p <= 0 \/ height p <= 0 \/ feqb (scale p) (of_int 0) = true ->
  exists e w',
    generate_simplex_noise_texture pnoise2 p w = (Raise e, w') /\
    e = (if (0 <? height p) && (0 <? width p)
         then ZeroDivisionError else ValueError) /\
    InvalidParameter e = true /\
    fst (texture_body pnoise2 p w) = Raise e /\
    fs w' = fs w.
Proof.
  intros Hbad.
  destruct (texture_body_compute pnoise2 p w) as (base & Hb & _).
  rewrite (compute_invalid p base Hbad) in Hb.
  destruct (generate_body_raises pnoise2 p w _ Hb) as (w' & Hrun & Hfs).
  eexists. exists w'. split; [exact Hrun |]. split; [reflexivity |].
  split; [| split; [exact Hb | exact Hfs]].
  destruct ((0 <? height p) && (0 <? width p)); reflexivity.
Qed.

End BadParameters.

(** * binary64 arithmetic *)

(** The operations of [SpecFloat] return the exact result rounded to
    nearest, ties to even; the lemmas below state that on the values, for
    the operations and the signs lines 28 to 36 use. *)

(** ** Powers of two and the number of digits *)

Lemma pow2_pos (e : Z) : (0 < pow2 e)%Q.
Proof. apply Qpower_0_lt. reflexivity. Qed.

Lemma pow2_add (a b : Z) : (pow2 (a + b) == pow2 a * pow2 b)%Q.
Proof. apply Qpower_plus. discriminate. Qed.

Lemma pow2_0 : (pow2 0 == 1)%Q.
Proof. reflexivity. Qed.

Lemma pow2_1 : (pow2 1 == 2)%Q.
Proof. reflexivity. Qed.

Lemma pow2_succ (a : Z) : (pow2 (a + 1) == 2 * pow2 a)%Q.
Proof. rewrite pow2_add, pow2_1. ring. Qed.

Lemma pow2_le (a b : Z) : a <= b -> (pow2 a <= pow2 b)%Q.
Proof. intros H. apply Qpower_le_compat_l; [exact H | discriminate]. Qed.

Lemma pow2_lt (a b : Z) : a < b -> (pow2 a < pow2 b)%Q.
Proof. intros H. apply Qpower_lt_compat_l; [exact H | reflexivity]. Qed.

Lemma pow2_lt_inv (a b : Z) : (pow2 a < pow2 b)%Q -> a < b.
Proof.
  intros H. destruct (Z_lt_le_dec a b) as [Hlt | Hge]; [exact Hlt |].
  apply pow2_le in Hge. lra.
Qed.

Lemma pow2_Z (n : Z) : 0 <= n -> (pow2 n == inject_Z (2 ^ n))%Q.
Proof. intros H. unfold pow2. rewrite Zpower_Qpower by exact H. reflexivity. Qed.

Lemma pow2_sub (a b : Z) : (pow2 (a - b) == pow2 a / pow2 b)%Q.
Proof.
  assert (H : (pow2 a == pow2 (a - b) * pow2 b)%Q).
  { rewrite <- pow2_add. now replace (a - b + b) with a by lia. }
  rewrite H. field. pose proof (pow2_pos b). lra.
Qed.

Lemma digits2_size (p : positive) : digits2_pos p = Pos.size p.
Proof. induction p; simpl; congruence. Qed.

Lemma digits2_bounds (p : positive) :
  2 ^ (Zpos (digits2_pos p) - 1) <= Zpos p < 2 ^ Zpos (digits2_pos p).
Proof.
  rewrite digits2_size. split.
  - pose proof (Pos.size_le p) as H.
    assert (H2 : 2 ^ Zpos (Pos.size p) <= 2 * Zpos p).
    { rewrite <- Pos2Z.inj_pow. change (2 * Zpos p) with (Zpos p~0). exact H. }
    replace (Zpos (Pos.size p)) with (Zpos (Pos.size p) - 1 + 1) in H2 by lia.
    rewrite Z.pow_add_r in H2 by lia. change (2 ^ 1) with 2 in H2. lia.
  - pose proof (Pos.size_gt p) as H.
    rewrite <- Pos2Z.inj_pow. exact H.
Qed.

Lemma Zdigits2_nonneg (m : Z) : 0 <= Zdigits2 m.
Proof. destruct m; simpl; lia. Qed.

Lemma Zdigits2_bounds (m : Z) :
  0 < m -> (pow2 (Zdigits2 m - 1) <= inject_Z m < pow2 (Zdigits2 m))%Q.
Proof.
  intros Hm. destruct m as [|p|p]; try lia. simpl Zdigits2.
  pose proof (digits2_bounds p) as [H1 H2].
  rewrite !pow2_Z by lia. split.
  - rewrite <- Zle_Qle. exact H1.
  - rewrite <- Zlt_Qlt. exact H2.
Qed.

(* an integer below a power of two has at most that many digits *)
Lemma Zdigits2_le (m k : Z) : 0 <= k -> 0 <= m < 2 ^ k -> Zdigits2 m <= k.
Proof.
  intros Hk [H0 Hm]. destruct m as [|p|p]; simpl; try lia.
  pose proof (digits2_bounds p) as [H1 _].
  destruct (Z_lt_le_dec k (Zpos (digits2_pos p))) as [Hlt | Hle]; [| exact Hle].
  exfalso. assert (2 ^ k <= 2 ^ (Zpos (digits2_pos p) - 1))
    by (apply Z.pow_le_mono_r; lia).
  lia.
Qed.

Lemma Zdigits2_pow2 (k : Z) : 0 <= k -> Zdigits2 (2 ^ k) = k + 1.
Proof.
  intros Hk. assert (Hp : 0 < 2 ^ k) by (apply Z.pow_pos_nonneg; lia).
  destruct (2 ^ k) as [|p|p] eqn:E; try lia. simpl.
  pose proof (digits2_bounds p) as [H1 H2]. rewrite <- E in H1, H2.
  assert (Zpos (digits2_pos p) - 1 <= k).
  { apply (Z.pow_le_mono_r_iff 2); lia. }
  assert (k < Zpos (digits2_pos p)).
  { apply (Z.pow_lt_mono_r_iff 2); lia. }
  lia.
Qed.

Lemma fexp_spec (k : Z) : fexp prec emax k = Z.max (k - 53) (-1074).
Proof. reflexivity. Qed.

Lemma fexp_mono (a b : Z) : a <= b -> fexp prec emax a <= fexp prec emax b.
Proof. rewrite !fexp_spec. lia. Qed.

(** ** Where an exact value lies between two mantissas *)

Lemma loc_frac_range (l : location) (f : Q) : loc_frac l f -> (0 <= f < 1)%Q.
Proof. destruct l as [|[]]; simpl; intros H; lra. Qed.

Lemma loc_of_shr_record_of_loc (m : Z) (l : location) :
  loc_of_shr_record (shr_record_of_loc m l) = l.
Proof. destruct l as [|[]]; reflexivity. Qed.

Lemma shr_m_shr_record_of_loc (m : Z) (l : location) :
  shr_m (shr_record_of_loc m l) = m.
Proof. destruct l as [|[]]; reflexivity. Qed.

Lemma inject_Z_xO (p : positive) : (inject_Z (Zpos p~0) == 2 * inject_Z (Zpos p))%Q.
Proof. change (Zpos p~0) with (2 * Zpos p). rewrite inject_Z_mult. reflexivity. Qed.

Lemma inject_Z_xI (p : positive) :
  (inject_Z (Zpos p~1) == 2 * inject_Z (Zpos p) + 1)%Q.
Proof.
  change (Zpos p~1) with (2 * Zpos p + 1).
  rewrite inject_Z_plus, inject_Z_mult. reflexivity.
Qed.

Lemma shr_1_located (r : shr_record) (e : Z) (x : Q) :
  located_rec r e x -> located_rec (shr_1 r) (e + 1) x.
Proof.
  intros [Hm (f & Hx & Hf)].
  destruct r as [m rb sb]. simpl in Hm, Hx, Hf.
  assert (Hhalf : forall (m' : Z) (b : Q),
    (inject_Z m == 2 * inject_Z m' + b)%Q ->
    (x == (inject_Z m' + (b + f) * (1 # 2)) * pow2 (e + 1))%Q).
  { intros m' b Hmb. rewrite pow2_succ, Hx, Hmb. ring. }
  destruct m as [|[p|p|]|p]; try lia; simpl shr_1.
  - split; [simpl; lia |]. exists ((0 + f) * (1 # 2))%Q. split.
    + apply Hhalf. reflexivity.
    + destruct rb, sb; simpl in *; lra.
  - split; [simpl; lia |]. exists ((1 + f) * (1 # 2))%Q. split.
    + apply Hhalf. apply inject_Z_xI.
    + destruct rb, sb; simpl in *; lra.
  - split; [simpl; lia |]. exists ((0 + f) * (1 # 2))%Q. split.
    + apply Hhalf. cbn [shr_m]. rewrite inject_Z_xO. ring.
    + destruct rb, sb; simpl in *; lra.
  - split; [simpl; lia |]. exists ((1 + f) * (1 # 2))%Q. split.
    + apply Hhalf. reflexivity.
    + destruct rb, sb; simpl in *; lra.
Qed.

Lemma iter_pos_located (p : positive) (r : shr_record) (e : Z) (x : Q) :
  located_rec r e x -> located_rec (SpecFloat.iter_pos shr_1 p r) (e + Zpos p) x.
Proof.
  revert r e. induction p as [p IH | p IH |]; intros r e H; simpl.
  - apply shr_1_located in H. apply IH in H. apply IH in H.
    replace (e + Zpos p~1) with (e + 1 + Zpos p + Zpos p) by lia. exact H.
  - apply IH in H. apply IH in H.
    replace (e + Zpos p~0) with (e + Zpos p + Zpos p) by lia. exact H.
  - now apply shr_1_located.
Qed.

(** [shr_fexp] on a located mantissa with enough digits: the mantissa at
    the canonical exponent, located. *)
Lemma shr_fexp_located (m e : Z) (l : location) (x : Q) :
  0 <= m -> located m e l x ->
  e <= fexp prec emax (Zdigits2 m + e) ->
  let '(r, e') := shr_fexp prec emax m e l in
  e' = fexp prec emax (Zdigits2 m + e) /\ located_rec r e' x.
Proof.
  intros Hm Hloc Hprec. unfold shr_fexp, shr.
  assert (Hrec : located_rec (shr_record_of_loc m l) e x).
  { split; rewrite ?shr_m_shr_record_of_loc, ?loc_of_shr_record_of_loc; auto. }
  destruct (fexp prec emax (Zdigits2 m + e) - e) as [|n|n] eqn:Hn; try lia.
  - split; [lia | exact Hrec].
  - split; [lia |]. now apply iter_pos_located.
Qed.

(** ** Rounding to the nearest integer *)

Lemma Qfloor_unique (q : Q) (a : Z) :
  (inject_Z a <= q)%Q -> (q < inject_Z a + 1)%Q -> Qfloor q = a.
Proof.
  intros Hlo Hhi.
  assert (H1 : a <= Qfloor q).
  { rewrite <- (Qfloor_Z a). now apply Qfloor_resp_le. }
  assert (H2 : Qfloor q < a + 1).
  { rewrite Zlt_Qlt. rewrite inject_Z_plus.
    eapply Qle_lt_trans; [apply Qfloor_le | exact Hhi]. }
  lia.
Qed.

Lemma Qfloor_bounds (q : Q) :
  (inject_Z (Qfloor q) <= q < inject_Z (Qfloor q) + 1)%Q.
Proof.
  split; [apply Qfloor_le |].
  pose proof (Qlt_floor q) as H. rewrite inject_Z_plus in H. exact H.
Qed.

Lemma spec_round_comp (q q' : Q) : (q == q')%Q -> spec_round q = spec_round q'.
Proof.
  intros Hq. unfold spec_round. rewrite (Qfloor_comp q q' Hq).
  assert (Hc : (q - inject_Z (Qfloor q') ?= 1 # 2)%Q
               = (q' - inject_Z (Qfloor q') ?= 1 # 2)%Q).
  { apply Qcompare_comp; [| reflexivity].
    unfold Qminus. apply Qplus_inj_r. exact Hq. }
  now rewrite Hc.
Qed.

Lemma spec_round_bounds (q : Q) : Qfloor q <= spec_round q <= Qfloor q + 1.
Proof.
  unfold spec_round.
  destruct (q - inject_Z (Qfloor q) ?= 1 # 2)%Q; [| lia | lia].
  destruct (Z.even (Qfloor q)); lia.
Qed.

Lemma spec_round_above_half (q : Q) :
  (1 # 2 < q - inject_Z (Qfloor q))%Q -> spec_round q = Qfloor q + 1.
Proof.
  intros H. unfold spec_round.
  destruct (Qcompare_spec (q - inject_Z (Qfloor q)) (1 # 2));
    [exfalso; lra | exfalso; lra | reflexivity].
Qed.

Lemma spec_round_below_half (q : Q) :
  (q - inject_Z (Qfloor q) < 1 # 2)%Q -> spec_round q = Qfloor q.
Proof.
  intros H. unfold spec_round.
  destruct (Qcompare_spec (q - inject_Z (Qfloor q)) (1 # 2));
    [exfalso; lra | reflexivity | exfalso; lra].
Qed.

Lemma spec_round_Z (k : Z) : spec_round (inject_Z k) = k.
Proof.
  rewrite spec_round_below_half; rewrite Qfloor_Z; [reflexivity |].
  unfold Qminus. rewrite Qplus_opp_r. reflexivity.
Qed.

Lemma spec_round_mono (y1 y2 : Q) :
  (y1 <= y2)%Q -> spec_round y1 <= spec_round y2.
Proof.
  intros Hy.
  pose proof (Qfloor_resp_le y1 y2 Hy) as Hf.
  pose proof (spec_round_bounds y1) as B1.
  pose proof (spec_round_bounds y2) as B2.
  destruct (Z.eq_dec (Qfloor y1) (Qfloor y2)) as [Heq | Hne]; [| lia].
  unfold spec_round. rewrite <- Heq.
  destruct (Qcompare_spec (y1 - inject_Z (Qfloor y1)) (1 # 2)) as [E1 | L1 | G1];
    destruct (Qcompare_spec (y2 - inject_Z (Qfloor y1)) (1 # 2)) as [E2 | L2 | G2];
    try lia; try (destruct (Z.even (Qfloor y1)); lia); exfalso; lra.
Qed.

Lemma spec_round_le_Z (y : Q) (k : Z) : (y <= inject_Z k)%Q -> spec_round y <= k.
Proof. intros H. rewrite <- (spec_round_Z k). now apply spec_round_mono. Qed.

Lemma spec_round_ge_Z (y : Q) (k : Z) : (inject_Z k <= y)%Q -> k <= spec_round y.
Proof. intros H. rewrite <- (spec_round_Z k). now apply spec_round_mono. Qed.

Lemma spec_round_nonneg (y : Q) : (0 <= y)%Q -> 0 <= spec_round y.
Proof. intros H. now apply spec_round_ge_Z. Qed.

Lemma located_quotient (m e : Z) (l : location) (x : Q) :
  located m e l x ->
  exists f, (x / pow2 e == inject_Z m + f)%Q /\ loc_frac l f.
Proof.
  intros (f & Hx & Hf). exists f. split; [| exact Hf].
  rewrite Hx. field. pose proof (pow2_pos e). lra.
Qed.

Lemma located_floor (m e : Z) (l : location) (x : Q) :
  located m e l x -> Qfloor (x / pow2 e) = m.
Proof.
  intros H. apply located_quotient in H as (f & Hq & Hf).
  apply loc_frac_range in Hf. apply Qfloor_unique; rewrite Hq; lra.
Qed.

Lemma round_nearest_even_located (m e : Z) (l : location) (x : Q) :
  located m e l x -> round_nearest_even m l = spec_round (x / pow2 e).
Proof.
  intros H. pose proof (located_floor m e l x H) as Hfl.
  apply located_quotient in H as (f & Hq & Hf).
  unfold spec_round. rewrite Hfl.
  assert (Hfrac : (x / pow2 e - inject_Z m == f)%Q) by (rewrite Hq; ring).
  destruct l as [|[]]; simpl in Hf; simpl round_nearest_even;
    destruct (Qcompare_spec (x / pow2 e - inject_Z m) (1 # 2));
    try reflexivity; exfalso; lra.
Qed.

(** ** [binary_round_aux] *)

Lemma located_range (m e : Z) (l : location) (x : Q) :
  0 <= m -> located m e l x ->
  (0 <= x)%Q /\ (x < pow2 (Zdigits2 m + e))%Q /\
  (0 < m -> (pow2 (Zdigits2 m + e - 1) <= x)%Q).
Proof.
  intros Hm (f & Hx & Hf). apply loc_frac_range in Hf.
  pose proof (pow2_pos e) as He.
  assert (H0 : (0 <= inject_Z m)%Q) by (rewrite Zle_Qle in Hm; exact Hm).
  split; [rewrite Hx; nra |].
  destruct (Z.eq_dec m 0) as [-> | Hne].
  - simpl Zdigits2. rewrite Z.add_0_l. split; [| lia].
    assert (Hp : (0 < (1 - f) * pow2 e)%Q) by (apply Qmult_lt_0_compat; lra).
    assert (Hx' : (x == f * pow2 e)%Q) by (rewrite Hx; change (inject_Z 0) with 0%Q; ring).
    lra.
  - assert (Hpos : 0 < m) by lia.
    destruct (Zdigits2_bounds m Hpos) as [B1 B2].
    split.
    + rewrite pow2_add, Hx.
      assert (Hm1 : (inject_Z m + 1 <= pow2 (Zdigits2 m))%Q).
      { pose proof (Zdigits2_nonneg m).
        rewrite pow2_Z in B2 |- * by lia.
        rewrite <- Zlt_Qlt in B2.
        change 1%Q with (inject_Z 1). rewrite <- inject_Z_plus, <- Zle_Qle. lia. }
      nra.
    + intros _. replace (Zdigits2 m + e - 1) with (Zdigits2 m - 1 + e) by lia.
      rewrite pow2_add, Hx. nra.
Qed.

Lemma scaled_lt (x : Q) (a b : Z) :
  (x < pow2 a)%Q -> (x / pow2 b < pow2 (a - b))%Q.
Proof.
  intros H. rewrite pow2_sub. pose proof (pow2_pos b).
  unfold Qdiv. apply Qmult_lt_compat_r; [apply Qinv_lt_0_compat |]; assumption.
Qed.

Lemma scaled_le (x : Q) (a b : Z) :
  (pow2 a <= x)%Q -> (pow2 (a - b) <= x / pow2 b)%Q.
Proof.
  intros H. rewrite pow2_sub. pose proof (pow2_pos b).
  unfold Qdiv. apply Qmult_le_compat_r; [assumption |].
  apply Qlt_le_weak, Qinv_lt_0_compat. assumption.
Qed.

Lemma scaled_nonneg (x : Q) (b : Z) : (0 <= x)%Q -> (0 <= x / pow2 b)%Q.
Proof.
  intros H. pose proof (pow2_pos b).
  apply Qle_shift_div_l; [assumption | rewrite Qmult_0_l; assumption].
Qed.

(** What [binary_round_aux] returns for a located non-negative value:
    the value rounded at the canonical exponent, or infinity when that is
    2^emax or more. *)
Lemma binary_round_aux_spec (s : bool) (m e : Z) (l : location) (x : Q) :
  0 <= m -> located m e l x ->
  e <= fexp prec emax (Zdigits2 m + e) ->
  let E := fexp prec emax (Zdigits2 m + e) in
  let n := spec_round (x / pow2 E) in
  let r := binary_round_aux prec emax s m e l in
  (n = 0 /\ r = S754_zero s) \/
  (exists m2 e2, r = S754_finite s m2 e2 /\ 0 < n /\
     (inject_Z (Zpos m2) * pow2 e2 == inject_Z n * pow2 E)%Q) \/
  (r = S754_infinity s /\ 0 < n /\ (pow2 emax <= inject_Z n * pow2 E)%Q).
Proof.
  intros Hm Hloc Hprec E n r.
  destruct (located_range m e l x Hm Hloc) as (Hx0 & Hxhi & Hxlo).
  set (K := Zdigits2 m + e) in *.
  assert (HE : E = Z.max (K - 53) (-1074)) by apply fexp_spec.
  pose proof (shr_fexp_located m e l x Hm Hloc Hprec) as H1.
  unfold r, binary_round_aux.
  destruct (shr_fexp prec emax m e l) as [r1 e1].
  destruct H1 as [He1 [Hr1m Hr1]]. fold K in He1. fold E in He1. subst e1.
  rewrite (round_nearest_even_located _ _ _ _ Hr1). fold n.
  assert (Hy0 : (0 <= x / pow2 E)%Q) by now apply scaled_nonneg.
  assert (Hn0 : 0 <= n) by now apply spec_round_nonneg.
  assert (Hn_def : n = spec_round (x / pow2 E)) by reflexivity.
  assert (HprecE : e <= E) by exact Hprec.
  assert (HK : K = Zdigits2 m + e) by reflexivity.
  clearbody n E K.
  assert (Hyhi : (x / pow2 E < pow2 (K - E))%Q) by now apply scaled_lt.
  (* the second shift: by zero places or by one *)
  assert (Hshift :
    (fexp prec emax (Zdigits2 n + E) - E <= 0) \/
    (fexp prec emax (Zdigits2 n + E) - E = 1 /\ n = 2 ^ 53 /\ E = K - 53)).
  { rewrite fexp_spec.
    destruct (Z_lt_le_dec (K - E) 0) as [Hneg | Hpos].
    - left. assert (Hn : n = 0).
      { assert (Hhalf : (x / pow2 E < 1 # 2)%Q).
        { eapply Qlt_le_trans; [exact Hyhi |].
          change (1 # 2)%Q with (pow2 (-1)). apply pow2_le. lia. }
        rewrite Hn_def. revert Hy0 Hhalf. generalize (x / pow2 E)%Q. intros y Hy0 Hhalf.
        assert (Hfl : Qfloor y = 0)
          by (apply Qfloor_unique; change (inject_Z 0) with 0%Q; lra).
        rewrite spec_round_below_half; [exact Hfl |].
        rewrite Hfl. change (inject_Z 0) with 0%Q. lra. }
      rewrite Hn. simpl Zdigits2. lia.
    - assert (HnP : n <= 2 ^ (K - E)).
      { rewrite Hn_def. apply spec_round_le_Z. rewrite <- pow2_Z by lia.
        apply Qlt_le_weak, Hyhi. }
      destruct (Z.eq_dec n (2 ^ (K - E))) as [Heq | Hne].
      + rewrite Heq, Zdigits2_pow2 by lia.
        destruct (Z_lt_le_dec (K - 53) (-1074)) as [Hsub | Hnorm].
        * left. lia.
        * right. assert (HEK : E = K - 53) by lia.
          split; [lia |]. split; [| exact HEK].
          f_equal. lia.
      + left. assert (Hd : Zdigits2 n <= K - E)
          by (apply Zdigits2_le; lia).
        lia. }
  unfold shr_fexp, shr.
  destruct Hshift as [Hk | (Hk & Hn53 & HEK)].
  - (* no second shift *)
    assert (Hsame :
      (let (mrs'', e'') :=
         match fexp prec emax (Zdigits2 n + E) - E with
         | Z.pos p =>
             (SpecFloat.iter_pos shr_1 p (shr_record_of_loc n loc_Exact),
              E + (fexp prec emax (Zdigits2 n + E) - E))
         | _ => (shr_record_of_loc n loc_Exact, E)
         end in
       match shr_m mrs'' with
       | 0 => S754_zero s
       | Z.pos m0 =>
           if e'' <=? emax - prec
           then S754_finite s m0 e'' else S754_infinity s
       | Z.neg _ => S754_nan
       end)
      = match n with
        | 0 => S754_zero s
        | Z.pos m0 =>
            if E <=? emax - prec
            then S754_finite s m0 E else S754_infinity s
        | Z.neg _ => S754_nan
        end).
    { destruct (fexp prec emax (Zdigits2 n + E) - E); try lia; reflexivity. }
    rewrite Hsame. clear Hsame.
    destruct n as [|pn|pn] eqn:En; [left; auto | | lia].
    right. destruct (E <=? emax - prec) eqn:Hov.
    + left. exists pn, E. split; [reflexivity |]. split; [lia | reflexivity].
    + right. split; [reflexivity |]. split; [lia |].
      apply Z.leb_gt in Hov. change (emax - prec) with 971 in Hov.
      assert (Hmpos : 0 < m).
      { destruct (Z.eq_dec m 0) as [Hm0 | Hm0]; [| lia].
        exfalso. rewrite Hm0 in HK. simpl in HK. lia. }
      assert (HEK : E = K - 53) by lia.
      assert (Hylo : (pow2 (K - 1 - E) <= x / pow2 E)%Q)
        by (apply scaled_le, Hxlo, Hmpos).
      assert (Hn52 : 2 ^ 52 <= Z.pos pn).
      { rewrite Hn_def. apply spec_round_ge_Z.
        replace (K - 1 - E) with 52 in Hylo by lia.
        rewrite pow2_Z in Hylo by lia. exact Hylo. }
      assert (Hq : (inject_Z (2 ^ 52) <= inject_Z (Z.pos pn))%Q)
        by (rewrite <- Zle_Qle; exact Hn52).
      rewrite <- pow2_Z in Hq by lia.
      assert (Hp : (pow2 emax <= pow2 52 * pow2 E)%Q).
      { rewrite <- pow2_add. apply pow2_le. change emax with 1024. lia. }
      pose proof (pow2_pos E). nra.
  - (* the rounded mantissa is 2^53: one more shift *)
    rewrite Hk. simpl SpecFloat.iter_pos. rewrite Hn53.
    change (shr_m (shr_1 (shr_record_of_loc (2 ^ 53) loc_Exact)))
      with (Z.pos (2 ^ 52)%positive).
    cbv iota.
    assert (Hval : (inject_Z (2 ^ 52) * pow2 (E + 1)
                    == inject_Z (2 ^ 53) * pow2 E)%Q).
    { rewrite pow2_succ. change (2 ^ 53) with (2 * 2 ^ 52).
      rewrite inject_Z_mult. ring. }
    right. destruct (E + 1 <=? emax - prec) eqn:Hov.
    + left. exists (2 ^ 52)%positive, (E + 1).
      split; [reflexivity |]. split; [lia |].
      rewrite <- Hn53 in Hval |- *. exact Hval.
    + right. split; [reflexivity |]. split; [lia |].
      apply Z.leb_gt in Hov. change (emax - prec) with 971 in Hov.
      rewrite <- pow2_Z by lia. rewrite <- pow2_add.
      apply pow2_le. change emax with 1024. lia.
Qed.

(** ** Rounding as a function of the exact value *)

Lemma canon_Qeq (x y : Q) (E : Z) : (x == y)%Q -> canon x E -> canon y E.
Proof.
  intros Hxy (K & HE & Hlt & Hge). exists K. split; [exact HE |].
  split; [rewrite <- Hxy; exact Hlt |].
  destruct Hge as [Hge | Hge]; [left; rewrite <- Hxy; exact Hge | now right].
Qed.

Lemma rnd_value_Qeq (x y : Q) (E : Z) :
  (x == y)%Q -> (rnd_value x E == rnd_value y E)%Q.
Proof.
  intros Hxy. unfold rnd_value.
  assert (Hq : (x / pow2 E == y / pow2 E)%Q) by (rewrite Hxy; reflexivity).
  rewrite (spec_round_comp _ _ Hq). reflexivity.
Qed.

Lemma rnd_value_nonneg (x : Q) (E : Z) : (0 <= x)%Q -> (0 <= rnd_value x E)%Q.
Proof.
  intros Hx. unfold rnd_value.
  assert (Hn : 0 <= spec_round (x / pow2 E))
    by (apply spec_round_nonneg, scaled_nonneg, Hx).
  rewrite Zle_Qle in Hn. pose proof (pow2_pos E).
  apply Qmult_le_0_compat; [exact Hn | lra].
Qed.

Lemma pow2_split (K E : Z) : (pow2 K == pow2 (K - E) * pow2 E)%Q.
Proof. rewrite <- pow2_add. replace (K - E + E) with K by lia. reflexivity. Qed.

Lemma rnd_value_le_pow2 (x : Q) (E K : Z) :
  (0 <= x)%Q -> (x < pow2 K)%Q -> (rnd_value x E <= pow2 K)%Q.
Proof.
  intros Hx0 Hx. unfold rnd_value.
  pose proof (pow2_pos E) as HE. pose proof (pow2_pos K) as HK.
  assert (Hy0 : (0 <= x / pow2 E)%Q) by now apply scaled_nonneg.
  assert (Hy : (x / pow2 E < pow2 (K - E))%Q) by now apply scaled_lt.
  revert Hy0 Hy. generalize (x / pow2 E)%Q. intros y Hy0 Hy.
  destruct (Z_lt_le_dec (K - E) 0) as [Hneg | Hpos].
  - assert (Hhalf : (y < 1 # 2)%Q).
    { eapply Qlt_le_trans; [exact Hy |].
      change (1 # 2)%Q with (pow2 (-1)). apply pow2_le. lia. }
    assert (Hfl : Qfloor y = 0)
      by (apply Qfloor_unique; change (inject_Z 0) with 0%Q; lra).
    rewrite spec_round_below_half, Hfl.
    + change (inject_Z 0) with 0%Q. lra.
    + rewrite Hfl. change (inject_Z 0) with 0%Q. lra.
  - assert (Hn : spec_round y <= 2 ^ (K - E)).
    { apply spec_round_le_Z. rewrite <- pow2_Z by lia. lra. }
    rewrite Zle_Qle, <- pow2_Z in Hn by lia.
    rewrite (pow2_split K E).
    apply Qmult_le_compat_r; [exact Hn | lra].
Qed.

Lemma rnd_value_ge_pow2 (x : Q) (E K : Z) :
  E <= K -> (pow2 K <= x)%Q -> (pow2 K <= rnd_value x E)%Q.
Proof.
  intros HEK Hx. unfold rnd_value. pose proof (pow2_pos E) as HE.
  assert (Hy : (pow2 (K - E) <= x / pow2 E)%Q) by now apply scaled_le.
  revert Hy. generalize (x / pow2 E)%Q. intros y Hy.
  assert (Hn : 2 ^ (K - E) <= spec_round y).
  { apply spec_round_ge_Z. rewrite <- pow2_Z by lia. exact Hy. }
  rewrite Zle_Qle, <- pow2_Z in Hn by lia.
  replace K with (K - E + E) at 1 by lia. rewrite pow2_add.
  apply Qmult_le_compat_r; [exact Hn | lra].
Qed.

Lemma canon_exponent_mono (x1 x2 : Q) (E1 E2 : Z) :
  (x1 <= x2)%Q -> canon x1 E1 -> canon x2 E2 -> E1 <= E2.
Proof.
  intros Hx (K1 & HE1 & Hlt1 & Hge1) (K2 & HE2 & Hlt2 & Hge2).
  destruct Hge1 as [Hge1 | Hsub]; [| lia].
  assert (HK : K1 - 1 < K2).
  { apply pow2_lt_inv. lra. }
  lia.
Qed.

(** Rounding to nearest is monotone. *)
Lemma rnd_value_mono (x1 x2 : Q) (E1 E2 : Z) :
  (0 <= x1)%Q -> (x1 <= x2)%Q -> canon x1 E1 -> canon x2 E2 ->
  (rnd_value x1 E1 <= rnd_value x2 E2)%Q.
Proof.
  intros H0 Hx C1 C2.
  pose proof (canon_exponent_mono _ _ _ _ Hx C1 C2) as HE.
  destruct (Z.eq_dec E1 E2) as [-> | Hne].
  - unfold rnd_value. pose proof (pow2_pos E2).
    apply Qmult_le_compat_r; [| lra].
    rewrite <- Zle_Qle. apply spec_round_mono.
    unfold Qdiv. apply Qmult_le_compat_r; [exact Hx |].
    apply Qlt_le_weak, Qinv_lt_0_compat. assumption.
  - destruct C1 as (K1 & HE1 & Hlt1 & Hge1).
    destruct C2 as (K2 & HE2 & Hlt2 & Hge2).
    assert (HK : K1 <= K2 - 1) by lia.
    destruct Hge2 as [Hge2 | Hsub]; [| lia].
    apply Qle_trans with (pow2 K1).
    + now apply rnd_value_le_pow2.
    + apply Qle_trans with (pow2 (K2 - 1)); [apply pow2_le; lia |].
      apply rnd_value_ge_pow2; [lia | exact Hge2].
Qed.

Lemma rnd_value_unique (x : Q) (E1 E2 : Z) :
  (0 <= x)%Q -> canon x E1 -> canon x E2 ->
  (rnd_value x E1 == rnd_value x E2)%Q.
Proof.
  intros H0 C1 C2. apply Qle_antisym; apply rnd_value_mono; auto; lra.
Qed.

Lemma rnd_value_0 (E : Z) : (rnd_value 0 E == 0)%Q.
Proof.
  unfold rnd_value.
  assert (Hq : (0 / pow2 E == inject_Z 0)%Q) by (unfold Qdiv; ring).
  rewrite (spec_round_comp _ _ Hq), spec_round_Z. ring.
Qed.

Lemma canon_0 : canon 0 (-1074).
Proof.
  exists (-1074). split; [reflexivity |]. split; [apply pow2_pos | right; lia].
Qed.

Lemma rnd_value_grid (m E : Z) :
  (rnd_value (inject_Z m * pow2 E) E == inject_Z m * pow2 E)%Q.
Proof.
  unfold rnd_value. pose proof (pow2_pos E).
  assert (Hq : (inject_Z m * pow2 E / pow2 E == inject_Z m)%Q)
    by (field; lra).
  rewrite (spec_round_comp _ _ Hq), spec_round_Z. reflexivity.
Qed.

(** ** Valid floats and rounded results *)

Lemma valid_finite_inv (s : bool) (m : positive) (e : Z) :
  SFvalid (S754_finite s m e) = true ->
  -1074 <= e <= 971 /\ Zdigits2 (Zpos m) <= 53 /\
  e = fexp prec emax (Zdigits2 (Zpos m) + e).
Proof.
  unfold SFvalid, valid_binary, bounded, canonical_mantissa.
  intros H. apply andb_prop in H. destruct H as [H1 H2].
  apply Z.eqb_eq in H1. apply Z.leb_le in H2.
  change (emax - prec) with 971 in H2.
  simpl Zdigits2. rewrite fexp_spec in H1 |- *. lia.
Qed.

Lemma Zpos_Q_pos (m : positive) : (0 < inject_Z (Zpos m))%Q.
Proof. change 0%Q with (inject_Z 0). rewrite <- Zlt_Qlt. lia. Qed.

Lemma finite_value_pos (m : positive) (e : Z) :
  (0 < inject_Z (Zpos m) * pow2 e)%Q.
Proof. apply Qmult_lt_0_compat; [apply Zpos_Q_pos | apply pow2_pos]. Qed.

Lemma finite_value_bounds (m : positive) (e : Z) :
  (pow2 (Zdigits2 (Zpos m) + e - 1) <= inject_Z (Zpos m) * pow2 e
   < pow2 (Zdigits2 (Zpos m) + e))%Q.
Proof.
  destruct (Zdigits2_bounds (Zpos m)) as [B1 B2]; [lia |].
  pose proof (pow2_pos e).
  replace (Zdigits2 (Z.pos m) + e - 1) with (Zdigits2 (Z.pos m) - 1 + e) by lia.
  rewrite !pow2_add. split.
  - apply Qmult_le_compat_r; [exact B1 | lra].
  - apply Qmult_lt_compat_r; [assumption | exact B2].
Qed.

Lemma valid_canon (s : bool) (m : positive) (e : Z) :
  SFvalid (S754_finite s m e) = true ->
  canon (inject_Z (Zpos m) * pow2 e) e.
Proof.
  intros Hv. destruct (valid_finite_inv _ _ _ Hv) as (He & Hd & Hc).
  destruct (finite_value_bounds m e) as [B1 B2].
  exists (Zdigits2 (Zpos m) + e). rewrite fexp_spec in Hc.
  split; [exact Hc |]. split; [exact B2 | left; exact B1].
Qed.

Lemma valid_below_overflow (s : bool) (m : positive) (e : Z) :
  SFvalid (S754_finite s m e) = true ->
  (inject_Z (Zpos m) * pow2 e < pow2 1024)%Q.
Proof.
  intros Hv. destruct (valid_finite_inv _ _ _ Hv) as (He & Hd & Hc).
  destruct (finite_value_bounds m e) as [_ B2].
  eapply Qlt_le_trans; [exact B2 |]. apply pow2_le. lia.
Qed.

Lemma SF2Q_nonneg (r : spec_float) : SFnonneg r = true -> (0 <= SF2Q r)%Q.
Proof.
  destruct r as [s|s| |[] m e]; simpl; intros H; try discriminate; try lra.
  apply Qlt_le_weak, finite_value_pos.
Qed.

Lemma rounds_nonneg (x : Q) (r : spec_float) :
  rounds x r -> SFfinite r = true -> SFnonneg r = true.
Proof.
  intros (E & _ & Hr) Hf. destruct r as [s|s| |[] m e]; simpl in *;
    try discriminate; try reflexivity; contradiction.
Qed.

Lemma rounds_value (x : Q) (r : spec_float) :
  rounds x r -> SFfinite r = true ->
  exists E, canon x E /\ (SF2Q r == rnd_value x E)%Q.
Proof.
  intros (E & HC & Hr) Hf. exists E. split; [exact HC |].
  destruct r as [s|s| |[] m e]; simpl in *; try discriminate;
    try contradiction.
  - symmetry. exact Hr.
  - exact Hr.
Qed.

Lemma SF2Q_below_overflow (r : spec_float) :
  SFvalid r = true -> SFnonneg r = true -> (SF2Q r < pow2 1024)%Q.
Proof.
  intros Hv Hn. destruct r as [s|s| |[] m e]; simpl in *; try discriminate.
  - apply pow2_pos.
  - now apply (valid_below_overflow false).
Qed.

(** Rounded results keep the order of the exact values. *)
Lemma rounds_mono (x1 x2 : Q) (r1 r2 : spec_float) :
  (0 <= x1)%Q -> (x1 <= x2)%Q -> rounds x1 r1 -> rounds x2 r2 ->
  SFvalid r2 = true -> SFfinite r2 = true ->
  SFfinite r1 = true /\ (SF2Q r1 <= SF2Q r2)%Q.
Proof.
  intros H0 Hx R1 R2 Hv Hf.
  pose proof (rounds_nonneg _ _ R2 Hf) as Hn2.
  destruct (rounds_value _ _ R2 Hf) as (E2 & C2 & V2).
  pose proof (SF2Q_below_overflow _ Hv Hn2) as Hb.
  destruct R1 as (E1 & C1 & Hr1).
  pose proof (rnd_value_mono _ _ _ _ H0 Hx C1 C2) as Hm.
  destruct r1 as [s|s| |[] m e]; simpl in Hr1 |- *; try contradiction.
  - split; [reflexivity |]. apply SF2Q_nonneg, Hn2.
  - destruct s; [contradiction |]. exfalso. lra.
  - split; [reflexivity |]. lra.
Qed.

Lemma rounds_Qeq (x y : Q) (r : spec_float) :
  (x == y)%Q -> rounds x r -> rounds y r.
Proof.
  intros Hxy (E & C & Hr). exists E. split; [now apply (canon_Qeq x) |].
  pose proof (rnd_value_Qeq x y E Hxy) as Hv.
  destruct r as [s|[]| |[] m e]; try exact Hr; simpl in *; lra.
Qed.

(** A float is the rounding of its own value. *)
Lemma rounds_exact (r : spec_float) :
  SFvalid r = true -> SFnonneg r = true -> rounds (SF2Q r) r.
Proof.
  intros Hv Hn. destruct r as [s|s| |[] m e]; simpl in Hn; try discriminate.
  - exists (-1074). split; [apply canon_0 | apply rnd_value_0].
  - exists e. split; [apply (valid_canon false), Hv |].
    simpl. symmetry. apply rnd_value_grid.
Qed.

(** So an exact value that is a float is returned as it is. *)
Lemma rounds_representable (x : Q) (r r0 : spec_float) :
  rounds x r -> SFvalid r0 = true -> SFnonneg r0 = true ->
  (x == SF2Q r0)%Q ->
  SFfinite r = true /\ (SF2Q r == x)%Q.
Proof.
  intros R Hv Hn Hx.
  assert (Hf0 : SFfinite r0 = true) by (destruct r0 as [| | |[]]; auto).
  pose proof (SF2Q_nonneg _ Hn) as H0.
  pose proof (rounds_Qeq _ _ _ (Qeq_sym _ _ Hx) (rounds_exact _ Hv Hn)) as R0.
  assert (H0x : (0 <= x)%Q) by lra.
  destruct (rounds_mono x x r r0 H0x (Qle_refl _) R R0 Hv Hf0) as [Hf Hle].
  split; [exact Hf |].
  destruct (rounds_value _ _ R Hf) as (E & C & V).
  destruct (rounds_value _ _ R0 Hf0) as (E0 & C0 & V0).
  pose proof (rnd_value_unique x E E0 H0x C C0). lra.
Qed.

Lemma rounds_0 (r : spec_float) :
  rounds 0 r -> exists s, r = S754_zero s.
Proof.
  intros (E & C & Hr). pose proof (rnd_value_0 E) as H0.
  pose proof (pow2_pos 1024) as HP.
  set (P := pow2 1024) in *. clearbody P.
  destruct r as [s|[]| |[] m e]; cbv beta iota in Hr; try contradiction.
  - now exists s.
  - exfalso. lra.
  - exfalso. pose proof (finite_value_pos m e). lra.
Qed.

Lemma binary_round_aux_rounds (m e : Z) (l : location) (x : Q) :
  0 <= m -> located m e l x ->
  e <= fexp prec emax (Zdigits2 m + e) ->
  rounds x (binary_round_aux prec emax false m e l).
Proof.
  intros Hm Hloc Hprec.
  destruct (located_range m e l x Hm Hloc) as (Hx0 & Hxhi & Hxlo).
  assert (HC : canon x (fexp prec emax (Zdigits2 m + e))).
  { exists (Zdigits2 m + e). split; [apply fexp_spec |].
    split; [exact Hxhi |].
    destruct (Z.eq_dec m 0) as [Hm0 | Hm0].
    - right. rewrite Hm0 in Hprec |- *. simpl Zdigits2 in *.
      rewrite fexp_spec in Hprec. lia.
    - left. apply Hxlo. lia. }
  exists (fexp prec emax (Zdigits2 m + e)). split; [exact HC |].
  pose proof (binary_round_aux_spec false m e l x Hm Hloc Hprec) as Hs.
  cbv zeta in Hs. unfold rnd_value.
  destruct Hs as [[Hn Hr] | [(m2 & e2 & Hr & Hn & Hv) | (Hr & Hn & Hv)]];
    rewrite Hr.
  - rewrite Hn. change (inject_Z 0) with 0%Q. ring.
  - exact Hv.
  - exact Hv.
Qed.

(** ** Multiplication, division and subtraction *)

Lemma rounds_zero (x : Q) (s : bool) : (x == 0)%Q -> rounds x (S754_zero s).
Proof.
  intros Hx. apply (rounds_Qeq 0 x); [symmetry; exact Hx |].
  exists (-1074). split; [apply canon_0 | apply rnd_value_0].
Qed.

Lemma Zdigits2_unique (m d : Z) :
  2 ^ (d - 1) <= m < 2 ^ d -> 0 < m -> Zdigits2 m = d.
Proof.
  intros [H1 H2] Hm.
  assert (Hd : 0 < d).
  { destruct (Z_lt_le_dec 0 d) as [Hd | Hd]; [exact Hd |].
    exfalso. destruct (Z.eq_dec d 0) as [-> | Hne].
    - simpl in H2. lia.
    - rewrite (Z.pow_neg_r 2 d) in H2 by lia. lia. }
  destruct m as [|p|p]; try lia. simpl Zdigits2.
  destruct (digits2_bounds p) as [B1 B2].
  set (k := Zpos (digits2_pos p)) in *.
  assert (Hk : 0 < k) by (unfold k; lia).
  destruct (Z.lt_trichotomy k d) as [Hlt | [Heq | Hgt]]; [| exact Heq |].
  - exfalso.
    assert (2 ^ k <= 2 ^ (d - 1)) by (apply Z.pow_le_mono_r; lia). lia.
  - exfalso.
    assert (2 ^ d <= 2 ^ (k - 1)) by (apply Z.pow_le_mono_r; lia). lia.
Qed.

Lemma Zdigits2_ge (m k : Z) : 0 <= k -> 2 ^ k <= m -> k + 1 <= Zdigits2 m.
Proof.
  intros Hk Hm.
  assert (Hpos : 0 < m) by (pose proof (Z.pow_pos_nonneg 2 k); lia).
  destruct m as [|p|p]; try lia. simpl Zdigits2.
  destruct (digits2_bounds p) as [B1 B2].
  destruct (Z_lt_le_dec k (Zpos (digits2_pos p))) as [Hlt | Hge]; [lia |].
  exfalso.
  assert (2 ^ Zpos (digits2_pos p) <= 2 ^ k) by (apply Z.pow_le_mono_r; lia).
  lia.
Qed.

Lemma Zdigits2_mul_pow2 (m : positive) (k : Z) :
  0 <= k -> Zdigits2 (Zpos m * 2 ^ k) = Zdigits2 (Zpos m) + k.
Proof.
  intros Hk. simpl Zdigits2 at 2.
  destruct (digits2_bounds m) as [B1 B2].
  set (d := Zpos (digits2_pos m)) in *.
  assert (Hd : 0 < d) by (unfold d; lia).
  assert (Hp : 0 < 2 ^ k) by (apply Z.pow_pos_nonneg; lia).
  apply Zdigits2_unique; [| nia].
  replace (d + k - 1) with (d - 1 + k) by lia.
  rewrite !Z.pow_add_r by lia. split; nia.
Qed.

Lemma Zdigits2_mul_ge (m1 m2 : positive) :
  Zdigits2 (Zpos m1) + Zdigits2 (Zpos m2) - 1 <= Zdigits2 (Zpos (m1 * m2)).
Proof.
  simpl Zdigits2 at 1 2.
  destruct (digits2_bounds m1) as [B1 _].
  destruct (digits2_bounds m2) as [B2 _].
  set (d1 := Zpos (digits2_pos m1)) in *.
  set (d2 := Zpos (digits2_pos m2)) in *.
  assert (Hd1 : 0 < d1) by (unfold d1; lia).
  assert (Hd2 : 0 < d2) by (unfold d2; lia).
  replace (d1 + d2 - 1) with ((d1 - 1 + (d2 - 1)) + 1) by lia.
  apply Zdigits2_ge; [lia |].
  rewrite Z.pow_add_r by lia. rewrite Pos2Z.inj_mul.
  assert (0 < 2 ^ (d1 - 1)) by (apply Z.pow_pos_nonneg; lia).
  assert (0 < 2 ^ (d2 - 1)) by (apply Z.pow_pos_nonneg; lia).
  nia.
Qed.

Lemma located_exact (m e : Z) : located m e loc_Exact (inject_Z m * pow2 e).
Proof. exists 0%Q. split; [ring | simpl; reflexivity]. Qed.

Lemma SFmul_rounds (x y : spec_float) :
  SFvalid x = true -> SFvalid y = true ->
  SFnonneg x = true -> SFnonneg y = true ->
  rounds (SF2Q x * SF2Q y) (SFmul prec emax x y).
Proof.
  intros Hvx Hvy Hnx Hny.
  destruct x as [sx|sx| |[] mx ex]; try discriminate;
    destruct y as [sy|sy| |[] my ey]; try discriminate;
    try (apply rounds_zero; simpl; ring).
  simpl SFmul.
  destruct (valid_finite_inv _ _ _ Hvx) as (Hex & Hdx & Hcx).
  destruct (valid_finite_inv _ _ _ Hvy) as (Hey & Hdy & Hcy).
  pose proof (Zdigits2_mul_ge mx my) as Hd.
  apply (rounds_Qeq (inject_Z (Zpos (mx * my)) * pow2 (ex + ey))).
  - simpl SF2Q. rewrite Pos2Z.inj_mul, inject_Z_mult, pow2_add.
    simpl cond_Zopp. ring.
  - apply binary_round_aux_rounds; [lia | apply located_exact |].
    rewrite fexp_spec in Hcx, Hcy |- *.
    assert (0 < Zdigits2 (Z.pos mx)) by (simpl; lia).
    assert (0 < Zdigits2 (Z.pos my)) by (simpl; lia).
    lia.
Qed.

(** Division: the quotient of the mantissas and where the remainder
    leaves the exact quotient. *)
Lemma ratio_facts (r m2 : Z) :
  0 < m2 -> 0 <= r < m2 ->
  (0 <= inject_Z r / inject_Z m2 < 1)%Q /\
  (r <> 0 -> (0 < inject_Z r / inject_Z m2)%Q) /\
  (r = 0 -> (inject_Z r / inject_Z m2 == 0)%Q) /\
  (inject_Z r / inject_Z m2 ?= 1 # 2)%Q = (2 * r ?= m2).
Proof.
  intros Hm [Hr0 Hr].
  assert (Hm' : (0 < inject_Z m2)%Q)
    by (change 0%Q with (inject_Z 0); rewrite <- Zlt_Qlt; exact Hm).
  split; [split |]; [| | split; [| split]].
  - apply Qle_shift_div_l; [exact Hm' |]. rewrite Qmult_0_l.
    change 0%Q with (inject_Z 0). rewrite <- Zle_Qle. exact Hr0.
  - apply Qlt_shift_div_r; [exact Hm' |]. rewrite Qmult_1_l, <- Zlt_Qlt.
    exact Hr.
  - intros Hne. apply Qlt_shift_div_l; [exact Hm' |]. rewrite Qmult_0_l.
    change 0%Q with (inject_Z 0). rewrite <- Zlt_Qlt. lia.
  - intros ->. unfold Qdiv. change (inject_Z 0) with 0%Q. ring.
  - destruct m2 as [|p|p]; try lia.
    unfold Qcompare, Qdiv, Qmult, Qinv, inject_Z. simpl Qnum. simpl Qden.
    f_equal; lia.
Qed.

Lemma new_location_spec (m2 r : Z) :
  0 < m2 -> 0 <= r < m2 ->
  loc_frac (new_location m2 r) (inject_Z r / inject_Z m2).
Proof.
  intros Hm Hr.
  destruct (ratio_facts r m2 Hm Hr) as (Hrange & Hpos & Hzero & Hcmp).
  revert Hrange Hpos Hzero Hcmp.
  generalize (inject_Z r / inject_Z m2)%Q. intros f Hrange Hpos Hzero Hcmp.
  unfold new_location, new_location_even, new_location_odd.
  destruct (IntDef.Z.even m2) eqn:Hev; cbv beta;
    (destruct (Z.eqb_spec r 0) as [Hr0 | Hr0]; [simpl; auto |]);
    specialize (Hpos Hr0).
  - destruct (2 * r ?= m2) eqn:Hc; simpl.
    + apply Qeq_alt. exact Hcmp.
    + apply Qlt_alt in Hcmp. split; assumption.
    + apply Qgt_alt in Hcmp. split; [exact Hcmp | apply Hrange].
  - change (Z.even m2 = false) in Hev.
    assert (Hodd : 2 * r <> m2).
    { intros Heq. rewrite <- Heq, Z.even_mul in Hev. discriminate. }
    destruct (2 * r + 1 ?= m2) eqn:Hc; simpl.
    + apply Z.compare_eq in Hc.
      assert (Hlt : (2 * r ?= m2) = Lt) by (rewrite Z.compare_lt_iff; lia).
      rewrite Hlt in Hcmp. apply Qlt_alt in Hcmp. split; assumption.
    + rewrite Z.compare_lt_iff in Hc.
      assert (Hlt : (2 * r ?= m2) = Lt) by (rewrite Z.compare_lt_iff; lia).
      rewrite Hlt in Hcmp. apply Qlt_alt in Hcmp. split; assumption.
    + rewrite Z.compare_gt_iff in Hc.
      assert (Hgt : (2 * r ?= m2) = Gt) by (rewrite Z.compare_gt_iff; lia).
      rewrite Hgt in Hcmp. apply Qgt_alt in Hcmp.
        split; [exact Hcmp | apply Hrange].
Qed.

Lemma SFdiv_core_located (m1 m2 : positive) (e1 e2 : Z) :
  let '(q, e', l) := SFdiv_core_binary prec emax (Zpos m1) e1 (Zpos m2) e2 in
  0 <= q /\
  located q e' l
    (inject_Z (Zpos m1) * pow2 e1 / (inject_Z (Zpos m2) * pow2 e2)) /\
  e' <= fexp prec emax (Zdigits2 q + e').
Proof.
  unfold SFdiv_core_binary.
  set (d1 := Zdigits2 (Zpos m1)). set (d2 := Zdigits2 (Zpos m2)).
  set (e' := Z.min (fexp prec emax (d1 + e1 - (d2 + e2))) (e1 - e2)).
  set (s := e1 - e2 - e').
  assert (Hs : 0 <= s) by (unfold s, e'; lia).
  set (m' := match s with
             | 0 => Zpos m1
             | Zpos _ => Z.shiftl (Zpos m1) s
             | Zneg _ => 0
             end).
  assert (Hm' : m' = Zpos m1 * 2 ^ s).
  { unfold m'. destruct s as [|p|p] eqn:Es; [lia | | lia].
    apply Z.shiftl_mul_pow2. lia. }
  pose proof (Z_div_mod m' (Zpos m2) eq_refl) as Hdiv.
  destruct (Z.div_eucl m' (Zpos m2)) as [q r].
  destruct Hdiv as [Hdiv Hr].
  assert (Hp : 0 < 2 ^ s) by (apply Z.pow_pos_nonneg; lia).
  assert (Hq : 0 <= q) by nia.
  split; [exact Hq |]. split.
  - exists (inject_Z r / inject_Z (Zpos m2))%Q.
    split; [| apply new_location_spec; lia].
    assert (He1 : (pow2 e1 == pow2 e2 * pow2 e' * pow2 s)%Q).
    { rewrite <- !pow2_add. replace (e2 + e' + s) with e1 by (unfold s; lia).
      reflexivity. }
    assert (HZ : (inject_Z (Zpos m1) * pow2 s
                  == inject_Z (Zpos m2) * inject_Z q + inject_Z r)%Q).
    { rewrite pow2_Z by lia.
      rewrite <- !inject_Z_mult, <- inject_Z_plus, <- Hdiv, Hm'. reflexivity. }
    pose proof (pow2_pos e2). pose proof (pow2_pos e').
    pose proof (pow2_pos s). pose proof (Zpos_Q_pos m2).
    rewrite He1.
    setoid_replace (inject_Z (Z.pos m1) * (pow2 e2 * pow2 e' * pow2 s) /
                    (inject_Z (Z.pos m2) * pow2 e2))%Q
      with ((inject_Z (Zpos m1) * pow2 s) * pow2 e' / inject_Z (Zpos m2))%Q
      using relation Qeq by (field; split; lra).
    rewrite HZ. field. lra.
  - rewrite !fexp_spec.
    assert (He' : e' <= Z.max (d1 + e1 - (d2 + e2) - 53) (-1074)).
    { unfold e'. rewrite fexp_spec. lia. }
    destruct (Z_lt_le_dec (d1 - 1 + s - d2) 0) as [Hneg | Hpos].
    + assert (d1 + e1 - (d2 + e2) <= e') by (unfold s in Hneg; lia). lia.
    + assert (Hdq : d1 + s - d2 <= Zdigits2 q).
      { replace (d1 + s - d2) with (d1 - 1 + s - d2 + 1) by lia.
        apply Zdigits2_ge; [exact Hpos |].
        destruct (digits2_bounds m1) as [B1 _].
        destruct (digits2_bounds m2) as [_ B2].
        fold (Zdigits2 (Zpos m1)) in B1. fold d1 in B1.
        fold (Zdigits2 (Zpos m2)) in B2. fold d2 in B2.
        assert (Hd1 : 0 < d1) by (unfold d1; simpl; lia).
        assert (Hd2 : 0 < d2) by (unfold d2; simpl; lia).
        assert (Hsplit : 2 ^ (d1 - 1 + s) = 2 ^ (d1 - 1 + s - d2) * 2 ^ d2).
        { rewrite <- Z.pow_add_r by lia. f_equal. lia. }
        assert (Hlow : 2 ^ (d1 - 1 + s) <= m').
        { rewrite Hm', Z.pow_add_r by lia. nia. }
        assert (0 < 2 ^ (d1 - 1 + s - d2)) by (apply Z.pow_pos_nonneg; lia).
        nia. }
      unfold s in Hdq. lia.
Qed.

Lemma SFdiv_rounds (x y : spec_float) :
  SFvalid x = true -> SFnonneg x = true ->
  (exists m e, y = S754_finite false m e) ->
  rounds (SF2Q x / SF2Q y) (SFdiv prec emax x y).
Proof.
  intros Hvx Hnx (my & ey & ->).
  destruct x as [sx|sx| |[] mx ex]; try discriminate.
  - apply rounds_zero. unfold Qdiv. simpl. ring.
  - simpl SFdiv. pose proof (SFdiv_core_located mx my ex ey) as Hc.
    destruct (SFdiv_core_binary prec emax (Zpos mx) ex (Zpos my) ey)
      as [[q e'] l].
    destruct Hc as (Hq & Hloc & Hprec).
    simpl xorb. simpl SF2Q. simpl cond_Zopp.
    now apply binary_round_aux_rounds.
Qed.

Lemma iter_xO (m d : positive) : Zpos (Pos.iter xO m d) = Zpos m * 2 ^ Zpos d.
Proof.
  induction d as [|d IH] using Pos.peano_ind.
  - simpl. lia.
  - rewrite Pos.iter_succ, Pos2Z.inj_succ, Z.pow_succ_r by lia.
    rewrite Pos2Z.inj_xO, IH. lia.
Qed.

Lemma shl_align_spec (m : positive) (e e' : Z) :
  snd (shl_align m e e') = Z.min e e' /\
  Zpos (fst (shl_align m e e')) = Zpos m * 2 ^ (e - Z.min e e').
Proof.
  unfold shl_align. destruct (e' - e) as [|d|d] eqn:Hd; simpl fst; simpl snd.
  - replace (Z.min e e') with e by lia. rewrite Z.sub_diag. simpl. lia.
  - replace (Z.min e e') with e by lia. rewrite Z.sub_diag. simpl. lia.
  - replace (Z.min e e') with e' by lia. split; [reflexivity |].
    rewrite iter_xO. f_equal. f_equal. lia.
Qed.

Lemma binary_round_rounds (m : positive) (e : Z) :
  rounds (inject_Z (Zpos m) * pow2 e) (binary_round prec emax false m e).
Proof.
  unfold binary_round.
  destruct (shl_align_spec m e (fexp prec emax (Zpos (digits2_pos m) + e)))
    as [He Hm].
  destruct (shl_align m e (fexp prec emax (Zpos (digits2_pos m) + e)))
    as [mz ez].
  simpl fst in Hm. simpl snd in He.
  set (k := e - Z.min e (fexp prec emax (Zpos (digits2_pos m) + e))) in *.
  assert (Hk : 0 <= k) by (unfold k; lia).
  apply (rounds_Qeq (inject_Z (Zpos mz) * pow2 ez)).
  - rewrite Hm, inject_Z_mult, <- pow2_Z by lia.
    rewrite <- Qmult_assoc, <- pow2_add.
    replace (k + ez) with e by (unfold k; lia). reflexivity.
  - apply binary_round_aux_rounds; [lia | apply located_exact |].
    rewrite Hm, Zdigits2_mul_pow2 by lia. simpl Zdigits2.
    replace (Zpos (digits2_pos m) + k + ez)
      with (Zpos (digits2_pos m) + e) by (unfold k; lia).
    lia.
Qed.

Lemma binary_normalize_rounds (M e : Z) :
  0 <= M -> rounds (inject_Z M * pow2 e) (binary_normalize prec emax M e false).
Proof.
  intros HM. destruct M as [|p|p]; [| | lia]; simpl binary_normalize.
  - apply rounds_zero. change (inject_Z 0) with 0%Q. ring.
  - apply binary_round_rounds.
Qed.

Lemma inject_Z_sub (a b : Z) : (inject_Z (a - b) == inject_Z a - inject_Z b)%Q.
Proof.
  unfold Z.sub, Qminus. rewrite inject_Z_plus, inject_Z_opp. reflexivity.
Qed.

Lemma SF2Q_finite_sign (s : bool) (m : positive) (e : Z) :
  (if s then SF2Q (S754_finite s m e) < 0 else 0 < SF2Q (S754_finite s m e))%Q.
Proof.
  pose proof (finite_value_pos m e). destruct s; simpl.
  - setoid_replace (inject_Z (Z.neg m) * pow2 e)%Q
      with (- (inject_Z (Zpos m) * pow2 e))%Q using relation Qeq; [lra |].
    change (Z.neg m) with (- Zpos m). rewrite inject_Z_opp. ring.
  - exact H.
Qed.

Lemma SFsub_rounds (x y : spec_float) :
  SFvalid x = true -> SFvalid y = true ->
  SFfinite x = true -> SFfinite y = true ->
  (SF2Q y <= SF2Q x)%Q ->
  rounds (SF2Q x - SF2Q y) (SFsub prec emax x y).
Proof.
  intros Hvx Hvy Hfx Hfy Hle.
  destruct x as [sx|sx| |sx mx ex]; try discriminate;
    destruct y as [sy|sy| |sy my ey]; try discriminate.
  - simpl. destruct sx, sy; apply rounds_zero; ring.
  - pose proof (SF2Q_finite_sign sy my ey) as Hs.
    change (SF2Q (S754_zero sx)) with 0%Q in Hle.
    destruct sy; [| exfalso; lra].
    simpl SFsub.
    apply (rounds_Qeq (SF2Q (S754_finite false my ey))).
    + simpl. change (Z.neg my) with (- Zpos my). rewrite inject_Z_opp. ring.
    + apply rounds_exact; [exact Hvy | reflexivity].
  - pose proof (SF2Q_finite_sign sx mx ex) as Hs.
    change (SF2Q (S754_zero sy)) with 0%Q in Hle.
    destruct sx; [exfalso; lra |].
    simpl SFsub.
    apply (rounds_Qeq (SF2Q (S754_finite false mx ex))).
    + simpl. ring.
    + apply rounds_exact; [exact Hvx | reflexivity].
  - simpl SFsub.
    destruct (shl_align_spec mx ex (Z.min ex ey)) as [_ Hmx].
    destruct (shl_align_spec my ey (Z.min ex ey)) as [_ Hmy].
    replace (Z.min ex (Z.min ex ey)) with (Z.min ex ey) in Hmx by lia.
    replace (Z.min ey (Z.min ex ey)) with (Z.min ex ey) in Hmy by lia.
    set (ez := Z.min ex ey) in *.
    set (M := cond_Zopp sx (Zpos (fst (shl_align mx ex ez))) -
              cond_Zopp sy (Zpos (fst (shl_align my ey ez)))).
    assert (HM : (inject_Z M * pow2 ez
                  == SF2Q (S754_finite sx mx ex) - SF2Q (S754_finite sy my ey))%Q).
    { unfold M. rewrite Hmx, Hmy.
      assert (HA : (inject_Z (Zpos mx * 2 ^ (ex - ez))
                    == inject_Z (Zpos mx) * pow2 (ex - ez))%Q)
        by (rewrite inject_Z_mult, pow2_Z by (unfold ez; lia); reflexivity).
      assert (HB : (inject_Z (Zpos my * 2 ^ (ey - ez))
                    == inject_Z (Zpos my) * pow2 (ey - ez))%Q)
        by (rewrite inject_Z_mult, pow2_Z by (unfold ez; lia); reflexivity).
      revert HA HB.
      generalize (Zpos mx * 2 ^ (ex - ez)) (Zpos my * 2 ^ (ey - ez)).
      intros A B HA HB.
      unfold SF2Q. rewrite (pow2_split ex ez), (pow2_split ey ez).
      unfold cond_Zopp.
      destruct sx, sy;
        rewrite inject_Z_sub, ?inject_Z_opp, HA, HB; ring. }
    apply (rounds_Qeq (inject_Z M * pow2 ez)); [exact HM |].
    apply binary_normalize_rounds.
    assert (H0 : (0 <= inject_Z M * pow2 ez)%Q) by (rewrite HM; lra).
    pose proof (pow2_pos ez).
    destruct (Z_lt_le_dec M 0) as [Hneg | Hpos]; [| exact Hpos].
    exfalso. rewrite Zlt_Qlt in Hneg. change (inject_Z 0) with 0%Q in Hneg.
    assert ((- inject_Z M) * pow2 ez > 0)%Q
      by (apply Qmult_lt_0_compat; lra).
    lra.
Qed.

(** ** Comparison *)

Lemma Qcompare_intro (a b : Q) (c : comparison) :
  cmp_holds c a b -> (a ?= b)%Q = c.
Proof.
  destruct c; simpl; intros H.
  - now apply Qeq_alt.
  - now apply Qlt_alt.
  - now apply Qgt_alt.
Qed.

Lemma valid_exponent_lt (s1 s2 : bool) (m1 m2 : positive) (e1 e2 : Z) :
  SFvalid (S754_finite s1 m1 e1) = true ->
  SFvalid (S754_finite s2 m2 e2) = true ->
  e1 < e2 ->
  (inject_Z (Zpos m1) * pow2 e1 < inject_Z (Zpos m2) * pow2 e2)%Q.
Proof.
  intros H1 H2 He.
  destruct (valid_finite_inv _ _ _ H1) as (_ & _ & C1).
  destruct (valid_finite_inv _ _ _ H2) as (_ & _ & C2).
  rewrite fexp_spec in C1, C2.
  destruct (finite_value_bounds m1 e1) as [_ B1].
  destruct (finite_value_bounds m2 e2) as [B2 _].
  eapply Qlt_le_trans; [exact B1 |].
  eapply Qle_trans; [| exact B2]. apply pow2_le. lia.
Qed.

Lemma magnitude_compare (s1 s2 : bool) (m1 m2 : positive) (e1 e2 : Z) :
  SFvalid (S754_finite s1 m1 e1) = true ->
  SFvalid (S754_finite s2 m2 e2) = true ->
  cmp_holds
    match e1 ?= e2 with
    | Lt => Lt
    | Gt => Gt
    | Eq => PosDef.Pos.compare_cont Eq m1 m2
    end
    (inject_Z (Zpos m1) * pow2 e1) (inject_Z (Zpos m2) * pow2 e2).
Proof.
  intros H1 H2. destruct (Z.compare_spec e1 e2) as [He | He | He].
  - subst e2.
    change (PosDef.Pos.compare_cont Eq m1 m2) with (Pos.compare m1 m2).
    pose proof (pow2_pos e1).
    destruct (Pos.compare_spec m1 m2) as [Hm | Hm | Hm]; simpl.
    + subst. reflexivity.
    + apply Qmult_lt_compat_r; [assumption |]. rewrite <- Zlt_Qlt. lia.
    + apply Qmult_lt_compat_r; [assumption |]. rewrite <- Zlt_Qlt. lia.
  - simpl. now apply (valid_exponent_lt s1 s2).
  - simpl. now apply (valid_exponent_lt s2 s1).
Qed.

Lemma SF2Q_neg (m : positive) (e : Z) :
  (SF2Q (S754_finite true m e) == - (inject_Z (Zpos m) * pow2 e))%Q.
Proof.
  simpl. change (Z.neg m) with (- Zpos m). rewrite inject_Z_opp. ring.
Qed.

Lemma SF2Q_pos (m : positive) (e : Z) :
  (SF2Q (S754_finite false m e) == inject_Z (Zpos m) * pow2 e)%Q.
Proof. reflexivity. Qed.

(** Comparing valid finite floats compares their values. *)
Lemma SFcompare_spec (x y : spec_float) :
  SFvalid x = true -> SFvalid y = true ->
  SFfinite x = true -> SFfinite y = true ->
  SFcompare x y = Some (SF2Q x ?= SF2Q y)%Q.
Proof.
  intros Hvx Hvy Hfx Hfy.
  destruct x as [sx|sx| |sx mx ex]; try discriminate;
    destruct y as [sy|sy| |sy my ey]; try discriminate.
  - reflexivity.
  - unfold SFcompare. f_equal. symmetry. apply Qcompare_intro.
    pose proof (SF2Q_finite_sign sy my ey) as Hs.
    change (SF2Q (S754_zero sx)) with 0%Q. destruct sy; exact Hs.
  - unfold SFcompare. f_equal. symmetry. apply Qcompare_intro.
    pose proof (SF2Q_finite_sign sx mx ex) as Hs.
    change (SF2Q (S754_zero sy)) with 0%Q. destruct sx; exact Hs.
  - unfold SFcompare. f_equal. symmetry. apply Qcompare_intro.
    pose proof (finite_value_pos mx ex) as Px.
    pose proof (finite_value_pos my ey) as Py.
    pose proof (magnitude_compare sx sy mx my ex ey Hvx Hvy) as Hc.
    pose proof (SF2Q_neg mx ex) as Nx. pose proof (SF2Q_neg my ey) as Ny.
    destruct sx, sy;
      try change (SF2Q (S754_finite false mx ex))
        with (inject_Z (Zpos mx) * pow2 ex)%Q;
      try change (SF2Q (S754_finite false my ey))
        with (inject_Z (Zpos my) * pow2 ey)%Q.
    + destruct (ex ?= ey); cbn [cmp_holds CompOpp] in Hc |- *; [| lra | lra].
      destruct (PosDef.Pos.compare_cont Eq mx my);
        cbn [cmp_holds CompOpp] in Hc |- *; lra.
    + cbn [cmp_holds]. lra.
    + cbn [cmp_holds]. lra.
    + exact Hc.
Qed.

(** ** The primitive floats *)

Lemma float_valid (x : float) : SFvalid (Prim2SF x) = true.
Proof. apply Prim2SF_valid. Qed.

Lemma float_nonneg (x : float) :
  float_finite x = true -> (0 <= float_value x)%Q ->
  SFnonneg (Prim2SF x) = true.
Proof.
  unfold float_finite, float_value.
  destruct (Prim2SF x) as [s|s| |s m e]; try discriminate; auto.
  intros _ H. pose proof (SF2Q_finite_sign s m e) as Hs.
  destruct s; [exfalso; lra | reflexivity].
Qed.

Lemma float_positive (x : float) :
  float_finite x = true -> (0 < float_value x)%Q ->
  exists m e, Prim2SF x = S754_finite false m e.
Proof.
  unfold float_finite, float_value.
  destruct (Prim2SF x) as [s|s| |s m e]; try discriminate.
  intros _ H. pose proof (SF2Q_finite_sign s m e) as Hs.
  destruct s; [exfalso; lra | eauto].
Qed.

Lemma sub_rounds (x y : float) :
  float_finite x = true -> float_finite y = true ->
  (float_value y <= float_value x)%Q ->
  rounds (float_value x - float_value y) (Prim2SF (x - y)).
Proof.
  intros Hx Hy Hle. rewrite sub_spec.
  apply SFsub_rounds; auto using float_valid.
Qed.

Lemma div_rounds (x y : float) :
  float_finite x = true -> float_finite y = true ->
  (0 <= float_value x)%Q -> (0 < float_value y)%Q ->
  rounds (float_value x / float_value y) (Prim2SF (x / y)).
Proof.
  intros Hx Hy H0 Hpos. rewrite div_spec.
  apply SFdiv_rounds; [apply float_valid | now apply float_nonneg |].
  now apply float_positive.
Qed.

Lemma mul_rounds (x y : float) :
  float_finite x = true -> float_finite y = true ->
  (0 <= float_value x)%Q -> (0 <= float_value y)%Q ->
  rounds (float_value x * float_value y) (Prim2SF (x * y)).
Proof.
  intros Hx Hy H0 H1. rewrite mul_spec.
  apply SFmul_rounds; auto using float_valid, float_nonneg.
Qed.

(** Rounded results of ordered exact values are ordered. *)
Lemma float_rounds_mono (x1 x2 : Q) (r1 r2 : float) :
  (0 <= x1)%Q -> (x1 <= x2)%Q ->
  rounds x1 (Prim2SF r1) -> rounds x2 (Prim2SF r2) ->
  float_finite r2 = true ->
  float_finite r1 = true /\ (float_value r1 <= float_value r2)%Q.
Proof.
  intros H0 Hx R1 R2 Hf.
  apply (rounds_mono x1 x2); auto using float_valid.
Qed.

Lemma float_rounds_nonneg (x : Q) (r : float) :
  rounds x (Prim2SF r) -> float_finite r = true -> (0 <= float_value r)%Q.
Proof.
  intros R Hf. apply SF2Q_nonneg. now apply (rounds_nonneg x).
Qed.

Lemma float_rounds_exact (r : float) :
  float_finite r = true -> (0 <= float_value r)%Q ->
  rounds (float_value r) (Prim2SF r).
Proof.
  intros Hf H0. apply rounds_exact; [apply float_valid |].
  now apply float_nonneg.
Qed.

Lemma float_rounds_representable (x : Q) (r r0 : float) :
  rounds x (Prim2SF r) ->
  float_finite r0 = true -> (0 <= float_value r0)%Q ->
  (x == float_value r0)%Q ->
  float_finite r = true /\ (float_value r == x)%Q.
Proof.
  intros R Hf H0 Hx.
  apply (rounds_representable x _ (Prim2SF r0)); auto using float_valid.
  now apply float_nonneg.
Qed.

Lemma float_compare (x y : float) :
  float_finite x = true -> float_finite y = true ->
  SFcompare (Prim2SF x) (Prim2SF y)
  = Some (float_value x ?= float_value y)%Q.
Proof. intros Hx Hy. apply SFcompare_spec; auto using float_valid. Qed.

Lemma leb_value (x y : float) :
  float_finite x = true -> float_finite y = true ->
  (x <=? y)%float = true <-> (float_value x <= float_value y)%Q.
Proof.
  intros Hx Hy. rewrite FloatAxioms.leb_spec. unfold SFleb.
  rewrite (float_compare x y Hx Hy), Qle_alt.
  destruct (float_value x ?= float_value y)%Q; split; intros H;
    try reflexivity; try discriminate; try congruence.
Qed.

Lemma eqb_value (x y : float) :
  float_finite x = true -> float_finite y = true ->
  (x =? y)%float = true <-> (float_value x == float_value y)%Q.
Proof.
  intros Hx Hy. rewrite FloatAxioms.eqb_spec. unfold SFeqb.
  rewrite (float_compare x y Hx Hy). split; intros H.
  - apply Qeq_alt. destruct (float_value x ?= float_value y)%Q;
      [reflexivity | discriminate | discriminate].
  - apply Qeq_alt in H. rewrite H. reflexivity.
Qed.

Lemma is_nan_finite (x : float) :
  float_finite x = true -> Binary64.is_nan x = false.
Proof.
  intros Hx. unfold Binary64.is_nan.
  assert (H : (x =? x)%float = true)
    by (apply eqb_value; auto; reflexivity).
  rewrite H. reflexivity.
Qed.

(** The C cast of a non-negative finite double is the floor. *)
Lemma to_Z_floor (x : float) :
  float_finite x = true -> (0 <= float_value x)%Q ->
  Binary64.to_Z x = Qfloor (float_value x).
Proof.
  intros Hf H0. pose proof (float_nonneg x Hf H0) as Hn.
  unfold Binary64.to_Z, float_value.
  destruct (Prim2SF x) as [s|s| |[] m e]; try discriminate.
  - reflexivity.
  - simpl SF2Q. simpl cond_Zopp. cbv zeta.
    destruct (Z.leb_spec 0 e) as [He | He].
    + rewrite Z.shiftl_mul_pow2 by lia.
      rewrite pow2_Z, <- inject_Z_mult by lia.
      symmetry. apply Qfloor_Z.
    + rewrite Z.shiftr_div_pow2 by lia.
      symmetry. apply Qfloor_unique.
      * assert (Hp : 0 < 2 ^ (- e)) by (apply Z.pow_pos_nonneg; lia).
        pose proof (Z.mul_div_le (Zpos m) (2 ^ (- e)) Hp) as Hd.
        pose proof (pow2_pos e) as Hpe.
        assert (Hinv : (pow2 (- e) * pow2 e == 1)%Q).
        { rewrite <- pow2_add. replace (- e + e) with 0 by lia. reflexivity. }
        rewrite Zle_Qle, inject_Z_mult, <- pow2_Z in Hd by lia.
        revert Hd Hinv Hpe.
        generalize (pow2 (- e)) (pow2 e)
          (inject_Z (Zpos m `div` 2 ^ (- e))) (inject_Z (Zpos m)).
        intros a b c d Hd Hinv Hpe.
        assert (H1 : (a * c * b <= d * b)%Q)
          by (apply Qmult_le_compat_r; lra).
        assert (H2 : (a * c * b == c * (a * b))%Q) by ring.
        rewrite Hinv in H2. lra.
      * assert (Hp : 0 < 2 ^ (- e)) by (apply Z.pow_pos_nonneg; lia).
        pose proof (Z.mul_succ_div_gt (Zpos m) (2 ^ (- e)) Hp) as Hd.
        pose proof (pow2_pos e) as Hpe.
        assert (Hinv : (pow2 (- e) * pow2 e == 1)%Q).
        { rewrite <- pow2_add. replace (- e + e) with 0 by lia. reflexivity. }
        rewrite Zlt_Qlt, inject_Z_mult, <- pow2_Z in Hd by lia.
        unfold Z.succ in Hd. rewrite inject_Z_plus in Hd.
        change (inject_Z 1) with 1%Q in Hd.
        revert Hd Hinv Hpe.
        generalize (pow2 (- e)) (pow2 e)
          (inject_Z (Zpos m `div` 2 ^ (- e))) (inject_Z (Zpos m)).
        intros a b c d Hd Hinv Hpe.
        assert (H1 : (d * b < a * (c + 1) * b)%Q)
          by (apply Qmult_lt_compat_r; lra).
        assert (H2 : (a * (c + 1) * b == (c + 1) * (a * b))%Q) by ring.
        rewrite Hinv in H2. lra.
Qed.

(** ** Differences, and doubles of equal value *)

Lemma SF2Q_grid (x : spec_float) :
  SFvalid x = true -> exists k, (SF2Q x == inject_Z k * pow2 (-1074))%Q.
Proof.
  intros Hv. destruct x as [s|s| |s m e];
    try (exists 0; simpl; change (inject_Z 0) with 0%Q; ring).
  destruct (valid_finite_inv _ _ _ Hv) as (He & _ & _).
  exists (cond_Zopp s (Zpos m) * 2 ^ (e + 1074)).
  unfold SF2Q. rewrite inject_Z_mult, <- pow2_Z by lia.
  rewrite <- Qmult_assoc, <- pow2_add.
  replace (e + 1074 + -1074) with e by lia. reflexivity.
Qed.

Lemma rounds_positive (x : Q) (r : spec_float) :
  rounds x r -> SFvalid r = true -> SFfinite r = true ->
  (pow2 (-1074) <= x)%Q -> (0 < SF2Q r)%Q.
Proof.
  intros R Hv Hf Hx.
  assert (Hv0 : SFvalid (S754_finite false 1 (-1074)) = true) by reflexivity.
  pose proof (rounds_exact _ Hv0 eq_refl) as R0.
  pose proof (pow2_pos (-1074)) as Hp.
  assert (H1 : (SF2Q (S754_finite false 1 (-1074)) == pow2 (-1074))%Q).
  { unfold SF2Q, cond_Zopp. change (inject_Z 1) with 1%Q. ring. }
  apply (rounds_Qeq _ _ _ H1) in R0.
  destruct (rounds_mono _ _ _ _ (Qlt_le_weak _ _ Hp) Hx R0 R Hv Hf)
    as [_ Hle].
  rewrite H1 in Hle. lra.
Qed.

Lemma rounds_same_value (x : Q) (r1 r2 : spec_float) :
  (0 <= x)%Q -> rounds x r1 -> rounds x r2 ->
  SFfinite r1 = true -> SFfinite r2 = true ->
  (SF2Q r1 == SF2Q r2)%Q.
Proof.
  intros H0 R1 R2 F1 F2.
  destruct (rounds_value _ _ R1 F1) as (E1 & C1 & V1).
  destruct (rounds_value _ _ R2 F2) as (E2 & C2 & V2).
  rewrite V1, V2. now apply rnd_value_unique.
Qed.

Lemma SFcompare_Eq_finite (s1 s2 : bool) (m1 m2 : positive) (e1 e2 : Z) :
  SFcompare (S754_finite s1 m1 e1) (S754_finite s2 m2 e2) = Some Eq ->
  S754_finite s1 m1 e1 = S754_finite s2 m2 e2.
Proof.
  unfold SFcompare. intros H. injection H as H.
  destruct s1, s2; try discriminate;
    destruct (Z.compare_spec e1 e2) as [-> | He | He]; try discriminate.
  - change (PosDef.Pos.compare_cont Eq m1 m2) with (Pos.compare m1 m2) in H.
    destruct (Pos.compare_spec m1 m2) as [-> | Hm | Hm]; try discriminate.
    reflexivity.
  - change (PosDef.Pos.compare_cont Eq m1 m2) with (Pos.compare m1 m2) in H.
    destruct (Pos.compare_spec m1 m2) as [-> | Hm | Hm]; try discriminate.
    reflexivity.
Qed.

(** Two finite doubles with the same non-zero value are the same double. *)
Lemma float_eq_of_value (x y : float) :
  float_finite x = true -> float_finite y = true ->
  (float_value x == float_value y)%Q -> (0 < float_value y)%Q ->
  x = y.
Proof.
  intros Hx Hy Heq Hpos.
  assert (Hpx : (0 < float_value x)%Q) by lra.
  destruct (float_positive x Hx Hpx) as (mx & ex & Ex).
  destruct (float_positive y Hy Hpos) as (my & ey & Ey).
  pose proof (proj2 (eqb_value x y Hx Hy) Heq) as Hb.
  rewrite FloatAxioms.eqb_spec in Hb. unfold SFeqb in Hb.
  apply Prim2SF_inj. rewrite Ex, Ey in Hb |- *.
  apply SFcompare_Eq_finite.
  destruct (SFcompare (S754_finite false mx ex) (S754_finite false my ey))
    as [[]|]; try discriminate. reflexivity.
Qed.

Lemma float_sub_positive (x y : float) :
  float_finite x = true -> float_finite y = true ->
  (float_value y < float_value x)%Q -> float_finite (x - y) = true ->
  (0 < float_value (x - y))%Q.
Proof.
  intros Hx Hy Hlt Hf.
  pose proof (sub_rounds x y Hx Hy (Qlt_le_weak _ _ Hlt)) as R.
  apply (rounds_positive _ _ R (float_valid _) Hf).
  destruct (SF2Q_grid _ (float_valid x)) as (kx & Kx).
  destruct (SF2Q_grid _ (float_valid y)) as (ky & Ky).
  unfold float_value in *. rewrite Kx, Ky in Hlt |- *.
  pose proof (pow2_pos (-1074)) as Hp.
  assert (Hk : ky < kx).
  { destruct (Z_lt_le_dec ky kx) as [Hk | Hk]; [exact Hk |].
    exfalso. rewrite Zle_Qle in Hk.
    assert ((inject_Z kx * pow2 (-1074) <= inject_Z ky * pow2 (-1074))%Q)
      by (apply Qmult_le_compat_r; lra).
    lra. }
  assert (Hk1 : (inject_Z ky + 1 <= inject_Z kx)%Q).
  { change 1%Q with (inject_Z 1). rewrite <- inject_Z_plus, <- Zle_Qle. lia. }
  assert (((inject_Z ky + 1) * pow2 (-1074) <= inject_Z kx * pow2 (-1074))%Q)
    by (apply Qmult_le_compat_r; lra).
  lra.
Qed.

(** * The normalizer and the quantizer in binary64 *)

(** From here on float64 is binary64: the primitive floats, specified by
    [SpecFloat]'s IEEE 754 operations. *)

Lemma Qtrunc_nonneg (q : Q) : (0 <= q)%Q -> Qtrunc q = Qfloor q.
Proof.
  destruct q as [n d]. unfold Qle, Qtrunc, Qfloor. simpl. intros Hn.
  apply Z.quot_div_nonneg; lia.
Qed.

Lemma Qfloor_range (q : Q) (lo hi : Z) :
  (inject_Z lo <= q)%Q -> (q <= inject_Z hi)%Q -> lo <= Qfloor q <= hi.
Proof.
  intros Hlo Hhi. split.
  - rewrite <- (Qfloor_Z lo). now apply Qfloor_resp_le.
  - rewrite <- (Qfloor_Z hi). now apply Qfloor_resp_le.
Qed.

Lemma flat_np_map {A B} (f : A -> B) (a : ndarray A) :
  flat (np_map f a) = List.map f (flat a).
Proof. unfold flat, np_map. simpl. symmetry. apply concat_map. Qed.

Lemma Forall2_map_nested {A B} (R : A -> B -> Prop) (f : A -> B)
    (l : list (list A)) :
  (forall v, In v (concat l) -> R v (f v)) ->
  Forall2 (Forall2 R) l (List.map (List.map f) l).
Proof.
  induction l as [|row l IH]; intros HR; simpl; constructor.
  - assert (Hrow : forall v, In v row -> R v (f v)).
    { intros v Hv. apply HR. simpl. apply in_or_app. auto. }
    clear HR IH. induction row as [|x row IHr]; simpl; constructor.
    + apply Hrow. simpl. auto.
    + apply IHr. intros v Hv. apply Hrow. simpl. auto.
  - apply IH. intros v Hv. apply HR. simpl. apply in_or_app. auto.
Qed.

Lemma quantize_byte {F : Type} `{Float64 F} (v : F) : 0 <= quantize v <= 255.
Proof.
  unfold quantize, astype_uint8.
  pose proof (Z.mod_pos_bound (ftrunc (fmul v (of_int 255))) 256). lia.
Qed.

(** ** The constants of lines 28 to 36 *)

Lemma of_int_0 : (of_int 0 : float) = 0%float.
Proof. vm_compute. reflexivity. Qed.

Lemma of_int_255 : (of_int 255 : float) = 255%float.
Proof. vm_compute. reflexivity. Qed.

Lemma float_0_spec : float_finite 0 = true /\ (float_value 0 == 0)%Q.
Proof. split; vm_compute; reflexivity. Qed.

Lemma float_1_spec : float_finite 1 = true /\ (float_value 1 == 1)%Q.
Proof. split; vm_compute; reflexivity. Qed.

Lemma float_255_spec : float_finite 255 = true /\ (float_value 255 == 255)%Q.
Proof. split; vm_compute; reflexivity. Qed.

(** ** [np.min] and [np.max] *)

Lemma fmin_spec (a b : float) :
  float_finite a = true -> float_finite b = true ->
  (fmin a b = a \/ fmin a b = b) /\
  (float_value (fmin a b) <= float_value a)%Q /\
  (float_value (fmin a b) <= float_value b)%Q.
Proof.
  intros Ha Hb. change (fmin a b) with (Binary64.minimum a b).
  unfold Binary64.minimum.
  rewrite (is_nan_finite a Ha), (is_nan_finite b Hb).
  destruct (a <=? b)%float eqn:Hle.
  - apply leb_value in Hle; auto.
    split; [auto |]. split; [apply Qle_refl | exact Hle].
  - assert (Hn : ~ (float_value a <= float_value b)%Q).
    { intros Hc. apply leb_value in Hc; auto. congruence. }
    split; [auto |]. split; [| apply Qle_refl].
    apply Qlt_le_weak, Qnot_le_lt, Hn.
Qed.

Lemma fmax_spec (a b : float) :
  float_finite a = true -> float_finite b = true ->
  (fmax a b = a \/ fmax a b = b) /\
  (float_value a <= float_value (fmax a b))%Q /\
  (float_value b <= float_value (fmax a b))%Q.
Proof.
  intros Ha Hb. change (fmax a b) with (Binary64.maximum a b).
  unfold Binary64.maximum.
  rewrite (is_nan_finite a Ha), (is_nan_finite b Hb).
  destruct (b <=? a)%float eqn:Hle.
  - apply leb_value in Hle; auto.
    split; [auto |]. split; [apply Qle_refl | exact Hle].
  - assert (Hn : ~ (float_value b <= float_value a)%Q).
    { intros Hc. apply leb_value in Hc; auto. congruence. }
    split; [auto |]. split; [| apply Qle_refl].
    apply Qlt_le_weak, Qnot_le_lt, Hn.
Qed.

Lemma fold_fmin_spec (xs : list float) (x : float) :
  Forall (fun v => float_finite v = true) (x :: xs) ->
  In (fold_left fmin xs x) (x :: xs) /\
  forall v, In v (x :: xs) ->
    (float_value (fold_left fmin xs x) <= float_value v)%Q.
Proof.
  revert x. induction xs as [|y ys IH]; intros x Hall; cbn [fold_left].
  - split; [now left |]. intros v [<- | []]. apply Qle_refl.
  - apply Forall_cons in Hall as [Hx Hrest].
    apply Forall_cons in Hrest as [Hy Hys].
    destruct (fmin_spec x y Hx Hy) as (Hsel & Hlx & Hly).
    assert (Hm : float_finite (fmin x y) = true)
      by (destruct Hsel as [-> | ->]; assumption).
    destruct (IH (fmin x y)) as [Hin Hle]; [now constructor |].
    split.
    + destruct Hin as [Hin | Hin]; [| right; right; exact Hin].
      rewrite <- Hin.
      destruct Hsel as [Hs | Hs]; rewrite Hs; [now left | right; now left].
    + intros v [<- | [<- | Hv]].
      * eapply Qle_trans; [apply Hle; now left | exact Hlx].
      * eapply Qle_trans; [apply Hle; now left | exact Hly].
      * apply Hle. now right.
Qed.

Lemma fold_fmax_spec (xs : list float) (x : float) :
  Forall (fun v => float_finite v = true) (x :: xs) ->
  In (fold_left fmax xs x) (x :: xs) /\
  forall v, In v (x :: xs) ->
    (float_value v <= float_value (fold_left fmax xs x))%Q.
Proof.
  revert x. induction xs as [|y ys IH]; intros x Hall; cbn [fold_left].
  - split; [now left |]. intros v [<- | []]. apply Qle_refl.
  - apply Forall_cons in Hall as [Hx Hrest].
    apply Forall_cons in Hrest as [Hy Hys].
    destruct (fmax_spec x y Hx Hy) as (Hsel & Hlx & Hly).
    assert (Hm : float_finite (fmax x y) = true)
      by (destruct Hsel as [-> | ->]; assumption).
    destruct (IH (fmax x y)) as [Hin Hle]; [now constructor |].
    split.
    + destruct Hin as [Hin | Hin]; [| right; right; exact Hin].
      rewrite <- Hin.
      destruct Hsel as [Hs | Hs]; rewrite Hs; [now left | right; now left].
    + intros v [<- | [<- | Hv]].
      * eapply Qle_trans; [exact Hlx | apply Hle; now left].
      * eapply Qle_trans; [exact Hly | apply Hle; now left].
      * apply Hle. now right.
Qed.

Lemma np_min_spec (a : ndarray float) (m : float) :
  all_finite a -> np_min a = Ok m -> field_min a m.
Proof.
  unfold all_finite, np_min, field_min.
  destruct (flat a) as [|x xs]; [discriminate |].
  intros Hall [= <-]. now apply fold_fmin_spec.
Qed.

Lemma np_max_spec (a : ndarray float) (m : float) :
  all_finite a -> np_max a = Ok m -> field_max a m.
Proof.
  unfold all_finite, np_max, field_max.
  destruct (flat a) as [|x xs]; [discriminate |].
  intros Hall [= <-]. now apply fold_fmax_spec.
Qed.

Lemma entry_finite (a : ndarray float) (v : float) :
  all_finite a -> In v (flat a) -> float_finite v = true.
Proof. intros Hall Hv. exact (proj1 (List.Forall_forall _ _) Hall v Hv). Qed.

Lemma normalize_world_unfold (world : ndarray float) (mn mx : float) :
  np_min world = Ok mn -> np_max world = Ok mx ->
  normalize_world world =
    if (mx =? mn)%float then Ok (np_zeros_like world)
    else Ok (np_map (fun v => (v - mn) / (mx - mn))%float world).
Proof. intros Hmn Hmx. unfold normalize_world. now rewrite Hmn, Hmx. Qed.

(** The test [max_val == min_val] on the extremes of a field of numbers. *)
Lemma extremes_eqb (a : ndarray float) (mn mx : float) :
  all_finite a -> field_min a mn -> field_max a mx ->
  ((mx =? mn)%float = true <-> degenerate a) /\
  ((mx =? mn)%float = true <-> (float_value mx == float_value mn)%Q) /\
  ((mx =? mn)%float = false -> (float_value mn < float_value mx)%Q).
Proof.
  intros Hall [Hin1 Hle1] [Hin2 Hle2].
  pose proof (entry_finite a mn Hall Hin1) as Hfmn.
  pose proof (entry_finite a mx Hall Hin2) as Hfmx.
  pose proof (eqb_value mx mn Hfmx Hfmn) as Heq.
  split; [| split].
  - rewrite Heq. split.
    + intros He u v Hu Hv.
      pose proof (Hle1 u Hu). pose proof (Hle2 u Hu).
      pose proof (Hle1 v Hv). pose proof (Hle2 v Hv). lra.
    + intros Hd. now apply Hd.
  - exact Heq.
  - intros Hb. pose proof (Hle1 mx Hin2) as Hle.
    destruct (Qlt_le_dec (float_value mn) (float_value mx)) as [Hlt | Hge];
      [exact Hlt |].
    exfalso. assert (He : (float_value mx == float_value mn)%Q)
      by (apply Qle_antisym; assumption).
    apply Heq in He. congruence.
Qed.

(** ** One entry through lines 31 to 33 *)

(** The numerator [v - min_val] of an entry between the extremes. *)
Lemma numerator_spec (mn mx v : float) :
  float_finite mn = true -> float_finite mx = true -> float_finite v = true ->
  (float_value mn <= float_value v)%Q -> (float_value v <= float_value mx)%Q ->
  float_finite (mx - mn) = true ->
  rounds (float_value v - float_value mn) (Prim2SF (v - mn)) /\
  float_finite (v - mn) = true /\
  (0 <= float_value (v - mn) <= float_value (mx - mn))%Q.
Proof.
  intros Hfmn Hfmx Hfv Hlo Hhi Hfd.
  assert (Hmm : (float_value mn <= float_value mx)%Q) by lra.
  pose proof (sub_rounds v mn Hfv Hfmn Hlo) as Ra.
  pose proof (sub_rounds mx mn Hfmx Hfmn Hmm) as Rd.
  destruct (float_rounds_mono (float_value v - float_value mn)
              (float_value mx - float_value mn) (v - mn) (mx - mn))
    as [Hfa Hle]; auto; try lra.
  split; [exact Ra |]. split; [exact Hfa |].
  split; [now apply (float_rounds_nonneg _ _ Ra) | exact Hle].
Qed.

Lemma numerator_mono (mn u v : float) :
  float_finite mn = true -> float_finite u = true -> float_finite v = true ->
  (float_value mn <= float_value u)%Q -> (float_value u <= float_value v)%Q ->
  float_finite (v - mn) = true ->
  (float_value (u - mn) <= float_value (v - mn))%Q.
Proof.
  intros Hfmn Hfu Hfv Hlo Huv Hfd.
  assert (Hmv : (float_value mn <= float_value v)%Q) by lra.
  pose proof (sub_rounds u mn Hfu Hfmn Hlo) as Ru.
  pose proof (sub_rounds v mn Hfv Hfmn Hmv) as Rv.
  destruct (float_rounds_mono (float_value u - float_value mn)
              (float_value v - float_value mn) (u - mn) (v - mn))
    as [_ Hle]; auto; lra.
Qed.

(** The quotient of a numerator [a] of [0, d] by the range [d]. *)
Lemma quotient_spec (a d : float) :
  float_finite a = true -> float_finite d = true ->
  (0 <= float_value a)%Q -> (float_value a <= float_value d)%Q ->
  (0 < float_value d)%Q ->
  rounds (float_value a / float_value d) (Prim2SF (a / d)) /\
  float_finite (a / d) = true /\
  (0 <= float_value (a / d) <= 1)%Q.
Proof.
  intros Hfa Hfd Ha0 Had Hd.
  pose proof (div_rounds a d Hfa Hfd Ha0 Hd) as Rq.
  destruct float_1_spec as [Hf1 Hv1].
  assert (R1 : rounds 1 (Prim2SF 1)).
  { apply (rounds_Qeq (float_value 1)); [exact Hv1 |].
    apply float_rounds_exact; [exact Hf1 | rewrite Hv1; lra]. }
  assert (Hq0 : (0 <= float_value a / float_value d)%Q).
  { apply Qle_shift_div_l; [exact Hd | lra]. }
  assert (Hq1 : (float_value a / float_value d <= 1)%Q).
  { apply Qle_shift_div_r; [exact Hd | lra]. }
  destruct (float_rounds_mono _ _ _ _ Hq0 Hq1 Rq R1 Hf1) as [Hfq Hle].
  split; [exact Rq |]. split; [exact Hfq |].
  split; [now apply (float_rounds_nonneg _ _ Rq) | lra].
Qed.

Lemma quotient_mono (a b d : float) :
  float_finite a = true -> float_finite b = true -> float_finite d = true ->
  (0 <= float_value a)%Q -> (float_value a <= float_value b)%Q ->
  (float_value b <= float_value d)%Q -> (0 < float_value d)%Q ->
  (float_value (a / d) <= float_value (b / d))%Q.
Proof.
  intros Hfa Hfb Hfd Ha0 Hab Hbd Hd.
  assert (Hb0 : (0 <= float_value b)%Q) by lra.
  assert (Had : (float_value a <= float_value d)%Q) by lra.
  destruct (quotient_spec a d Hfa Hfd Ha0 Had Hd) as (Ra & _ & _).
  destruct (quotient_spec b d Hfb Hfd Hb0 Hbd Hd) as (Rb & Hfq & _).
  destruct (float_rounds_mono (float_value a / float_value d)
              (float_value b / float_value d) (a / d) (b / d))
    as [_ Hle]; auto.
  - apply Qle_shift_div_l; [exact Hd | lra].
  - unfold Qdiv. apply Qmult_le_compat_r; [exact Hab |].
    apply Qlt_le_weak, Qinv_lt_0_compat, Hd.
Qed.

Lemma float_value_zero (x : float) (s : bool) :
  Prim2SF x = S754_zero s -> (float_value x == 0)%Q.
Proof. unfold float_value. intros ->. reflexivity. Qed.

(** What lines 31 to 33 do to an entry between the extremes when the
    range [max_val - min_val] is a number. *)
Lemma normalize_entry (mn mx v : float) :
  float_finite mn = true -> float_finite mx = true -> float_finite v = true ->
  (float_value mn <= float_value v)%Q -> (float_value v <= float_value mx)%Q ->
  (float_value mn < float_value mx)%Q ->
  float_finite (mx - mn) = true ->
  let r := ((v - mn) / (mx - mn))%float in
  float_finite r = true /\ (0 <= float_value r <= 1)%Q /\
  ((float_value v == float_value mn)%Q -> (float_value r == 0)%Q) /\
  ((float_value v == float_value mx)%Q -> r = 1%float).
Proof.
  intros Hfmn Hfmx Hfv Hlo Hhi Hlt Hfd r.
  destruct (numerator_spec mn mx v Hfmn Hfmx Hfv Hlo Hhi Hfd)
    as (Ra & Hfa & Ha0 & Had).
  pose proof (float_sub_positive mx mn Hfmx Hfmn Hlt Hfd) as Hd.
  destruct (quotient_spec (v - mn) (mx - mn) Hfa Hfd Ha0 Had Hd)
    as (Rq & Hfq & Hq).
  split; [exact Hfq |]. split; [exact Hq |]. split.
  - intros Heq.
    assert (Hz : (float_value v - float_value mn == 0)%Q) by lra.
    apply (rounds_Qeq _ _ _ Hz) in Ra.
    destruct (rounds_0 _ Ra) as (s & Hs).
    pose proof (float_value_zero _ _ Hs) as Hva.
    assert (Hz' : (float_value (v - mn) / float_value (mx - mn) == 0)%Q)
      by (rewrite Hva; unfold Qdiv; ring).
    apply (rounds_Qeq _ _ _ Hz') in Rq.
    destruct (rounds_0 _ Rq) as (s' & Hs').
    exact (float_value_zero _ _ Hs').
  - intros Heq.
    assert (Hmm : (float_value mn <= float_value mx)%Q) by lra.
    pose proof (sub_rounds mx mn Hfmx Hfmn Hmm) as Rd.
    assert (Hsame : (float_value v - float_value mn
                     == float_value mx - float_value mn)%Q) by lra.
    apply (rounds_Qeq _ _ _ Hsame) in Ra.
    assert (Hval : (float_value (v - mn) == float_value (mx - mn))%Q).
    { apply (rounds_same_value (float_value mx - float_value mn));
        auto; lra. }
    destruct float_1_spec as [Hf1 Hv1].
    assert (Hone : (float_value (v - mn) / float_value (mx - mn)
                    == float_value 1)%Q).
    { rewrite Hval, Hv1. field. lra. }
    destruct (float_rounds_representable _ _ 1%float Rq Hf1) as [_ Hvq];
      [rewrite Hv1; lra | exact Hone |].
    apply float_eq_of_value; auto; [| rewrite Hv1; lra].
    fold r in Hvq. rewrite Hvq. exact Hone.
Qed.

(** The normalized values keep the order of the raw ones. *)
Lemma normalize_entry_mono (mn mx u v : float) :
  float_finite mn = true -> float_finite mx = true ->
  float_finite u = true -> float_finite v = true ->
  (float_value mn <= float_value u)%Q -> (float_value u <= float_value v)%Q ->
  (float_value v <= float_value mx)%Q ->
  (float_value mn < float_value mx)%Q ->
  float_finite (mx - mn) = true ->
  (float_value ((u - mn) / (mx - mn)) <= float_value ((v - mn) / (mx - mn)))%Q.
Proof.
  intros Hfmn Hfmx Hfu Hfv Hlo Huv Hhi Hlt Hfd.
  assert (Hmv : (float_value mn <= float_value v)%Q) by lra.
  assert (Hum : (float_value u <= float_value mx)%Q) by lra.
  destruct (numerator_spec mn mx u Hfmn Hfmx Hfu Hlo Hum Hfd)
    as (_ & Hfa & Ha0 & _).
  destruct (numerator_spec mn mx v Hfmn Hfmx Hfv Hmv Hhi Hfd)
    as (_ & Hfb & _ & Hbd).
  pose proof (float_sub_positive mx mn Hfmx Hfmn Hlt Hfd) as Hd.
  apply quotient_mono; auto.
  apply numerator_mono; auto.
Qed.

(** ** One entry through line 36 *)

Lemma quantize_unfold (v : float) :
  quantize v = Binary64.to_Z (v * 255)%float mod 256.
Proof.
  change (quantize v) with (Binary64.to_Z (v * of_int 255)%float mod 256).
  now rewrite of_int_255.
Qed.

Lemma product_spec (v : float) :
  float_finite v = true -> (0 <= float_value v <= 1)%Q ->
  rounds (float_value v * 255) (Prim2SF (v * 255)) /\
  float_finite (v * 255) = true /\
  (0 <= float_value (v * 255) <= 255)%Q.
Proof.
  intros Hfv [H0 H1]. destruct float_255_spec as [Hf Hv].
  assert (Rp : rounds (float_value v * 255) (Prim2SF (v * 255))).
  { apply (rounds_Qeq (float_value v * float_value 255));
      [rewrite Hv; reflexivity |].
    apply mul_rounds; auto. rewrite Hv. lra. }
  assert (R255 : rounds 255 (Prim2SF 255)).
  { apply (rounds_Qeq (float_value 255)); [exact Hv |].
    apply float_rounds_exact; [exact Hf | rewrite Hv; lra]. }
  destruct (float_rounds_mono (float_value v * 255) 255 (v * 255) 255)
    as [Hfp Hle]; auto; try lra.
  split; [exact Rp |]. split; [exact Hfp |].
  split; [now apply (float_rounds_nonneg _ _ Rp) | lra].
Qed.

(** Line 36 on a value of [0,1]: the floor of the product, a byte. *)
Lemma quantize_floor (v : float) :
  float_finite v = true -> (0 <= float_value v <= 1)%Q ->
  quantize v = Qfloor (float_value (v * 255)) /\ 0 <= quantize v <= 255.
Proof.
  intros Hfv Hv. destruct (product_spec v Hfv Hv) as (_ & Hfp & Hp0 & Hp1).
  rewrite quantize_unfold, (to_Z_floor _ Hfp Hp0).
  assert (Hr : 0 <= Qfloor (float_value (v * 255)) <= 255)
    by (apply Qfloor_range; assumption).
  rewrite Z.mod_small by lia. split; [reflexivity | exact Hr].
Qed.

Lemma quantize_mono (u v : float) :
  float_finite u = true -> float_finite v = true ->
  (0 <= float_value u)%Q -> (float_value u <= float_value v)%Q ->
  (float_value v <= 1)%Q ->
  quantize u <= quantize v.
Proof.
  intros Hfu Hfv H0 Huv H1.
  assert (Hu : (0 <= float_value u <= 1)%Q) by (split; lra).
  assert (Hv : (0 <= float_value v <= 1)%Q) by (split; lra).
  destruct (quantize_floor u Hfu Hu) as [-> _].
  destruct (quantize_floor v Hfv Hv) as [-> _].
  destruct (product_spec u Hfu Hu) as (Ru & _ & _).
  destruct (product_spec v Hfv Hv) as (Rv & Hfp & _).
  apply Qfloor_resp_le.
  destruct (float_rounds_mono (float_value u * 255) (float_value v * 255)
              (u * 255) (v * 255)) as [_ Hle]; auto; lra.
Qed.

Lemma quantize_zero (v : float) :
  float_finite v = true -> (float_value v == 0)%Q -> quantize v = 0.
Proof.
  intros Hfv Hz.
  assert (Hv : (0 <= float_value v <= 1)%Q) by (rewrite Hz; split; lra).
  destruct (quantize_floor v Hfv Hv) as [-> _].
  destruct (product_spec v Hfv Hv) as (Rp & _ & _).
  assert (Hz' : (float_value v * 255 == 0)%Q) by (rewrite Hz; ring).
  apply (rounds_Qeq _ _ _ Hz') in Rp.
  destruct (rounds_0 _ Rp) as (s & Hs).
  rewrite (Qfloor_comp _ _ (float_value_zero _ _ Hs)). reflexivity.
Qed.

Lemma quantize_one : quantize 1%float = 255.
Proof. vm_compute. reflexivity. Qed.

(** ** The quantizer *)

(** C3.  On a normalized value the quantizer multiplies by 255 in
    binary64 and drops the fraction of the product: with [t] the double
    [v * 255], which is the exact product rounded to the nearest double,
    the byte [n] is the integer with [n <= t < n + 1], the truncation of
    [t] toward zero and never [t] rounded up; [t] is a number of [0, 255],
    so the cast to uint8 wraps nothing.  1.0 gives 255 and 0.0 gives 0;
    the largest double below 1.0 gives 254; and a double just below 1/255
    whose product rounds to 1.0 gives 1. *)
Theorem C3_quantizer_truncates (v : float) :
  float_finite v = true -> (0 <= float_value v <= 1)%Q ->
  let t := (v * 255)%float in
  rounds (float_value v * 255) (Prim2SF t) /\
  float_finite t = true /\
  quantize v = Qtrunc (float_value t) /\
  quantize v = Qfloor (float_value t) /\
  0 <= quantize v <= 255 /\
  (inject_Z (quantize v) <= float_value t)%Q /\
  (float_value t < inject_Z (quantize v) + 1)%Q /\
  quantize 1%float = 255 /\ quantize 0%float = 0 /\
  quantize 0x1.fffffffffffffp-1%float = 254 /\
  quantize 0x1.010101010101p-8%float = 1.
Proof.
  intros Hfv Hv t.
  destruct (product_spec v Hfv Hv) as (Rp & Hfp & Hp0 & Hp1).
  destruct (quantize_floor v Hfv Hv) as [Hq Hb].
  fold t in Rp, Hfp, Hp0, Hp1, Hq.
  split; [exact Rp |]. split; [exact Hfp |].
  split; [rewrite (Qtrunc_nonneg _ Hp0); exact Hq |].
  split; [exact Hq |]. split; [exact Hb |].
  rewrite Hq. split; [apply Qfloor_le |].
  split.
  - pose proof (Qlt_floor (float_value t)) as Hlt.
    rewrite inject_Z_plus in Hlt. exact Hlt.
  - repeat split; vm_compute; reflexivity.
Qed.

Lemma C3_quantizer_truncates_witness :
  float_finite 0x1.fffffffffffffp-1 = true /\
  (0 <= float_value 0x1.fffffffffffffp-1 <= 1)%Q /\
  quantize 0x1.fffffffffffffp-1%float
  = Qtrunc (float_value (0x1.fffffffffffffp-1 * 255)).
Proof.
  assert (Hf : float_finite 0x1.fffffffffffffp-1 = true) by reflexivity.
  assert (Hv : (0 <= float_value 0x1.fffffffffffffp-1 <= 1)%Q)
    by (split; vm_compute; discriminate).
  split; [exact Hf |]. split; [exact Hv |].
  exact (proj1 (proj2 (proj2
           (C3_quantizer_truncates 0x1.fffffffffffffp-1%float Hf Hv)))).
Defined.

(** C4, as stated, fails: 0.5 is a normalized value, 0.5 * 255 = 127.5
    rounds to 128 and the code stores 127, in exact arithmetic and in
    binary64; so does the field [[0, 1], [2, 2]] after normalization. *)
Lemma C4_rounding_counterexample :
  (0 <= 1 # 2 <= 1)%Q /\
  spec_round ((1 # 2) * 255) = 128 /\
  quantize (1 # 2)%Q = 127 /\
  quantize 0.5%float = 127 /\
  exists nw : ndarray Q,
    normalize_world (mk_ndarray (2, 2)%nat [[0; 1]; [2; 2]]%Q) = Ok nw /\
    data (to_img_array nw) = [[0; 127]; [255; 255]] /\
    data (np_map (fun v => spec_round (v * 255)) nw) = [[0; 128]; [255; 255]].
Proof.
  split; [split; discriminate |].
  repeat split; try (vm_compute; reflexivity).
  eexists. repeat split.
Qed.

(** C4, amended.  A pixel is the floor of the double [v * 255]; it is
    that product rounded when the fraction dropped is below one half (or
    is one half and the floor is even), and one less than the rounded
    product otherwise. *)
Theorem C4_pixel_is_floor_not_round (v : float) :
  float_finite v = true -> (0 <= float_value v <= 1)%Q ->
  let t := float_value (v * 255) in
  let n := quantize v in
  n = Qfloor t /\
  ((t - inject_Z n < 1 # 2)%Q -> n = spec_round t) /\
  ((1 # 2 < t - inject_Z n)%Q -> n = spec_round t - 1) /\
  ((t - inject_Z n == 1 # 2)%Q ->
     spec_round t = if Z.even n then n else n + 1).
Proof.
  intros Hfv Hv t n. destruct (quantize_floor v Hfv Hv) as [Hq _].
  fold n in Hq. fold t in Hq. split; [exact Hq |].
  unfold spec_round. rewrite <- Hq.
  destruct (Qcompare_spec (t - inject_Z n) (1 # 2)) as [He | Hl | Hg];
    repeat split; intros Hyp; try reflexivity; try lia; exfalso; lra.
Qed.

Lemma C4_pixel_is_floor_not_round_witness :
  float_finite 0.75 = true /\ (0 <= float_value 0.75 <= 1)%Q /\
  quantize 0.75%float = Qfloor (float_value (0.75 * 255)) /\
  quantize 0.75%float = 191 /\
  spec_round (float_value (0.75 * 255)) = 191.
Proof.
  assert (Hf : float_finite 0.75 = true) by reflexivity.
  assert (Hv : (0 <= float_value 0.75 <= 1)%Q)
    by (split; vm_compute; discriminate).
  split; [exact Hf |]. split; [exact Hv |].
  split; [exact (proj1 (C4_pixel_is_floor_not_round 0.75%float Hf Hv)) |].
  split; vm_compute; reflexivity.
Defined.

(** ** The normalizer *)

(** C2, as stated, fails.  The entries -1e308, 1e308, 0, 0 are numbers
    and the maximum differs from the minimum, but [max - min] overflows to
    infinity: the maximum is mapped to [inf / inf], which is NaN, neither
    1.0 nor a value of [0, 1]. *)
Lemma C2_overflow_counterexample :
  all_finite overflow_world /\
  np_min overflow_world = Ok (- huge)%float /\
  np_max overflow_world = Ok huge /\
  ~ (float_value huge == float_value (- huge))%Q /\
  (huge - - huge)%float = infinity /\
  normalize_world overflow_world
  = Ok (mk_ndarray (2, 2)%nat [[0; nan]; [0; 0]]%float) /\
  ((huge - - huge) / (huge - - huge) =? 1)%float = false /\
  (0 <=? nan)%float = false /\ (nan <=? 1)%float = false.
Proof.
  split; [repeat constructor |].
  split; [vm_compute; reflexivity |].
  split; [vm_compute; reflexivity |].
  split; [vm_compute; discriminate |].
  repeat split; vm_compute; reflexivity.
Qed.

(** C2, amended.  For a height field of numbers, [mn] and [mx] being what
    [np.min] and [np.max] return: they are the least and the greatest
    entry; when they are equal the normalizer returns zeros in the shape
    of the field; otherwise it returns, in the same shape, the double
    [(v - mn) / (mx - mn)] for every entry [v], and when [mx - mn] does
    not overflow this is a number of [0, 1] that is zero where [v] is the
    minimum and is the double 1.0 where [v] is the maximum. *)
Theorem C2_normalizer (world : ndarray float) (mn mx : float) :
  all_finite world -> np_min world = Ok mn -> np_max world = Ok mx ->
  field_min world mn /\ field_max world mx /\
  ((float_value mx == float_value mn)%Q ->
     normalize_world world = Ok (np_zeros_like world) /\
     shape (np_zeros_like world) = shape world /\
     Forall2 (Forall2 (fun _ r => r = 0%float))
       (data world) (data (np_zeros_like world))) /\
  (~ (float_value mx == float_value mn)%Q ->
     exists nw,
       normalize_world world = Ok nw /\
       shape nw = shape world /\
       Forall2 (Forall2 (fun v r =>
           r = ((v - mn) / (mx - mn))%float /\
           (float_finite (mx - mn) = true ->
              float_finite r = true /\ (0 <= float_value r <= 1)%Q /\
              ((float_value v == float_value mn)%Q ->
                 (float_value r == 0)%Q) /\
              ((float_value v == float_value mx)%Q -> r = 1%float))))
         (data world) (data nw)).
Proof.
  intros Hall Hmn Hmx.
  pose proof (np_min_spec _ _ Hall Hmn) as Hmin.
  pose proof (np_max_spec _ _ Hall Hmx) as Hmax.
  destruct (extremes_eqb world mn mx Hall Hmin Hmax) as (_ & Heq & Hlt).
  split; [exact Hmin |]. split; [exact Hmax |].
  rewrite (normalize_world_unfold world mn mx Hmn Hmx).
  split.
  - intros He. apply Heq in He. rewrite He. repeat split.
    apply Forall2_map_nested. intros v _. exact of_int_0.
  - intros Hne.
    assert (Hb : (mx =? mn)%float = false).
    { apply not_true_is_false. intros Hb. apply Hne, Heq, Hb. }
    rewrite Hb. eexists. split; [reflexivity |]. split; [reflexivity |].
    apply Forall2_map_nested. intros v Hv. split; [reflexivity |].
    intros Hfd. destruct Hmin as [Hin1 Hle1]. destruct Hmax as [Hin2 Hle2].
    apply normalize_entry; eauto using entry_finite.
Qed.

Lemma C2_normalizer_witness :
  let world := mk_ndarray (2, 2)%nat [[0.5; -1]; [3; 0.25]]%float in
  all_finite world /\
  np_min world = Ok (-1)%float /\ np_max world = Ok 3%float /\
  field_min world (-1)%float /\ field_max world 3%float /\
  normalize_world world
  = Ok (mk_ndarray (2, 2)%nat [[0.375; 0]; [1; 0.3125]]%float).
Proof.
  intros world.
  assert (Hall : all_finite world) by (repeat constructor).
  assert (Hmn : np_min world = Ok (-1)%float) by (vm_compute; reflexivity).
  assert (Hmx : np_max world = Ok 3%float) by (vm_compute; reflexivity).
  split; [exact Hall |]. split; [exact Hmn |]. split; [exact Hmx |].
  destruct (C2_normalizer world _ _ Hall Hmn Hmx) as (Hmin & Hmax & _).
  split; [exact Hmin |]. split; [exact Hmax |].
  vm_compute. reflexivity.
Defined.

(** ** The bytes of the image *)

Lemma quantize_of_int_0 : quantize (of_int 0 : float) = 0.
Proof. vm_compute. reflexivity. Qed.

Lemma finite_range_extremes (a : ndarray float) (mn mx : float) :
  finite_range a -> field_min a mn -> field_max a mx ->
  float_finite (mx - mn) = true.
Proof. intros Hr [Hin1 _] [Hin2 _]. now apply Hr. Qed.

(** C5, as stated, fails.  With a primitive whose samples are -1e308,
    1e308, 0 and 0 the height field is made of numbers and is not flat,
    yet every pixel of the image is 0 and none is 255: the range
    overflows. *)
Lemma C5_overflow_counterexample :
  texture_body huge_noise tiny64 empty_world
  = (Ok (overflow_world,
         mk_ndarray (2, 2)%nat [[0; 0]; [0; 0]],
         mk_Image (2, 2)%nat [[0; 0]; [0; 0]]), empty_world) /\
  all_finite overflow_world /\ ~ degenerate overflow_world /\
  ~ In 255 (concat [[0; 0]; [0; 0]]).
Proof.
  split; [vm_compute; reflexivity |].
  split; [repeat constructor |].
  split.
  - intros Hd.
    assert (He : (float_value (- huge) == float_value huge)%Q)
      by (apply Hd; simpl; auto).
    vm_compute in He. discriminate.
  - simpl. intros [H | [H | [H | [H | []]]]]; discriminate.
Qed.

Section Bytes.
Variable pnoise2 :
  float -> float -> Z -> float -> float -> Z -> Z -> Z -> Exc float.

(** C5, amended.  In every image the function computes, each pixel is a
    byte; when the height field is made of numbers, all pixels are 0 if it
    is flat, and if it is not flat and no difference of two of its entries
    overflows, some pixel is 0 and some pixel is 255. *)
Theorem C5_byte_range_and_extremes (p : Params float) (w w' : World)
    (world : ndarray float) (img_array : ndarray Z) (img : Image) :
  texture_body pnoise2 p w = (Ok (world, img_array, img), w') ->
  (forall b, In b (concat (pixels img)) -> 0 <= b <= 255) /\
  (all_finite world ->
     (degenerate world -> forall b, In b (concat (pixels img)) -> b = 0) /\
     (~ degenerate world -> finite_range world ->
        In 0 (concat (pixels img)) /\ In 255 (concat (pixels img)))).
Proof.
  intros Hrun.
  destruct (texture_body_compute pnoise2 p w) as (base & Hc & _).
  rewrite Hrun in Hc. simpl in Hc. symmetry in Hc.
  unfold compute_texture in Hc.
  apply exc_bind_ok in Hc as (world0 & _ & Hc).
  apply exc_bind_ok in Hc as (nw & Hn & Hc).
  injection Hc as -> <- <-.
  change (pixels (Image_fromarray (to_img_array nw)))
    with (data (to_img_array nw)).
  change (concat (data (to_img_array nw))) with (flat (to_img_array nw)).
  unfold to_img_array. rewrite flat_np_map.
  split.
  { intros b Hb. apply in_map_iff in Hb as (v & <- & _).
    apply quantize_byte. }
  intros Hall.
  pose proof Hn as Hn'. unfold normalize_world in Hn'.
  apply exc_bind_ok in Hn' as (m0 & Hm0 & Hn').
  apply exc_bind_ok in Hn' as (M0 & HM0 & _).
  pose proof (np_min_spec _ _ Hall Hm0) as Hmin.
  pose proof (np_max_spec _ _ Hall HM0) as Hmax.
  destruct (extremes_eqb world m0 M0 Hall Hmin Hmax) as (Hdeg & _ & Hlt).
  rewrite (normalize_world_unfold world m0 M0 Hm0 HM0) in Hn.
  destruct (M0 =? m0)%float eqn:Hb; injection Hn as <-.
  - split.
    + intros _ b Hin. unfold np_zeros_like in Hin.
      rewrite flat_np_map, map_map in Hin.
      apply in_map_iff in Hin as (v & <- & _). exact quantize_of_int_0.
    + intros Hnd. exfalso. apply Hnd, Hdeg. reflexivity.
  - split.
    { intros Hd. apply Hdeg in Hd. discriminate. }
    intros _ Hrange. specialize (Hlt eq_refl).
    pose proof (finite_range_extremes world m0 M0 Hrange Hmin Hmax) as Hfd.
    rewrite flat_np_map, map_map.
    destruct Hmin as [Hin1 Hle1]. destruct Hmax as [Hin2 Hle2].
    pose proof (entry_finite world m0 Hall Hin1) as Hf1.
    pose proof (entry_finite world M0 Hall Hin2) as Hf2.
    split.
    + apply in_map_iff. exists m0. split; [| exact Hin1].
      destruct (normalize_entry m0 M0 m0) as (Hfr & _ & H0 & _);
        auto; try lra.
      apply quantize_zero; [exact Hfr | apply H0; reflexivity].
    + apply in_map_iff. exists M0. split; [| exact Hin2].
      destruct (normalize_entry m0 M0 M0) as (_ & _ & _ & H1);
        auto; try lra.
      rewrite H1 by reflexivity. exact quantize_one.
Qed.

End Bytes.

Lemma plane_world_spec :
  all_finite plane_world /\ ~ degenerate plane_world /\
  finite_range plane_world.
Proof.
  split; [repeat constructor |]. split.
  - intros Hd.
    assert (He : (float_value 0 == float_value (1 / 50))%Q)
      by (apply Hd; simpl; auto).
    vm_compute in He. discriminate.
  - intros u v Hu Hv. simpl in Hu, Hv.
    destruct Hu as [<- | [<- | [<- | [<- | []]]]];
      destruct Hv as [<- | [<- | [<- | [<- | []]]]]; reflexivity.
Qed.

Lemma C5_byte_range_and_extremes_witness :
  texture_body plane_noise tiny64 empty_world
  = (Ok (plane_world, plane_img_array, Image_fromarray plane_img_array),
     empty_world) /\
  (forall b, In b (concat (pixels (Image_fromarray plane_img_array))) ->
     0 <= b <= 255) /\
  In 0 (concat (pixels (Image_fromarray plane_img_array))) /\
  In 255 (concat (pixels (Image_fromarray plane_img_array))).
Proof.
  assert (Hrun : texture_body plane_noise tiny64 empty_world
    = (Ok (plane_world, plane_img_array, Image_fromarray plane_img_array),
       empty_world)) by (vm_compute; reflexivity).
  split; [exact Hrun |].
  destruct (C5_byte_range_and_extremes plane_noise tiny64 empty_world _ _ _ _
              Hrun) as [Hbytes Hrest].
  split; [exact Hbytes |].
  destruct plane_world_spec as (Hall & Hnd & Hrange).
  exact (proj2 (Hrest Hall) Hnd Hrange).
Defined.

(** The same lines evaluated on a field whose rescaled values are exact:
    the minimum gives 0.0 and byte 0, the maximum 1.0 and byte 255, and
    63.75 and 127.5 lose their fractions. *)
Example binary64_normalize_quantize :
  normalize_world (mk_ndarray (2, 2)%nat [[-1; 3]; [0; 1]]%float)
  = Ok (mk_ndarray (2, 2)%nat [[0; 1]; [0.25; 0.5]]%float) /\
  to_img_array (mk_ndarray (2, 2)%nat [[0; 1]; [0.25; 0.5]]%float)
  = mk_ndarray (2, 2)%nat [[0; 255]; [63; 127]].
Proof. split; vm_compute; reflexivity. Qed.

(** ** Tiling *)

Lemma Qfrac_shift (q : Q) : (Qfrac (q + 1) == Qfrac q)%Q.
Proof.
  unfold Qfrac.
  assert (Hf : Qfloor (q + 1) = Qfloor q + 1).
  { apply Qfloor_unique.
    - rewrite inject_Z_plus. change (inject_Z 1) with 1%Q.
      pose proof (Qfloor_le q). lra.
    - rewrite inject_Z_plus. change (inject_Z 1) with 1%Q.
      pose proof (Qlt_floor q) as Hlt.
      rewrite inject_Z_plus in Hlt. change (inject_Z 1) with 1%Q in Hlt.
      lra. }
  rewrite Hf, inject_Z_plus. change (inject_Z 1) with 1%Q. ring.
Qed.

Lemma Qfrac_comp (q q' : Q) : (q == q')%Q -> (Qfrac q == Qfrac q')%Q.
Proof.
  intros Hq. unfold Qfrac. rewrite (Qfloor_comp q q' Hq).
  unfold Qminus. apply Qplus_inj_r. exact Hq.
Qed.

Lemma saw_periodic : periodic saw_noise.
Proof.
  intros x y o pe la rx ry b Hrx Hry. unfold saw_noise, exc_Qeq.
  assert (Hx : ~ (inject_Z rx == 0)%Q).
  { intros Heq. apply (inject_Z_injective rx 0) in Heq. lia. }
  assert (Hy : ~ (inject_Z ry == 0)%Q).
  { intros Heq. apply (inject_Z_injective ry 0) in Heq. lia. }
  split.
  - rewrite (Qfrac_comp ((x + inject_Z rx) / inject_Z rx)
                        (x / inject_Z rx + 1)) by (field; exact Hx).
    now rewrite Qfrac_shift.
  - rewrite (Qfrac_comp ((y + inject_Z ry) / inject_Z ry)
                        (y / inject_Z ry + 1)) by (field; exact Hy).
    now rewrite Qfrac_shift.
Qed.

Lemma saw_respects_Qeq : respects_Qeq saw_noise.
Proof.
  intros x x' y y' o pe la rx ry b Hx Hy. unfold saw_noise, exc_Qeq.
  rewrite (Qfrac_comp (x / inject_Z rx) (x' / inject_Z rx))
    by (now rewrite Hx).
  rewrite (Qfrac_comp (y / inject_Z ry) (y' / inject_Z ry))
    by (now rewrite Hy).
  reflexivity.
Qed.

Lemma exc_Qeq_trans (a b c : Exc Q) : exc_Qeq a b -> exc_Qeq b c -> exc_Qeq a c.
Proof.
  destruct a, b, c; simpl; try tauto; try congruence.
  intros H1 H2. now rewrite H1.
Qed.

Lemma sample_unfold (pn : Q -> Q -> Z -> Q -> Q -> Z -> Z -> Z -> Exc Q)
    (p : Params Q) (base i j : Z) :
  ~ (scale p == 0)%Q ->
  sample pn p base i j =
    pn (inject_Z i / scale p)%Q (inject_Z j / scale p)%Q (octaves p)
       (persistence p) (lacunarity p) (width p) (height p) base.
Proof.
  intros Hs. unfold sample, py_truediv. simpl.
  destruct (Qeq_bool (scale p) (inject_Z 0)) eqn:Hb; [| reflexivity].
  apply Qeq_bool_iff in Hb. contradiction.
Qed.

(** What the wrap parameters do give: along the rows the sampled field
    repeats every [width * scale] pixels, when that is a whole number. *)
Lemma rows_repeat_every_width_times_scale
    (pn : Q -> Q -> Z -> Q -> Q -> Z -> Z -> Z -> Exc Q)
    (p : Params Q) (base i j k : Z) :
  respects_Qeq pn -> periodic pn ->
  0 < width p -> 0 < height p -> ~ (scale p == 0)%Q ->
  (inject_Z k == inject_Z (width p) * scale p)%Q ->
  exc_Qeq (sample pn p base (i + k) j) (sample pn p base i j).
Proof.
  intros Hresp Hper Hw Hh Hs Hk.
  rewrite !sample_unfold by exact Hs.
  eapply exc_Qeq_trans;
    [| apply (proj1 (Hper (inject_Z i / scale p)%Q (inject_Z j / scale p)%Q
                       (octaves p) (persistence p) (lacunarity p)
                       (width p) (height p) base Hw Hh))].
  apply Hresp; [| reflexivity].
  rewrite inject_Z_plus, Hk. field. exact Hs.
Qed.

(** C6 does not hold of the code.  The sawtooth primitive honours the
    wrap parameters, and the function passes [repeatx=width,
    repeaty=height]; yet with the default 256 x 256 grid and scale 50 the
    sample of row 256 exceeds the sample of row 0 by 1/50 in every column:
    the coordinate passed is [i / scale], so one grid height is 256/50
    units of a period of 256 units.  With a 256 wide and 128 high grid the
    value 128 units further along x differs as well, the period along x
    being [width]. *)
Theorem C6_edges_differ_at_defaults :
  respects_Qeq saw_noise /\ periodic saw_noise /\
  (forall base j, exists a b,
      sample saw_noise defaults base 0 j = Ok a /\
      sample saw_noise defaults base (height defaults) j = Ok b /\
      (b == a + (1 # 50))%Q) /\
  ~ tiles_vertically saw_noise defaults /\
  (forall y base, exists a b,
      saw_noise 0 y 4 (1 # 2) 2 256 128 base = Ok a /\
      saw_noise (inject_Z 128) y 4 (1 # 2) 2 256 128 base = Ok b /\
      (b == a + (1 # 2))%Q).
Proof.
  assert (Hrows : forall base j, exists a b,
      sample saw_noise defaults base 0 j = Ok a /\
      sample saw_noise defaults base (height defaults) j = Ok b /\
      (b == a + (1 # 50))%Q).
  { intros base j.
    assert (Hs : ~ (scale defaults == 0)%Q) by discriminate.
    rewrite !sample_unfold by exact Hs. unfold saw_noise.
    eexists. eexists. split; [reflexivity |]. split; [reflexivity |].
    simpl.
    assert (E0 : (Qfrac (inject_Z 0 / inject_Z 50 / inject_Z 256) == 0)%Q)
      by reflexivity.
    assert (E1 : (Qfrac (inject_Z 256 / inject_Z 50 / inject_Z 256)
                  == 1 # 50)%Q) by reflexivity.
    rewrite E0, E1. ring. }
  split; [exact saw_respects_Qeq |]. split; [exact saw_periodic |].
  split; [exact Hrows |]. split.
  - intros Htile. specialize (Htile 0 0).
    destruct (Hrows 0 0) as (a & b & Ha & Hb & Hab).
    rewrite Hb in Htile. rewrite Ha in Htile. simpl in Htile. lra.
  - intros y base. unfold saw_noise.
    eexists. eexists. split; [reflexivity |]. split; [reflexivity |].
    assert (E0 : (Qfrac (0 / inject_Z 256) == 0)%Q) by reflexivity.
    assert (E1 : (Qfrac (inject_Z 128 / inject_Z 256) == 1 # 2)%Q)
      by reflexivity.
    rewrite E0, E1. ring.
Qed.

(** ** Concrete runs *)

(** C7, as stated, fails: a negative scale is not refused.  With scale
    -50 on a 2 x 2 grid the run returns and the file is written.  Nor is
    an empty grid refused before or during sampling: with width 0 the
    loops end without a sample and it is [np.min] that raises. *)
Lemma C7_negative_scale_counterexample :
  (scale tiny_negative_scale <= 0)%Q /\
  fst (generate_simplex_noise_texture saw_noise tiny_negative_scale
         empty_world) = Ok tt /\
  (exists img,
    stat (fs (snd (generate_simplex_noise_texture saw_noise
                     tiny_negative_scale empty_world)))
         (output_path tiny_negative_scale) = Some (File img)) /\
  width tiny_empty <= 0 /\
  sample_world saw_noise tiny_empty 0 = Ok (mk_ndarray (2, 0)%nat [[]; []]) /\
  normalize_world (mk_ndarray (2, 0)%nat [[]; []] : ndarray Q)
  = Raise ValueError.
Proof.
  split; [discriminate |]. split; [vm_compute; reflexivity |].
  split; [eexists; vm_compute; reflexivity |].
  split; [discriminate |]. split; reflexivity.
Qed.

(** C7, amended.  With [width <= 0], [height <= 0] or [scale = 0] every
    run raises in lines 11 to 39, before anything is written, and the
    files are as they were: ZeroDivisionError at the first sample when
    both dimensions are positive, ValueError otherwise (from [np.zeros]
    for a negative dimension, from [np.min] for an empty grid). *)
Theorem C7_bad_dimensions_or_zero_scale
    (pnoise2 : Q -> Q -> Z -> Q -> Q -> Z -> Z -> Z -> Exc Q)
    (p : Params Q) (w : World) :
  width p <= 0 \/ height p <= 0 \/ (scale p == 0)%Q ->
  exists e w',
    generate_simplex_noise_texture pnoise2 p w = (Raise e, w') /\
    e = (if (0 <? height p) && (0 <? width p)
         then ZeroDivisionError else ValueError) /\
    InvalidParameter e = true /\
    fst (texture_body pnoise2 p w) = Raise e /\
    fs w' = fs w.
Proof.
  intros Hbad. apply generate_invalid.
  destruct Hbad as [Hb | [Hb | Hb]]; auto.
  right. right. simpl. now apply Qeq_bool_iff.
Qed.

Lemma C7_bad_dimensions_or_zero_scale_witness :
  (scale tiny_zero_scale == 0)%Q /\
  exists w',
    generate_simplex_noise_texture saw_noise tiny_zero_scale busy_world
    = (Raise ZeroDivisionError, w') /\
    fs w' = fs busy_world.
Proof.
  split; [reflexivity |].
  destruct (C7_bad_dimensions_or_zero_scale saw_noise tiny_zero_scale
              busy_world) as (e & w' & Hrun & He & _ & _ & Hfs).
  - right. right. reflexivity.
  - exists w'. split; [| exact Hfs]. rewrite Hrun, He. reflexivity.
Defined.


Lemma C10_default_seed_range_witness :
  seed (with_seed tiny None) = None /\
  exists s, 0 <= s <= 99 /\
    fst (texture_body saw_noise (with_seed tiny None) busy_world)
    = compute_texture saw_noise (with_seed tiny None) s.
Proof.
  split; [reflexivity |].
  exact (proj1 (C10_default_seed_range saw_noise (with_seed tiny None)
                  busy_world eq_refl)).
Defined.

Lemma C9_bare_filename_fails_witness :
  contains_sep (output_path (with_path tiny "out.png")) = false /\
  generate_simplex_noise_texture saw_noise (with_path tiny "out.png")
    empty_world
  = (Raise FileNotFoundError, empty_world).
Proof.
  split; [reflexivity |].
  destruct (C9_bare_filename_fails saw_noise (with_path tiny "out.png")
              empty_world eq_refl) as [_ Hrun].
  destruct (fst (texture_body saw_noise (with_path tiny "out.png")
                   empty_world)) as [r|e] eqn:Hbody.
  - exact (Hrun r eq_refl).
  - vm_compute in Hbody. discriminate Hbody.
Defined.

Lemma C8_output_dimensions_witness :
  0 < width tiny /\ 0 < height tiny /\
  generate_simplex_noise_texture saw_noise tiny empty_world
  = (Ok tt, snd (generate_simplex_noise_texture saw_noise tiny empty_world)) /\
  exists img,
    stat (fs (snd (generate_simplex_noise_texture saw_noise tiny empty_world)))
         (output_path tiny) = Some (File img) /\
    Z.of_nat (fst (size img)) = 2 /\ Z.of_nat (snd (size img)) = 2.
Proof.
  assert (Hrun : generate_simplex_noise_texture saw_noise tiny empty_world
    = (Ok tt, snd (generate_simplex_noise_texture saw_noise tiny empty_world)))
    by (vm_compute; reflexivity).
  split; [reflexivity |]. split; [reflexivity |]. split; [exact Hrun |].
  destruct (C8_output_dimensions saw_noise tiny empty_world _
              eq_refl eq_refl Hrun)
    as (world & ia & img & _ & Hfile & Hw & Hh & _).
  exists img. split; [exact Hfile |]. split; [exact Hw | exact Hh].
Defined.

(** * Further properties of the function *)

(** ** The sampling loops *)

Lemma for_each_seq_stops {S : Type} (I : nat -> S -> Prop)
    (body : nat -> S -> Exc S) (a n k : nat) (s : S) (e : PyError) :
  I a s ->
  (forall m t, (a <= m < k)%nat -> I m t ->
               exists t', body m t = Ok t' /\ I (Datatypes.S m) t') ->
  (a <= k < a + n)%nat ->
  (forall t, I k t -> body k t = Raise e) ->
  for_each (seq a n) body s = Raise e.
Proof.
  revert a s. induction n as [|n IH]; intros a s Hs Hok Hk Hraise; [lia |].
  simpl. destruct (Nat.eq_dec a k) as [-> | Hne].
  - now rewrite (Hraise s Hs).
  - destruct (Hok a s ltac:(lia) Hs) as (s1 & H1 & HI1).
    rewrite H1. simpl. apply IH; [exact HI1 | | lia | exact Hraise].
    intros m t Hm. apply Hok. lia.
Qed.

Lemma for_each_seq_raise {S : Type} (I : nat -> S -> Prop)
    (body : nat -> S -> Exc S) (a n : nat) (s : S) (e : PyError) :
  I a s ->
  (forall m t t', (a <= m < a + n)%nat -> I m t -> body m t = Ok t' ->
                  I (Datatypes.S m) t') ->
  for_each (seq a n) body s = Raise e ->
  exists m t, (a <= m < a + n)%nat /\ I m t /\ body m t = Raise e.
Proof.
  revert a s. induction n as [|n IH]; intros a s Hs Hstep Hrun; simpl in Hrun;
    [discriminate |].
  destruct (body a s) as [s1|e1] eqn:Hb; simpl in Hrun.
  - destruct (IH (Datatypes.S a) s1) as (m & t & Hm & Ht & Hbody).
    + apply (Hstep a s s1); [lia | exact Hs | exact Hb].
    + intros m t t' Hm. apply Hstep. lia.
    + exact Hrun.
    + exists m, t. split; [lia | auto].
  - injection Hrun as <-. exists a, s. split; [lia | auto].
Qed.

Section Sampling.
Context {F : Type} `{Float64 F}.
Variable pnoise2 : F -> F -> Z -> F -> F -> Z -> Z -> Z -> Exc F.

Lemma store_keeps_shape (p : Params F) (base : Z) (i j : nat)
    (a a' : ndarray F) :
  grid_shaped p a ->
  (v ← sample pnoise2 p base (Z.of_nat i) (Z.of_nat j); np_set a i j v)
  = Ok a' ->
  grid_shaped p a'.
Proof.
  intros [Ha1 Ha2] Hbody. apply exc_bind_ok in Hbody as (v & _ & Hset).
  destruct (np_set_shape a a' i j v Hset Ha1) as [H1 H2].
  split; [exact H1 | congruence].
Qed.

Lemma store_in_range (p : Params F) (base : Z) (i j : nat) (a : ndarray F)
    (v : F) :
  grid_shaped p a ->
  (i < Z.to_nat (height p))%nat -> (j < Z.to_nat (width p))%nat ->
  sample pnoise2 p base (Z.of_nat i) (Z.of_nat j) = Ok v ->
  exists a',
    (v ← sample pnoise2 p base (Z.of_nat i) (Z.of_nat j); np_set a i j v)
    = Ok a' /\ grid_shaped p a'.
Proof.
  intros [Ha1 Ha2] Hi Hj Hv.
  destruct (np_set_defined a i j v Ha1) as (a' & Hset);
    [rewrite Ha2; exact Hi | rewrite Ha2; exact Hj |].
  exists a'. rewrite Hv. simpl. split; [exact Hset |].
  apply (store_keeps_shape p base i j a a'); [now split |].
  rewrite Hv. exact Hset.
Qed.

(** X1.  When lines 14 to 39 return, the height field holds at row [i],
    column [j] the value [pnoise2(i / scale, j / scale, octaves,
    persistence, lacunarity, repeatx=width, repeaty=height, base=seed)]:
    the row index is the first coordinate, the column index the second,
    and no entry is left at the zero [np.zeros] put there. *)
Theorem X1_height_field_entries (p : Params F) (base : Z)
    (world : ndarray F) (img_array : ndarray Z) (img : Image) (i j : nat) :
  compute_texture pnoise2 p base = Ok (world, img_array, img) ->
  (i < Z.to_nat (height p))%nat -> (j < Z.to_nat (width p))%nat ->
  exists x y v,
    py_truediv (Z.of_nat i) (scale p) = Ok x /\
    py_truediv (Z.of_nat j) (scale p) = Ok y /\
    pnoise2 x y (octaves p) (persistence p) (lacunarity p)
      (width p) (height p) base = Ok v /\
    np_get world i j = Some v.
Proof.
  intros Hrun Hi Hj. unfold compute_texture in Hrun.
  apply exc_bind_ok in Hrun as (w0 & Hs & Hrun).
  apply exc_bind_ok in Hrun as (nw & _ & Hrun).
  injection Hrun as <- _ _.
  destruct (sample_world_entries pnoise2 p base w0 Hs i j Hi Hj)
    as (v & Hv & Hget).
  unfold sample in Hv.
  apply exc_bind_ok in Hv as (x & Hx & Hv).
  apply exc_bind_ok in Hv as (y & Hy & Hv).
  exists x, y, v. auto.
Qed.

(** X2.  Lines 14 to 25 raise only what [np.zeros] raises or what the
    sample of some pixel of the grid raises: the store
    [world[i][j] = ...] never fails, no index is out of range. *)
Theorem X2_sampling_errors (p : Params F) (base : Z) (e : PyError) :
  sample_world pnoise2 p base = Raise e ->
  np_zeros (height p) (width p) = (Raise e : Exc (ndarray F)) \/
  (exists i j, (i < Z.to_nat (height p))%nat /\ (j < Z.to_nat (width p))%nat /\
               sample pnoise2 p base (Z.of_nat i) (Z.of_nat j) = Raise e).
Proof.
  unfold sample_world. intros Hrun.
  destruct (np_zeros (height p) (width p)) as [z|e0] eqn:Hz.
  - right. apply np_zeros_shape in Hz. simpl in Hrun.
    apply (for_each_seq_raise (fun _ => grid_shaped p)) in Hrun;
      [| exact Hz |].
    + destruct Hrun as (i & t & Hi & Ht & Hrow).
      apply (for_each_seq_raise (fun _ => grid_shaped p)) in Hrow;
        [| exact Ht |].
      * destruct Hrow as (j & a & Hj & Ha & Hbody).
        exists i, j. split; [lia |]. split; [lia |].
        destruct (sample pnoise2 p base (Z.of_nat i) (Z.of_nat j))
          as [v|e1] eqn:Hv; simpl in Hbody; [| congruence].
        destruct (store_in_range p base i j a v Ha ltac:(lia) ltac:(lia) Hv)
          as (a' & Hok & _).
        rewrite Hv in Hok. simpl in Hok. congruence.
      * intros j a a' _ Ha Hbody.
        exact (store_keeps_shape p base i j a a' Ha Hbody).
    + intros i t t' _ Ht Hrow.
      apply (for_each_inv (grid_shaped p)) in Hrow; [exact Hrow | | exact Ht].
      intros j a a' Ha Hbody.
      exact (store_keeps_shape p base i j a a' Ha Hbody).
  - left. simpl in Hrun. exact Hrun.
Qed.

(** X3.  The pixels are sampled in row-major order and the first sample
    that raises ends the function: when the sample of [(i, j)] raises [e]
    and the samples of all pixels before it return, the run raises [e],
    nothing is written and nothing is printed. *)
Theorem X3_first_failing_sample (p : Params F) (w : World) (base : Z)
    (i j : nat) (e : PyError) :
  fst (texture_body pnoise2 p w) = compute_texture pnoise2 p base ->
  (i < Z.to_nat (height p))%nat -> (j < Z.to_nat (width p))%nat ->
  sample pnoise2 p base (Z.of_nat i) (Z.of_nat j) = Raise e ->
  (forall i' j', (j' < Z.to_nat (width p))%nat -> visited_before i' j' i j ->
     exists v, sample pnoise2 p base (Z.of_nat i') (Z.of_nat j') = Ok v) ->
  sample_world pnoise2 p base = Raise e /\
  exists w', generate_simplex_noise_texture pnoise2 p w = (Raise e, w') /\
             fs w' = fs w /\ stdout w' = stdout w.
Proof.
  intros Hbase Hi Hj Hraise Hbefore.
  assert (Hs : sample_world pnoise2 p base = Raise e).
  { unfold sample_world.
    destruct (np_zeros (height p) (width p)) as [z|e0] eqn:Hz.
    2:{ unfold np_zeros in Hz.
        destruct ((height p <? 0) || (width p <? 0)) eqn:Hneg;
          [| discriminate].
        apply orb_true_iff in Hneg as [Hn | Hn]; apply Z.ltb_lt in Hn; lia. }
    apply np_zeros_shape in Hz. simpl. unfold range.
    apply (for_each_seq_stops (fun _ => grid_shaped p) _ 0 _ i);
      [exact Hz | | lia |].
    - intros m t Hm Ht.
      apply (for_each_seq_total (fun _ => grid_shaped p)); [exact Ht |].
      intros k a Hk Ha.
      destruct (Hbefore m k ltac:(lia)) as (v & Hv); [left; lia |].
      exact (store_in_range p base m k a v Ha ltac:(lia) ltac:(lia) Hv).
    - intros t Ht.
      apply (for_each_seq_stops (fun _ => grid_shaped p) _ 0 _ j);
        [exact Ht | | lia |].
      + intros k a Hk Ha.
        destruct (Hbefore i k ltac:(lia)) as (v & Hv); [right; lia |].
        exact (store_in_range p base i k a v Ha ltac:(lia) ltac:(lia) Hv).
      + intros a _. now rewrite Hraise. }
  split; [exact Hs |].
  assert (Hb : fst (texture_body pnoise2 p w) = Raise e).
  { rewrite Hbase. unfold compute_texture. now rewrite Hs. }
  unfold generate_simplex_noise_texture. rewrite M_bind_run.
  pose proof (texture_body_fs pnoise2 p w) as Hfs.
  assert (Hout : stdout (snd (texture_body pnoise2 p w)) = stdout w).
  { destruct (seed p) as [s0|] eqn:Hseed.
    - now rewrite (texture_body_seeded pnoise2 p s0 w Hseed).
    - now rewrite (texture_body_unseeded pnoise2 p w Hseed). }
  destruct (texture_body pnoise2 p w) as [[r|e'] w1]; simpl in *;
    [discriminate |].
  injection Hb as ->. eauto.
Qed.

(** X4.  Lines 14 to 39 return exactly when [np.zeros] returns the
    array, both dimensions are positive and the sample of every pixel of
    the grid returns: the allocation, the dimensions, the scale (through
    [i / scale]) and the primitive are all that can make them raise. *)
Theorem X4_texture_computed_iff (p : Params F) (base : Z) :
  (exists r, compute_texture pnoise2 p base = Ok r) <->
  ((exists z : ndarray F, np_zeros (height p) (width p) = Ok z) /\
   0 < height p /\ 0 < width p /\
   forall i j, (i < Z.to_nat (height p))%nat -> (j < Z.to_nat (width p))%nat ->
     exists v, sample pnoise2 p base (Z.of_nat i) (Z.of_nat j) = Ok v).
Proof.
  split.
  - intros ([[world ia] img] & Hrun).
    assert (Hpos : 0 < height p /\ 0 < width p).
    { destruct (Z_lt_le_dec 0 (height p)) as [Hh | Hh];
        destruct (Z_lt_le_dec 0 (width p)) as [Hw | Hw]; [auto | | |];
        rewrite compute_invalid in Hrun by auto; discriminate. }
    unfold compute_texture in Hrun.
    apply exc_bind_ok in Hrun as (w0 & Hs & _).
    split.
    { unfold sample_world in Hs.
      destruct (np_zeros (height p) (width p)) as [z|e0];
        [eauto | discriminate]. }
    split; [apply Hpos |]. split; [apply Hpos |].
    intros i j Hi Hj.
    destruct (sample_world_entries pnoise2 p base w0 Hs i j Hi Hj)
      as (v & Hv & _).
    eauto.
  - intros (_ & Hh & Hw & Hsamples).
    destruct (sample_world_defined pnoise2 p base ltac:(lia) ltac:(lia)
                Hsamples) as (world & Hs).
    unfold compute_texture. rewrite Hs. simpl.
    destruct (sample_world_shape pnoise2 p base world Hs) as [[Hr Hc] Hsh].
    rewrite Hsh in Hr, Hc. simpl in Hr, Hc.
    assert (Hne : exists x xs, flat world = x :: xs).
    { unfold flat. destruct (data world) as [|row rows] eqn:Hd;
        [simpl in Hr; lia |].
      apply Forall_cons in Hc as [Hrow _].
      destruct row as [|x row]; [simpl in Hrow; lia |].
      simpl. eauto. }
    destruct Hne as (x & xs & Hflat).
    unfold normalize_world, np_min, np_max. rewrite Hflat. simpl.
    destruct (feqb _ _); eauto.
Qed.

End Sampling.

(** ** The normalizer and the quantizer together *)

Lemma np_get_np_map {A B} (f : A -> B) (a : ndarray A) (i j : nat) :
  np_get (np_map f a) i j = f <$> np_get a i j.
Proof.
  unfold np_get, np_map. simpl. rewrite list_lookup_fmap.
  destruct (data a !! i) as [row|]; simpl; [| reflexivity].
  apply list_lookup_fmap.
Qed.

Lemma np_get_flat {A} (a : ndarray A) (i j : nat) (v : A) :
  np_get a i j = Some v -> In v (flat a).
Proof.
  unfold np_get, flat. destruct (data a !! i) as [row|] eqn:Hi; simpl;
    [| discriminate].
  intros Hj. apply in_concat. exists row. split.
  - apply list_elem_of_In. eapply list_elem_of_lookup_2. exact Hi.
  - apply list_elem_of_In. eapply list_elem_of_lookup_2. exact Hj.
Qed.

(** X5.  In binary64, for a height field of numbers no two of which
    differ by more than a double can hold, the bytes keep the order of
    the heights: of two pixels, the one with the lower raw value never
    gets the larger byte.  Every step of lines 31 to 36 rounds to nearest
    and truncates, and both are monotone. *)
Theorem X5_bytes_keep_order (world nw : ndarray float) (i j i' j' : nat)
    (u v : float) :
  all_finite world -> finite_range world ->
  normalize_world world = Ok nw ->
  np_get world i j = Some u -> np_get world i' j' = Some v ->
  (float_value u <= float_value v)%Q ->
  exists bu bv,
    np_get (to_img_array nw) i j = Some bu /\
    np_get (to_img_array nw) i' j' = Some bv /\
    bu <= bv.
Proof.
  intros Hall Hrange Hrun Hu Hv Huv.
  pose proof Hrun as Hn'. unfold normalize_world in Hn'.
  apply exc_bind_ok in Hn' as (mn & Hmn & Hn').
  apply exc_bind_ok in Hn' as (mx & Hmx & _).
  pose proof (np_min_spec _ _ Hall Hmn) as Hmin.
  pose proof (np_max_spec _ _ Hall Hmx) as Hmax.
  destruct (extremes_eqb world mn mx Hall Hmin Hmax) as (_ & _ & Hlt).
  rewrite (normalize_world_unfold world mn mx Hmn Hmx) in Hrun.
  destruct (mx =? mn)%float eqn:Hb; injection Hrun as <-.
  - exists (quantize (of_int 0 : float)), (quantize (of_int 0 : float)).
    unfold to_img_array, np_zeros_like.
    rewrite !np_get_np_map, Hu, Hv.
    split; [reflexivity |]. split; [reflexivity | lia].
  - specialize (Hlt eq_refl).
    pose proof (finite_range_extremes world mn mx Hrange Hmin Hmax) as Hfd.
    pose proof (np_get_flat _ _ _ _ Hu) as Hinu.
    pose proof (np_get_flat _ _ _ _ Hv) as Hinv.
    pose proof (entry_finite world u Hall Hinu) as Hfu.
    pose proof (entry_finite world v Hall Hinv) as Hfv.
    destruct Hmin as [Hin1 Hle1]. destruct Hmax as [Hin2 Hle2].
    pose proof (entry_finite world mn Hall Hin1) as Hf1.
    pose proof (entry_finite world mx Hall Hin2) as Hf2.
    destruct (normalize_entry mn mx u) as (Hru & [Hu0 _] & _); auto.
    destruct (normalize_entry mn mx v) as (Hrv & [_ Hv1] & _); auto.
    eexists. eexists. unfold to_img_array.
    rewrite !np_get_np_map, Hu, Hv.
    split; [reflexivity |]. split; [reflexivity |].
    apply quantize_mono; auto.
    apply normalize_entry_mono; auto.
Qed.

(** ** The world after a run *)

Lemma only_adds_dirs_refl (f : gmap (list string) Node) : only_adds_dirs f f.
Proof. intros k. destruct (f !! k); auto. Qed.

Lemma only_adds_dirs_trans (f g h : gmap (list string) Node) :
  only_adds_dirs f g -> only_adds_dirs g h -> only_adds_dirs f h.
Proof.
  intros Hfg Hgh k. specialize (Hfg k). specialize (Hgh k).
  destruct (f !! k) as [n|].
  - now rewrite Hfg in Hgh.
  - destruct Hfg as [Hg | Hg]; rewrite Hg in Hgh; auto.
Qed.

Lemma lookup_key_None (f : gmap (list string) Node) (k : list string) :
  lookup_key f k = None -> f !! k = None.
Proof.
  unfold lookup_key. destruct k as [|c [|c' k]]; [discriminate | | auto].
  destruct (String.eqb c "/"); [discriminate | auto].
Qed.

Lemma os_mkdir_frame (p : string) (w : World) :
  rng (snd (os_mkdir p w)) = rng w /\
  stdout (snd (os_mkdir p w)) = stdout w /\
  only_adds_dirs (fs w) (fs (snd (os_mkdir p w))).
Proof.
  unfold os_mkdir, stat. pose proof (only_adds_dirs_refl (fs w)) as Hrefl.
  destruct (String.eqb p ""); [auto |].
  destruct (lookup_key (fs w) (path_key p)) eqn:Hk; [auto |].
  destruct (parent_check (fs w) (path_key p)); [| auto].
  simpl. repeat split. intros k.
  destruct (decide (path_key p = k)) as [<- | Hne].
  - rewrite (lookup_key_None _ _ Hk), lookup_insert_eq. auto.
  - rewrite lookup_insert_ne by exact Hne. apply Hrefl.
Qed.

Lemma makedirs_rec_frame (fuel : nat) (name : string) (exist_ok : bool)
    (w : World) :
  rng (snd (makedirs_rec fuel name exist_ok w)) = rng w /\
  stdout (snd (makedirs_rec fuel name exist_ok w)) = stdout w /\
  only_adds_dirs (fs w) (fs (snd (makedirs_rec fuel name exist_ok w))).
Proof.
  revert name w. induction fuel as [|fuel IH]; intros name w; simpl.
  { repeat split. apply only_adds_dirs_refl. }
  destruct (os_path_split name) as [h1 t1].
  destruct (if String.eqb t1 "" then os_path_split h1 else (h1, t1))
    as [head tail].
  assert (Hleaf : forall w0,
    let r := match os_mkdir name w0 with
             | (Raise e, w') =>
                 if is_OSError e && exist_ok && os_path_isdir (fs w') name
                 then (Ok tt, w') else (Raise e, w')
             | r => r
             end in
    rng (snd r) = rng w0 /\ stdout (snd r) = stdout w0 /\
    only_adds_dirs (fs w0) (fs (snd r))).
  { intros w0. pose proof (os_mkdir_frame name w0) as Hm.
    destruct (os_mkdir name w0) as [[[]|e] w1]; simpl in *; [exact Hm |].
    destruct (is_OSError e && exist_ok && os_path_isdir (fs w1) name);
      exact Hm. }
  destruct (negb (String.eqb head "") && negb (String.eqb tail "")
            && negb (os_path_exists (fs w) head)); [| apply Hleaf].
  specialize (IH head w).
  destruct (makedirs_rec fuel head exist_ok w) as [[[]|e] w1];
    simpl in IH; destruct IH as (H1 & H2 & H3).
  - destruct (String.eqb tail "."); [simpl; auto |].
    destruct (Hleaf w1) as (L1 & L2 & L3).
    repeat split; try congruence.
    eapply only_adds_dirs_trans; eassumption.
  - assert (Hgo : forall r : Exc unit * World,
      (rng (snd r) = rng w1 /\ stdout (snd r) = stdout w1 /\
       only_adds_dirs (fs w1) (fs (snd r))) ->
      rng (snd r) = rng w /\ stdout (snd r) = stdout w /\
      only_adds_dirs (fs w) (fs (snd r))).
    { intros r (L1 & L2 & L3). repeat split; try congruence.
      eapply only_adds_dirs_trans; eassumption. }
    destruct e; simpl; auto.
    destruct (String.eqb tail "."); [simpl; auto |].
    apply Hgo, Hleaf.
Qed.

Lemma Image_save_frame (img : Image) (path : string) (w : World) :
  rng (snd (Image_save img path w)) = rng w /\
  stdout (snd (Image_save img path w)) = stdout w /\
  forall k n, fs w !! k = Some n ->
    fs (snd (Image_save img path w)) !! k = Some n \/
    (k = path_key path /\ fst (Image_save img path w) = Ok tt).
Proof.
  unfold Image_save.
  destruct (String.eqb path ""); [auto |].
  assert (Hgo :
    let r := match parent_check (fs w) (path_key path) with
             | Ok _ =>
                 (Ok tt, set_fs w (<[path_key path := File img]> (fs w)))
             | Raise e => (Raise e, w)
             end in
    rng (snd r) = rng w /\ stdout (snd r) = stdout w /\
    forall k n, fs w !! k = Some n ->
      fs (snd r) !! k = Some n \/ (k = path_key path /\ fst r = Ok tt)).
  { destruct (parent_check (fs w) (path_key path)); simpl; [| auto].
    repeat split. intros k n Hk.
    destruct (decide (path_key path = k)) as [<- | Hne]; [auto |].
    left. now rewrite lookup_insert_ne. }
  destruct (stat (fs w) path) as [[|c]|]; [simpl; auto | exact Hgo..].
Qed.

Section WorldAfter.
Context {F : Type} `{Float64 F}.
Variable pnoise2 : F -> F -> Z -> F -> F -> Z -> Z -> Z -> Exc F.

Lemma texture_body_frame (p : Params F) (w : World) :
  fs (snd (texture_body pnoise2 p w)) = fs w /\
  stdout (snd (texture_body pnoise2 p w)) = stdout w /\
  rng (snd (texture_body pnoise2 p w))
  = match seed p with Some _ => rng w | None => List.tl (rng w) end.
Proof.
  destruct (seed p) as [s|] eqn:Hs.
  - now rewrite (texture_body_seeded pnoise2 p s w Hs).
  - now rewrite (texture_body_unseeded pnoise2 p w Hs).
Qed.

(** X9.  The confirmation line is printed exactly when the run returns,
    after everything else, and a run that raises prints nothing; the
    random source is advanced by one draw when no seed is given and is
    left alone when one is, whether the run returns or raises. *)
Theorem X9_console_and_random_source (p : Params F) (w : World) :
  stdout (snd (generate_simplex_noise_texture pnoise2 p w))
  = match fst (generate_simplex_noise_texture pnoise2 p w) with
    | Ok _ =>
        stdout w ++ [("Generated noise texture saved to " ++ output_path p)%string]
    | Raise _ => stdout w
    end /\
  rng (snd (generate_simplex_noise_texture pnoise2 p w))
  = match seed p with Some _ => rng w | None => List.tl (rng w) end.
Proof.
  unfold generate_simplex_noise_texture. rewrite M_bind_run.
  destruct (texture_body_frame p w) as (_ & Hout & Hrng).
  destruct (texture_body pnoise2 p w) as [[[[world ia] img]|e] w1];
    simpl in Hout, Hrng; [| simpl; auto].
  rewrite M_bind_run.
  destruct (makedirs_rec_frame (S (String.length (os_path_dirname (output_path p))))
              (os_path_dirname (output_path p)) true w1) as (M1 & M2 & _).
  fold (os_makedirs (os_path_dirname (output_path p)) true w1) in M1, M2.
  destruct (os_makedirs (os_path_dirname (output_path p)) true w1)
    as [[[]|e] w2]; simpl in M1, M2; [| simpl; split; congruence].
  rewrite M_bind_run.
  destruct (Image_save_frame img (output_path p) w2) as (S1 & S2 & _).
  destruct (Image_save img (output_path p) w2) as [[[]|e] w3];
    simpl in S1, S2; simpl; split; congruence.
Qed.


End WorldAfter.

(** ** The further properties at concrete inputs *)

Lemma X1_height_field_entries_witness :
  compute_texture saw_noise tiny 0
  = Ok (tiny_world, tiny_img_array, Image_fromarray tiny_img_array) /\
  exists x y v,
    py_truediv 1 (scale tiny) = Ok x /\
    py_truediv 1 (scale tiny) = Ok y /\
    saw_noise x y 1 (1 # 2) 2 2 2 0 = Ok v /\
    np_get tiny_world 1 1 = Some v.
Proof.
  assert (Hrun : compute_texture saw_noise tiny 0
    = Ok (tiny_world, tiny_img_array, Image_fromarray tiny_img_array))
    by (vm_compute; reflexivity).
  split; [exact Hrun |].
  apply (X1_height_field_entries saw_noise tiny 0 tiny_world tiny_img_array
           (Image_fromarray tiny_img_array) 1 1 Hrun); simpl; lia.
Defined.

Lemma X2_sampling_errors_witness :
  sample_world cliff_noise tiny 0 = Raise ValueError /\
  (np_zeros (height tiny) (width tiny) = (Raise ValueError : Exc (ndarray Q)) \/
   exists i j, (i < 2)%nat /\ (j < 2)%nat /\
     sample cliff_noise tiny 0 (Z.of_nat i) (Z.of_nat j) = Raise ValueError).
Proof.
  assert (Hrun : sample_world cliff_noise tiny 0 = Raise ValueError)
    by (vm_compute; reflexivity).
  split; [exact Hrun |].
  exact (X2_sampling_errors cliff_noise tiny 0 ValueError Hrun).
Defined.

Lemma X3_first_failing_sample_witness :
  sample cliff_noise tiny 0 1 0 = Raise ValueError /\
  sample_world cliff_noise tiny 0 = Raise ValueError /\
  exists w', generate_simplex_noise_texture cliff_noise tiny busy_world
             = (Raise ValueError, w') /\
             fs w' = fs busy_world /\ stdout w' = stdout busy_world.
Proof.
  assert (Hraise : sample cliff_noise tiny 0 1 0 = Raise ValueError)
    by (vm_compute; reflexivity).
  split; [exact Hraise |].
  apply (X3_first_failing_sample cliff_noise tiny busy_world 0 1 0 ValueError).
  - reflexivity.
  - simpl. lia.
  - simpl. lia.
  - exact Hraise.
  - intros i' j' Hj' [Hlt | [Heq Hlt]]; [| lia].
    assert (i' = 0)%nat as -> by lia.
    simpl in Hj'.
    destruct j' as [|[|j']]; [| | lia]; eexists; vm_compute; reflexivity.
Defined.

Lemma X5_bytes_keep_order_witness :
  all_finite plane_world /\ finite_range plane_world /\
  exists nw,
    normalize_world plane_world = Ok nw /\
    exists bu bv,
      np_get (to_img_array nw) 0 1 = Some bu /\
      np_get (to_img_array nw) 1 1 = Some bv /\
      bu <= bv.
Proof.
  destruct plane_world_spec as (Hall & _ & Hrange).
  split; [exact Hall |]. split; [exact Hrange |].
  eexists. split; [vm_compute; reflexivity |].
  apply (X5_bytes_keep_order plane_world _ 0 1 1 1
           (1 / 50)%float (1 / 50 + 1 / 50)%float Hall Hrange);
    [vm_compute; reflexivity | reflexivity | reflexivity |
     vm_compute; discriminate].
Defined.

